(** * RINGING asset generator: a shallow embedding of [assets/create_assets.py]

    The Python program synthesises scene backgrounds and UI textures with
    Pillow.  This development embeds the program in Rocq and states its
    specification against the embedding:

    - Python [int] is [Z]; Python [float] is the kernel's binary64 [float],
      so every rounding of the source is the rounding of the model;
    - the process-wide random stream is an oracle [nat -> Z] read at a cursor
      kept in the world;
    - Pillow's rasteriser (lines, polygons, ellipses, blur, paste, putpixel)
      and [math.sin] are outside the program: they are parameters; every call
      of the rasteriser is recorded in a trace;
    - statements that can raise are run in a state-and-exception monad. *)

From Stdlib Require Import ZArith List Bool Lia String Ascii Floats Uint63.
Import ListNotations.
Open Scope Z_scope.

(** ** Python numbers *)

Module Py.

Inductive exn := ValueError | ZeroDivisionError | OverflowError | TypeError | IndexError.

(** Expressions that may raise. *)
Definition E (A : Type) : Type := (exn + A)%type.

Definition eret {A} (a : A) : E A := inr a.
Definition ebind {A B} (m : E A) (k : A -> E B) : E B :=
  match m with inl e => inl e | inr a => k a end.

(** [float(z)] for an integer below 2^63 = 9223372036854775808 in magnitude:
    the conversion is the hardware one, exact up to 2^53 = 9007199254740992. *)
Definition float_of_small (z : Z) : float :=
  if z <? 0 then PrimFloat.opp (PrimFloat.of_uint63 (Uint63.of_Z (- z)))
  else PrimFloat.of_uint63 (Uint63.of_Z z).

(** The implicit [int -> float] conversion of mixed arithmetic: correctly
    rounded, [OverflowError] when the integer does not fit a double. *)
Definition py_float (z : Z) : E float :=
  if Z.abs z <? 9223372036854775808 then inr (float_of_small z)
  else
    let f := SF2Prim (binary_normalize prec emax z 0 false) in
    if PrimFloat.is_infinity f then inl OverflowError else inr f.

(** [int(f)]: truncation toward zero; NaN and the infinities raise. *)
Definition py_int (f : float) : E Z :=
  match Prim2SF f with
  | S754_nan => inl ValueError
  | S754_infinity _ => inl OverflowError
  | S754_zero _ => inr 0
  | S754_finite s m e =>
      let a := if 0 <=? e then Z.shiftl (Z.pos m) e else Z.shiftr (Z.pos m) (- e) in
      inr (if s then - a else a)
  end.

(** [a / b] on two ints (true division).  CPython returns a signed zero for
    a zero numerator and divides the two doubles when both operands are
    exactly representable; larger operands are rounded once from the exact
    quotient. *)
Definition py_truediv (a b : Z) : E float :=
  if b =? 0 then inl ZeroDivisionError
  else if a =? 0 then inr (if b <? 0 then PrimFloat.neg_zero else PrimFloat.zero)
  else if (Z.abs a <=? 9007199254740992) && (Z.abs b <=? 9007199254740992)
  then inr (PrimFloat.div (float_of_small a) (float_of_small b))
  else
    let '(q, e, l) := SFdiv_core_binary prec emax (Z.abs a) 0 (Z.abs b) 0 in
    let f := SF2Prim (binary_round_aux prec emax (xorb (a <? 0) (b <? 0)) q e l) in
    if PrimFloat.is_infinity f then inl OverflowError else inr f.

(** [f / g] on two floats: Python raises on a zero divisor. *)
Definition py_fdiv (f g : float) : E float :=
  if PrimFloat.is_zero g then inl ZeroDivisionError else inr (PrimFloat.div f g).

(** [math.sqrt] of an int argument. *)
Definition math_sqrt (z : Z) : E float :=
  ebind (py_float z) (fun f =>
    if PrimFloat.ltb f PrimFloat.zero then inl ValueError else inr (PrimFloat.sqrt f)).

(** [math.pi] *)
Definition math_pi : float := 0x1.921fb54442d18p+1%float.

(** Exact comparison [int <= float] and [float <= int], as Python performs
    it (no rounding of the integer). *)
Definition int_le_float (z : Z) (f : float) : bool :=
  match Prim2SF f with
  | S754_nan => false
  | S754_infinity s => negb s
  | S754_zero _ => z <=? 0
  | S754_finite s m e =>
      let v := if s then Z.neg m else Z.pos m in
      if 0 <=? e then z <=? v * 2 ^ e else z * 2 ^ (- e) <=? v
  end.

Definition float_le_int (f : float) (z : Z) : bool :=
  match Prim2SF f with
  | S754_nan => false
  | S754_infinity s => s
  | S754_zero _ => 0 <=? z
  | S754_finite s m e =>
      let v := if s then Z.neg m else Z.pos m in
      if 0 <=? e then v * 2 ^ e <=? z else v <=? z * 2 ^ (- e)
  end.

(** A coordinate handed to the drawing library: an int or a float. *)
Inductive num := NInt (z : Z) | NFlt (f : float).

Definition num_le (a b : num) : bool :=
  match a, b with
  | NInt x, NInt y => x <=? y
  | NInt x, NFlt g => int_le_float x g
  | NFlt f, NInt y => float_le_int f y
  | NFlt f, NFlt g => PrimFloat.leb f g
  end.

(** [range(n)] and [range(lo, hi)] *)
Definition range (n : Z) : list Z := map Z.of_nat (seq 0 (Z.to_nat n)).
Definition range2 (lo hi : Z) : list Z := map (fun k => lo + Z.of_nat k) (seq 0 (Z.to_nat (hi - lo))).

(** [os.path.join] on POSIX paths. *)
Definition ends_with_slash (s : string) : bool :=
  match get (String.length s - 1) s with
  | Some c => Ascii.eqb c "/"
  | None => false
  end.

Definition os_path_join (a b : string) : string :=
  match b with
  | String c _ =>
      if Ascii.eqb c "/" then b
      else if ((String.length a =? 0)%nat || ends_with_slash a)%bool then a ++ b
      else a ++ "/" ++ b
  | EmptyString =>
      if ((String.length a =? 0)%nat || ends_with_slash a)%bool then a else a ++ "/"
  end%string.

End Py.
Export Py.

(** ** Images *)

Inductive mode := ModeL | ModeRGB | ModeRGBA.

(** The four storage bytes of one pixel. *)
Definition quad : Type := (Z * Z * Z * Z)%type.

(** A Pillow image: a mode, a size, and the pixel store.  The store is read
    only inside the image's own size. *)
Record image := mkImage {
  im_mode : mode;
  im_width : Z;
  im_height : Z;
  im_buf : Z -> Z -> quad
}.

(** What [pixels[i, j]] evaluates to: an int for mode L, a 3-tuple for RGB,
    a 4-tuple for RGBA. *)
Inductive pixel := PL (v : Z) | PRGB (r g b : Z) | PRGBA (r g b a : Z).

Definition view (m : mode) (q : quad) : pixel :=
  let '(r, g, b, a) := q in
  match m with
  | ModeL => PL r
  | ModeRGB => PRGB r g b
  | ModeRGBA => PRGBA r g b a
  end.

Definition quad_of (p : pixel) : quad :=
  match p with
  | PL v => (v, v, v, 255)
  | PRGB r g b => (r, g, b, 255)
  | PRGBA r g b a => (r, g, b, a)
  end.

Definition getpixel (img : image) (i j : Z) : pixel :=
  view (im_mode img) (im_buf img i j).

(** [pixels[i, j] = p] *)
Definition setpixel (img : image) (i j : Z) (p : pixel) : image :=
  mkImage (im_mode img) (im_width img) (im_height img)
    (fun x y => if (x =? i) && (y =? j) then quad_of p else im_buf img x y).

Definition with_buf (img : image) (buf : Z -> Z -> quad) : image :=
  mkImage (im_mode img) (im_width img) (im_height img) buf.

(** Storing a channel saturates it to 8 bits. *)
Definition clip8 (v : Z) : Z := if v <=? 0 then 0 else if v <? 256 then v else 255.

(** [Image.new(mode, (w, h), color)]: a negative side raises; the fill
    colour is saturated channel by channel when it is stored.  Sides are
    taken below 2^31 (Pillow keeps them in a C int and raises beyond). *)
Definition Image_new (m : mode) (w h : Z) (c : quad) : E image :=
  if (w <? 0) || (h <? 0) then inl ValueError
  else
    let '(r, g, b, a) := c in
    inr (mkImage m w h (fun _ _ => (clip8 r, clip8 g, clip8 b, clip8 a))).

(** [img.convert('RGB')] on an RGBA image drops the alpha band;
    [img.split()[3]] is the alpha band as an L image. *)
Definition convert_RGB (img : image) : image :=
  mkImage ModeRGB (im_width img) (im_height img) (im_buf img).

Definition split_alpha (img : image) : image :=
  mkImage ModeL (im_width img) (im_height img)
    (fun x y => let '(_, _, _, a) := im_buf img x y in (a, a, a, 255)).

(** A fill colour as the program passes it: a 3-tuple or a 4-tuple. *)
Inductive ink := Ink3 (r g b : Z) | Ink4 (r g b a : Z).

Definition color : Type := (Z * Z * Z)%type.

Definition ink3 (c : color) : ink := let '(r, g, b) := c in Ink3 r g b.
Definition ink4 (c : color) (a : Z) : ink := let '(r, g, b) := c in Ink4 r g b a.
Definition color_map (f : Z -> Z) (c : color) : color :=
  let '(r, g, b) := c in (f r, f g, f b).

(** The calls the program makes into Pillow's rasteriser. *)
Inductive pil_op :=
| Line (x0 y0 x1 y1 : Z) (fill : ink)
| Polygon (points : list (num * Z)) (fill : ink)
| Rectangle (x0 y0 x1 y1 : Z) (fill : ink)
| Ellipse (x0 y0 x1 y1 : Z) (fill : ink)
| PutPixel (x y : Z) (value : ink)
| Paste (src : image) (x y : Z) (mask : option image)
| GaussianBlur (radius : float).

(** ** The world: random stream, file system writes, trace *)

Inductive event :=
| EvPil (op : pil_op)
| EvSave (path : string)
| EvPrint (line : string).

Record world := mkWorld {
  w_oracle : nat -> Z;
  w_pos : nat;
  w_files : list (string * image);
  w_trace : list event
}.

Inductive result (A : Type) :=
| Ok (a : A) (w : world)
| Raise (e : exn) (w : world).
Arguments Ok {A} a w.
Arguments Raise {A} e w.

Definition M (A : Type) : Type := world -> result A.

Definition ret {A} (a : A) : M A := fun w => Ok a w.
Definition bind {A B} (m : M A) (k : A -> M B) : M B :=
  fun w => match m w with Ok a w' => k a w' | Raise e w' => Raise e w' end.
Definition raise {A} (e : exn) : M A := fun w => Raise e w.
Definition lift {A} (m : E A) : M A :=
  match m with inl e => raise e | inr a => ret a end.

Declare Scope prog_scope.
Delimit Scope prog_scope with prog.
Notation "x <- c1 ;; c2" := (bind c1 (fun x => c2))
  (at level 61, c1 at next level, right associativity) : prog_scope.
Notation "' pat <- c1 ;; c2" := (bind c1 (fun x => match x with pat => c2 end))
  (at level 61, pat pattern, c1 at next level, right associativity) : prog_scope.
Notation "c1 ;; c2" := (bind c1 (fun _ => c2))
  (at level 61, right associativity) : prog_scope.
Open Scope prog_scope.

Fixpoint for_each {A S} (l : list A) (body : A -> S -> M S) (s : S) : M S :=
  match l with
  | [] => ret s
  | a :: l' => s' <- body a s ;; for_each l' body s'
  end.

(** *** The random module *)

Definition next_raw : M Z :=
  fun w => Ok (w_oracle w (w_pos w))
              (mkWorld (w_oracle w) (S (w_pos w)) (w_files w) (w_trace w)).

(** [random.randint(a, b)]: an integer of [[a, b]]; an empty range raises. *)
Definition randint (a b : Z) : M Z :=
  if b <? a then raise ValueError
  else r <- next_raw ;; ret (a + r mod (b - a + 1)).

(** [random.random()]: a multiple of 2^-53 in [[0, 1)]; 9007199254740992 is
    2^53. *)
Definition random_random : M float :=
  r <- next_raw ;;
  ret (PrimFloat.mul (float_of_small (r mod 9007199254740992)) 0x1p-53%float).

(** [random.choice(seq)] *)
Definition random_choice {A} (l : list A) : M A :=
  match l with
  | [] => raise IndexError
  | d :: _ => r <- next_raw ;; ret (nth (Z.to_nat (r mod Z.of_nat (List.length l))) l d)
  end.

(** *** Output *)

Definition emit (e : event) : M unit :=
  fun w => Ok tt (mkWorld (w_oracle w) (w_pos w) (w_files w) (w_trace w ++ [e])).

Definition print (s : string) : M unit := emit (EvPrint s).

(** [img.save(path, 'PNG', optimize=True)]: an image without pixels cannot
    be encoded, the call raises [ValueError] and no write is recorded. *)
Definition save (img : image) (path : string) : M unit :=
  fun w =>
    if (im_width img <=? 0) || (im_height img <=? 0) then Raise ValueError w
    else Ok tt (mkWorld (w_oracle w) (w_pos w) (w_files w ++ [(path, img)])
                        (w_trace w ++ [EvSave path])).

(** ** The program *)

(** The colour table.  Every lookup of the program uses a literal key of the
    table, so [KeyError] cannot occur. *)
Definition COLORS_table : list (string * color) :=
  [ ("deep_black", (15, 18, 25));
    ("charcoal", (35, 40, 50));
    ("slate", (70, 80, 95));
    ("ash", (110, 120, 130));
    ("fog", (160, 170, 180));
    ("snow_white", (220, 225, 230));
    ("earth_brown", (60, 45, 35));
    ("rust", (90, 60, 45));
    ("amber", (180, 140, 60));
    ("cold_blue", (80, 100, 130)) ]%string.

Fixpoint dict_get {V} (d : list (string * V)) (k : string) (default : V) : V :=
  match d with
  | [] => default
  | (k', v) :: d' => if String.eqb k' k then v else dict_get d' k default
  end.

Definition COLORS (k : string) : color := dict_get COLORS_table k (0, 0, 0).

Definition clamp8 (v : Z) : Z := Z.max 0 (Z.min 255 v).

Section Program.

(** Pillow's rasteriser: the new pixel store after one call on an image. *)
Variable rasterize : pil_op -> image -> Z -> Z -> quad.
(** [math.sin] *)
Variable math_sin : float -> float.
(** [os.path.dirname(os.path.abspath(__file__))] *)
Variable output_dir : string.

Definition backgrounds_dir : string := os_path_join output_dir "backgrounds".
Definition textures_dir : string := os_path_join output_dir "textures".

(** One call into the drawing library: recorded, then applied in place. *)
Definition pil (op : pil_op) (img : image) : M image :=
  emit (EvPil op) ;; ret (with_buf img (rasterize op img)).

(** Body of the inner loop of [add_noise] at pixel [(i, j)]. *)
Definition add_noise_pixel (intensity i j : Z) (img : image) : M image :=
  match getpixel img i j with
  | PL _ => raise TypeError
  | PRGB r g b =>
      noise <- randint (- intensity) intensity ;;
      ret (setpixel img i j
             (PRGB (clamp8 (r + noise)) (clamp8 (g + noise)) (clamp8 (b + noise))))
  | PRGBA r g b a =>
      noise <- randint (- intensity) intensity ;;
      ret (setpixel img i j
             (PRGBA (clamp8 (r + noise)) (clamp8 (g + noise)) (clamp8 (b + noise)) a))
  end.

Definition add_noise (img : image) (intensity : Z) : M image :=
  for_each (range (im_width img))
    (fun i img => for_each (range (im_height img)) (add_noise_pixel intensity i) img)
    img.

(** [int(c1 * (1 - ratio) + c2 * ratio)] *)
Definition gradient_channel (c1 c2 : Z) (ratio : float) : E Z :=
  ebind (py_float c1) (fun f1 =>
  ebind (py_float c2) (fun f2 =>
  py_int (f1 * (1 - ratio) + f2 * ratio)%float)).

Definition gradient_row (width height : Z) (color1 color2 : color) (direction : string)
    (i : Z) (img : image) : M image :=
  let vertical := String.eqb direction "vertical" in
  let '(r1, g1, b1) := color1 in
  let '(r2, g2, b2) := color2 in
  ratio <- lift (py_truediv i (if vertical then height else width)) ;;
  r <- lift (gradient_channel r1 r2 ratio) ;;
  g <- lift (gradient_channel g1 g2 ratio) ;;
  b <- lift (gradient_channel b1 b2 ratio) ;;
  if vertical then pil (Line 0 i width i (Ink3 r g b)) img
  else pil (Line i 0 i height (Ink3 r g b)) img.

Definition create_gradient (width height : Z) (color1 color2 : color) (direction : string)
    : M image :=
  img <- lift (Image_new ModeRGB width height (0, 0, 0, 255)) ;;
  for_each (range (if String.eqb direction "vertical" then height else width))
    (gradient_row width height color1 color2 direction) img.

(** One point of the irregular roofline. *)
Definition roof_point (x top_y : Z) (segment_width : float) (i : Z)
    (points : list (num * Z)) : M (list (num * Z)) :=
  fi <- lift (py_float i) ;;
  fx <- lift (py_float x) ;;
  dy <- randint (-20) 30 ;;
  ret (points ++ [(NFlt (fx + fi * segment_width)%float, top_y + dy)]).

(** One cell of the window grid. *)
Definition window_cell (x width top_y building_height window_rows window_cols : Z)
    (c : color) (row col : Z) (img : image) : M image :=
  u <- random_random ;;
  if PrimFloat.ltb u 0x1.3333333333333p-2%float then
    let wx := x + 10 + col * (width - 20) / window_cols in
    let wy := top_y + 20 + row * (building_height - 40) / window_rows in
    v <- random_random ;;
    let window_color :=
      if PrimFloat.ltb v 0x1.999999999999ap-4%float then COLORS "amber"
      else color_map (fun ch => Z.max 0 (ch - 15)) c in
    pil (Rectangle wx wy (wx + 8) (wy + 12) (ink3 window_color)) img
  else ret img.

Definition draw_building_silhouette (img : image) (x width height base_y : Z) (c : color)
    : M image :=
  building_height <- randint (height / 4) (height / 2) ;;
  let top_y := base_y - building_height in
  let points := [(NInt x, base_y); (NInt x, top_y)] in
  num_segments <- randint 3 8 ;;
  segment_width <- lift (py_truediv width num_segments) ;;
  points <- for_each (range (num_segments + 1)) (roof_point x top_y segment_width) points ;;
  let points := points ++ [(NInt (x + width), base_y)] in
  img <- pil (Polygon points (ink3 c)) img ;;
  window_rows <- randint 3 8 ;;
  window_cols <- randint 2 5 ;;
  for_each (range window_rows)
    (fun row img =>
       for_each (range window_cols)
         (window_cell x width top_y building_height window_rows window_cols c row) img)
    img.

(** One atmospheric haze band. *)
Definition haze_layer (width height : Z) (layer : Z) (img : image) : M image :=
  let haze_y := height / 3 + layer * 100 in
  let haze_alpha := 30 + layer * 20 in
  let '(fr, fg, fb) := COLORS "fog" in
  haze <- lift (Image_new ModeRGBA width 50 (fr, fg, fb, haze_alpha)) ;;
  haze <- pil (GaussianBlur 25%float) haze ;;
  pil (Paste (convert_RGB haze) 0 haze_y
         (match im_mode haze with ModeRGBA => Some (split_alpha haze) | _ => None end))
      img.

Definition snow_particle (width height : Z) (_ : Z) (img : image) : M image :=
  sx <- randint 0 width ;;
  sy <- randint 0 height ;;
  size <- randint 1 3 ;;
  alpha <- randint 100 200 ;;
  pil (Ellipse sx sy (sx + size) (sy + size) (ink3 (COLORS "snow_white"))) img.

Definition create_scene_background (scene_name : string)
    (scene_config : list (string * color)) : M string :=
  let width := 640 in
  let height := 1200 in
  let sky_top := dict_get scene_config "sky_top" (COLORS "charcoal") in
  let sky_bottom := dict_get scene_config "sky_bottom" (COLORS "slate") in
  img <- create_gradient width height sky_top sky_bottom "vertical" ;;
  img <- for_each (range 3) (haze_layer width height) img ;;
  fh <- lift (py_float height) ;;
  ground_y <- lift (py_int (fh * 0x1.6666666666666p-1)%float) ;;
  img <- for_each (range 8)
    (fun _ img =>
       bx <- randint (-50) width ;;
       bw <- randint 40 120 ;;
       let color_fade := color_map (fun ch => Z.min 255 (ch + 40)) (COLORS "charcoal") in
       draw_building_silhouette img bx bw height (ground_y - 50) color_fade) img ;;
  img <- for_each (range 6)
    (fun _ img =>
       bx <- randint (-30) (width - 50) ;;
       bw <- randint 60 150 ;;
       draw_building_silhouette img bx bw height ground_y (COLORS "charcoal")) img ;;
  img <- for_each (range 4)
    (fun _ img =>
       bx <- randint (-20) (width - 100) ;;
       bw <- randint 80 200 ;;
       draw_building_silhouette img bx bw height (ground_y + 100) (COLORS "deep_black")) img ;;
  let ground_color := dict_get scene_config "ground_color" (COLORS "ash") in
  img <- pil (Rectangle 0 (ground_y + 50) width height (ink3 ground_color)) img ;;
  img <- for_each (range 200) (snow_particle width height) img ;;
  img <- add_noise img 12 ;;
  img <- pil (GaussianBlur 0x1p-1%float) img ;;
  let filepath := os_path_join backgrounds_dir (scene_name ++ ".png") in
  save img filepath ;;
  print ("Created: " ++ filepath) ;;
  ret filepath.

(** The three style routines of [create_ui_texture]. *)
Definition rough_spot (width height : Z) (base_color : color) (_ : Z) (img : image)
    : M image :=
  x <- randint 0 (width - 1) ;;
  y <- randint 0 (height - 1) ;;
  darkness <- randint 10 40 ;;
  let c := color_map (fun ch => Z.max 0 (ch - darkness)) base_color in
  size <- randint 1 4 ;;
  pil (Ellipse x y (x + size) (y + size) (ink4 c 200)) img.

Definition brush_row (width : Z) (base_color : color) (y : Z) (img : image) : M image :=
  variation <- randint (-15) 15 ;;
  let c := color_map (fun ch => clamp8 (ch + variation)) base_color in
  da <- randint (-30) 30 ;;
  let alpha := 200 + da in
  pil (Line 0 y width y (ink4 c alpha)) img.

Definition brush_notch (width height : Z) (_ : Z) (img : image) : M image :=
  x1 <- randint 0 10 ;;
  x2 <- randint (width - 10) width ;;
  x <- random_choice [x1; x2] ;;
  y <- randint 0 height ;;
  pil (Ellipse (x - 5) (y - 5) (x + 5) (y + 5) (Ink4 0 0 0 0)) img.

(** [int(30 * (dist / max_dist))] at [(x, y)]. *)
Definition inventory_darkness (center_x center_y x y : Z) : E Z :=
  ebind (math_sqrt ((x - center_x) ^ 2 + (y - center_y) ^ 2)) (fun dist =>
  ebind (math_sqrt (center_x ^ 2 + center_y ^ 2)) (fun max_dist =>
  ebind (py_fdiv dist max_dist) (fun q =>
  py_int (30 * q)%float))).

Definition inventory_pixel (center_x center_y : Z) (base_color : color) (y x : Z)
    (img : image) : M image :=
  let '(br, bg, bb) := base_color in
  darkness <- lift (inventory_darkness center_x center_y x y) ;;
  dr <- randint (-5) 5 ;;
  let r := Z.max 0 (br - darkness + dr) in
  dg <- randint (-5) 5 ;;
  let g := Z.max 0 (bg - darkness + dg) in
  db <- randint (-5) 5 ;;
  let b := Z.max 0 (bb - darkness + db) in
  pil (PutPixel x y (Ink4 r g b 255)) img.

Definition inventory_highlight (i : Z) (img : image) : M image :=
  t <- lift (py_truediv i 20) ;;
  alpha <- lift (py_int (30 * (1 - t))%float) ;;
  pil (Line i 0 0 i (ink4 (COLORS "fog") alpha)) img.

Definition create_ui_texture (name : string) (width height : Z) (base_color : color)
    (style : string) : M string :=
  let '(br, bg, bb) := base_color in
  img <- lift (Image_new ModeRGBA width height (br, bg, bb, 255)) ;;
  img <-
    (if String.eqb style "rough" then
       for_each (range (width * height / 20)) (rough_spot width height base_color) img
     else if String.eqb style "brushstroke" then
       img <- for_each (range height) (brush_row width base_color) img ;;
       for_each (range 50) (brush_notch width height) img
     else if String.eqb style "inventory" then
       let center_x := width / 2 in
       let center_y := height / 2 in
       img <- for_each (range height)
         (fun y img =>
            for_each (range width) (inventory_pixel center_x center_y base_color y) img)
         img ;;
       for_each (range 20) inventory_highlight img
     else ret img) ;;
  img <- add_noise img 8 ;;
  let filepath := os_path_join textures_dir (name ++ ".png") in
  save img filepath ;;
  print ("Created: " ++ filepath) ;;
  ret filepath.

(** [math.sin(progress * math.pi) * 0.3 + 0.7] for row [y] of a canvas of
    the given height. *)
Definition stroke_wave (height y : Z) : E float :=
  ebind (py_truediv y height) (fun progress =>
  eret (math_sin (progress * math_pi) * 0x1.3333333333333p-2 + 0x1.6666666666666p-1)%float).

(** One row of the main stroke of [create_brush_stroke_speaker]. *)
Definition stroke_row (width height : Z) (brush_color : color) (y : Z) (img : image)
    : M image :=
  wave <- lift (stroke_wave height y) ;;
  j1 <- randint (-2) 2 ;;
  f1 <- lift (py_float j1) ;;
  start_x <- lift (py_int (10 - wave * 8 + f1)%float) ;;
  fw <- lift (py_float (width - 10)) ;;
  j2 <- randint (-2) 2 ;;
  f2 <- lift (py_float j2) ;;
  end_x <- lift (py_int (fw + wave * 8 + f2)%float) ;;
  variation <- randint (-10) 10 ;;
  let c := color_map (fun ch => clamp8 (ch + variation)) brush_color in
  a0 <- lift (py_int (220 * wave)%float) ;;
  j3 <- randint (-20) 20 ;;
  let alpha := a0 + j3 in
  let alpha := clamp8 alpha in
  pil (Line start_x y end_x y (ink4 c alpha)) img.

Definition stroke_dot (width height : Z) (brush_color : color) (_ : Z) (img : image)
    : M image :=
  x <- randint 15 (width - 15) ;;
  y <- randint 8 (height - 8) ;;
  size <- randint 1 3 ;;
  darkness <- randint (-20) 20 ;;
  let c := color_map (fun ch => clamp8 (ch + darkness)) brush_color in
  pil (Ellipse x y (x + size) (y + size) (ink4 c 180)) img.

Definition create_brush_stroke_speaker : M string :=
  let width := 200 in
  let height := 40 in
  img <- lift (Image_new ModeRGBA width height (0, 0, 0, 0)) ;;
  let brush_color := COLORS "rust" in
  img <- for_each (range2 5 (height - 5)) (stroke_row width height brush_color) img ;;
  img <- for_each (range 100) (stroke_dot width height brush_color) img ;;
  let filepath := os_path_join textures_dir "speaker_brush.png" in
  save img filepath ;;
  print ("Created: " ++ filepath) ;;
  ret filepath.

Definition nl : string := String (ascii_of_nat 10) EmptyString.

(** The scene table of [main], in insertion order. *)
Definition scenes : list (string * list (string * color)) :=
  [ ("scene_00_home",
      [("sky_top", COLORS "deep_black"); ("sky_bottom", COLORS "charcoal");
       ("ground_color", COLORS "ash")]);
    ("scene_01_street",
      [("sky_top", COLORS "charcoal"); ("sky_bottom", COLORS "slate");
       ("ground_color", COLORS "fog")]);
    ("scene_02_restarea",
      [("sky_top", COLORS "deep_black"); ("sky_bottom", (50, 40, 35));
       ("ground_color", COLORS "earth_brown")]);
    ("scene_03_highway",
      [("sky_top", COLORS "slate"); ("sky_bottom", COLORS "fog");
       ("ground_color", COLORS "snow_white")]);
    ("scene_04_daejeon",
      [("sky_top", (20, 25, 40)); ("sky_bottom", COLORS "charcoal");
       ("ground_color", COLORS "ash")]);
    ("scene_05_shelter",
      [("sky_top", COLORS "charcoal"); ("sky_bottom", COLORS "slate");
       ("ground_color", COLORS "earth_brown")]);
    ("scene_06_gyeongnam",
      [("sky_top", COLORS "slate"); ("sky_bottom", COLORS "fog");
       ("ground_color", COLORS "snow_white")]);
    ("scene_07_busan_outer",
      [("sky_top", COLORS "cold_blue"); ("sky_bottom", COLORS "slate");
       ("ground_color", COLORS "ash")]);
    ("scene_08_sanctuary",
      [("sky_top", COLORS "charcoal"); ("sky_bottom", (60, 70, 90));
       ("ground_color", COLORS "slate")]);
    ("scene_09_ending",
      [("sky_top", (80, 70, 60)); ("sky_bottom", (120, 100, 80));
       ("ground_color", COLORS "fog")]) ]%string.

Definition main : M unit :=
  print ("=== RINGING Frozen Silence Asset Generator ===" ++ nl) ;;
  print "Generating scene backgrounds..." ;;
  for_each scenes
    (fun '(scene_name, config) (_ : unit) =>
       create_scene_background scene_name config ;; ret tt) tt ;;
  print (nl ++ "Generating UI textures...") ;;
  create_ui_texture "inv_slot" 64 64 (COLORS "earth_brown") "inventory" ;;
  create_ui_texture "inv_slot_empty" 64 64 (30, 25, 20) "inventory" ;;
  create_ui_texture "btn_texture" 280 50 (COLORS "earth_brown") "rough" ;;
  create_ui_texture "btn_texture_hover" 280 50 (COLORS "rust") "rough" ;;
  create_ui_texture "soundbox_texture" 300 150 (40, 50, 65) "rough" ;;
  create_ui_texture "textbox_bg" 300 200 (10, 12, 18) "rough" ;;
  create_brush_stroke_speaker ;;
  print (nl ++ "=== Asset generation complete! ===") ;;
  print ("Backgrounds saved to: " ++ backgrounds_dir) ;;
  print ("Textures saved to: " ++ textures_dir).

End Program.

(** ** Reference instances of the external parts

    Used to run the program on small inputs.  [raster_ref] implements the
    calls whose effect on the store is fixed by their arguments alone
    (putpixel and axis-aligned lines and rectangles, end points included,
    channels saturated on store) and leaves the store unchanged on polygons,
    ellipses, other lines, paste and blur.  [sin_ref] is an odd Taylor polynomial
    saturated to [[-1, 1]]. *)

Definition ink_quad (k : ink) : quad :=
  match k with
  | Ink3 r g b => (clamp8 r, clamp8 g, clamp8 b, 255)
  | Ink4 r g b a => (clamp8 r, clamp8 g, clamp8 b, clamp8 a)
  end.

Definition in_box (x0 y0 x1 y1 x y : Z) : bool :=
  (x0 <=? x) && (x <=? x1) && (y0 <=? y) && (y <=? y1).

Definition raster_ref (op : pil_op) (img : image) (x y : Z) : quad :=
  match op with
  | PutPixel px py v =>
      if (x =? px) && (y =? py) then ink_quad v else im_buf img x y
  | Line x0 y0 x1 y1 fill =>
      if ((x0 =? x1) || (y0 =? y1))
         && in_box (Z.min x0 x1) (Z.min y0 y1) (Z.max x0 x1) (Z.max y0 y1) x y
      then ink_quad fill else im_buf img x y
  | Rectangle x0 y0 x1 y1 fill =>
      if in_box x0 y0 x1 y1 x y then ink_quad fill else im_buf img x y
  | _ => im_buf img x y
  end.

Definition sin_ref (x : float) : float :=
  let x2 := (x * x)%float in
  let p := (x * (1 - x2 / 6 * (1 - x2 / 20 * (1 - x2 / 42 * (1 - x2 / 72 * (1 - x2 / 110))))))%float in
  if PrimFloat.leb p 1 then (if PrimFloat.leb (-1) p then p else (-1)%float) else 1%float.

(** A small random stream, image and world for running examples. *)
Definition demo_world : world :=
  mkWorld (fun n => Z.of_nat n * 7 + 3) 0 [] [].

Definition demo_image : image :=
  mkImage ModeRGBA 2 1 (fun x _ => if x =? 0 then (10, 250, 30, 40) else (0, 128, 255, 255)).

(** A grey-scale image of one pixel. *)
Definition demo_gray : image := mkImage ModeL 1 1 (fun _ _ => (7, 7, 7, 255)).

(** ** Specification vocabulary *)

(** The world after [n] more draws from the random stream. *)
Definition adv (n : nat) (w : world) : world :=
  mkWorld (w_oracle w) (n + w_pos w) (w_files w) (w_trace w).

(** The world after more events were recorded. *)
Definition logged (evs : list event) (w : world) : world :=
  mkWorld (w_oracle w) (w_pos w) (w_files w) (w_trace w ++ evs).

(** [m] run from [w] returns normally, with a result and final world
    satisfying [Q]. *)
Definition returns {A} (m : M A) (w : world) (Q : A -> world -> Prop) : Prop :=
  exists a w', m w = Ok a w' /\ Q a w'.

(** A computation whose outcome and recorded events do not depend on the
    world it starts from, and which leaves the random stream and the files
    untouched. *)
Definition deterministic {A} (m : M A) : Prop :=
  exists (r : exn + A) (evs : list event),
    forall w, m w = match r with
                    | inr a => Ok a (logged evs w)
                    | inl e => Raise e (logged evs w)
                    end.

(** [m] always returns, writes no file, and its result satisfies [P]. *)
Definition keeps_files {A} (m : M A) (P : A -> Prop) : Prop :=
  forall w, returns m w (fun a w' => P a /\ w_files w' = w_files w).

(** Same mode and size. *)
Definition same_shape (img img' : image) : Prop :=
  im_mode img' = im_mode img /\ im_width img' = im_width img /\
  im_height img' = im_height img.

(** An 8-bit channel, colour, pixel. *)
Definition chan8 (v : Z) : Prop := 0 <= v <= 255.
Definition color8 (c : color) : Prop :=
  let '(r, g, b) := c in chan8 r /\ chan8 g /\ chan8 b.
Definition pixel8 (p : pixel) : Prop :=
  match p with
  | PL _ => False
  | PRGB r g b => chan8 r /\ chan8 g /\ chan8 b
  | PRGBA r g b a => chan8 r /\ chan8 g /\ chan8 b /\ chan8 a
  end.

(** The colour channels and the alpha channel of a pixel. *)
Definition rgb_of (p : pixel) : list Z :=
  match p with
  | PL v => [v]
  | PRGB r g b => [r; g; b]
  | PRGBA r g b _ => [r; g; b]
  end.
Definition alpha_of (p : pixel) : option Z :=
  match p with PRGBA _ _ _ a => Some a | _ => None end.

(** A pixel with one delta added to R, G and B, each clamped. *)
Definition noisy (delta : Z) (p : pixel) : pixel :=
  match p with
  | PL v => PL v
  | PRGB r g b => PRGB (clamp8 (r + delta)) (clamp8 (g + delta)) (clamp8 (b + delta))
  | PRGBA r g b a => PRGBA (clamp8 (r + delta)) (clamp8 (g + delta)) (clamp8 (b + delta)) a
  end.

(** The delta [add_noise] draws for pixel [(i, j)] of an image of the given
    height, when started in world [w]: the loops run column by column. *)
Definition noise_at (w : world) (intensity height i j : Z) : Z :=
  - intensity
  + w_oracle w (Z.to_nat (i * height + j) + w_pos w) mod (intensity - - intensity + 1).

Definition in_image (img : image) (i j : Z) : Prop :=
  0 <= i < im_width img /\ 0 <= j < im_height img.

(** Non-decreasing sequence of coordinates. *)
Fixpoint nondecreasing (l : list num) : bool :=
  match l with
  | a :: (b :: _) as t => num_le a b && nondecreasing t
  | _ => true
  end.

(** The x-coordinates [draw_building_silhouette] gives to the left base
    corner, the left top corner and the [k + 1] roofline points. *)
Definition roofline_xs (x : Z) (segment_width : float) (k : Z) : list num :=
  NInt x :: NInt x
  :: map (fun i => NFlt (float_of_small x + float_of_small i * segment_width)%float)
       (range (k + 1)).

Fixpoint float_sorted (l : list float) : bool :=
  match l with
  | a :: (b :: _) as t => PrimFloat.leb a b && float_sorted t
  | _ => true
  end.

(** The checks of the roofline x-coordinates over the arguments
    [create_scene_background] passes: x of [[-50, 640]], width of
    [[40, 200]], and every segment count of [[3, 8]]. *)
Definition xs_table : list (Z * float) :=
  map (fun x => (x, float_of_small x)) (range2 (-50) 641).

Definition int_test (p : Z * float) : bool :=
  int_le_float (fst p) (snd p + PrimFloat.zero)%float.

(** The offsets [i * segment_width] of the roofline points. *)
Definition roof_offsets (sw : float) (k : Z) : list float :=
  map (fun i => (float_of_small i * sw)%float) (range (k + 1)).

Definition shifted_sorted (ps : list float) (p : Z * float) : bool :=
  float_sorted (map (fun q => (snd p + q)%float) ps).

Definition offsets_test (ps : list float) : bool :=
  match ps with
  | p0 :: _ => PrimFloat.Leibniz.eqb p0 PrimFloat.zero
  | [] => false
  end
  && forallb (shifted_sorted ps) xs_table.

Definition segments_test (wd k : Z) : bool :=
  offsets_test (roof_offsets (PrimFloat.div (float_of_small wd) (float_of_small k)) k).

Definition width_test (wd : Z) : bool := forallb (segments_test wd) (range2 3 9).

(** A world whose random stream returns the same raw draw every time, with
    no file and no event yet. *)
Definition const_world (raw : Z) : world := mkWorld (fun _ => raw) 0 [] [].

(** An RGB image of the given size. *)
Definition rgb_canvas (width height : Z) (img : image) : Prop :=
  im_mode img = ModeRGB /\ im_width img = width /\ im_height img = height.

(** *** Drawing calls *)

(** [m] always returns and writes no file; its result and the events it
    records satisfy [P]. *)
Definition emits {A} (m : M A) (P : A -> list event -> Prop) : Prop :=
  forall w, returns m w (fun a w' =>
    w_files w' = w_files w /\ exists evs, w_trace w' = w_trace w ++ evs /\ P a evs).

(** *** Files and directories *)

(** The paths written so far, oldest first. *)
Definition written (w : world) : list string := map fst (w_files w).

(** [m] always returns, and the paths it writes are [paths], in order. *)
Definition appends {A} (paths : list string) (m : M A) : Prop :=
  forall w, returns m w (fun _ w' => written w' = written w ++ paths).

Fixpoint no_slash (s : string) : bool :=
  match s with
  | EmptyString => true
  | String c s' => negb (Ascii.eqb c "/") && no_slash s'
  end.

(** A file name: not empty, no separator. *)
Definition simple_name (s : string) : bool :=
  match s with
  | EmptyString => false
  | String _ _ => no_slash s
  end.

(** A relative path component: not empty, not starting at the root. *)
Definition relative (s : string) : bool :=
  match s with
  | EmptyString => false
  | String c _ => negb (Ascii.eqb c "/")
  end.

(** [path] names a file directly inside directory [dir]. *)
Definition file_in (dir path : string) : Prop :=
  exists name, simple_name name = true /\ path = (dir ++ "/" ++ name)%string.

(** What [os.path.join] puts in front of a relative component. *)
Definition dir_prefix (a : string) : string :=
  if ((String.length a =? 0)%nat || ends_with_slash a)%bool then a else (a ++ "/")%string.

(** The catalog of [main]: one background per scene of the table, and the
    six textures followed by the brush stroke. *)
Definition scene_names : list string := map fst scenes.

Definition texture_names : list string :=
  [ "inv_slot"; "inv_slot_empty"; "btn_texture"; "btn_texture_hover";
    "soundbox_texture"; "textbox_bg"; "speaker_brush" ]%string.

Definition catalog_backgrounds (output_dir : string) : list string :=
  map (fun n => os_path_join (backgrounds_dir output_dir) (n ++ ".png")%string) scene_names.

Definition catalog_textures (output_dir : string) : list string :=
  map (fun n => os_path_join (textures_dir output_dir) (n ++ ".png")%string) texture_names.

Definition catalog_relative : list string :=
  map (fun n => "backgrounds" ++ "/" ++ n ++ ".png")%string scene_names
  ++ map (fun n => "textures" ++ "/" ++ n ++ ".png")%string texture_names.

(** A cheap test that the darkening term at [(x, y)] is defined: both
    square roots exist, the divisor is not zero, and the quotient lies in
    [[-1, 1]]. *)
Definition darkness_test (center_x center_y x y : Z) : bool :=
  match math_sqrt ((x - center_x) ^ 2 + (y - center_y) ^ 2),
        math_sqrt (center_x ^ 2 + center_y ^ 2) with
  | inr dist, inr max_dist =>
      negb (PrimFloat.is_zero max_dist)
      && PrimFloat.leb (-1) (dist / max_dist)
      && PrimFloat.leb (dist / max_dist) 1
  | _, _ => false
  end.

Definition darkness_row_test (center_x center_y width y : Z) : bool :=
  forallb (fun x => darkness_test center_x center_y x y) (range width).

(** Magnitude of a float: finite, and below [2 ^ k] in absolute value. *)
Definition mag_le (k : Z) (x : spec_float) : Prop :=
  match x with
  | S754_zero _ => True
  | S754_finite _ m e => Z.pos (digits2_pos m) + e <= k
  | _ => False
  end.

Definition fmag (k : Z) (f : float) : Prop := mag_le k (Prim2SF f).

(** What Pillow's [draw.line] does on an RGB canvas for an axis-aligned
    line: the pixels from one end point to the other, both included, take
    the fill, saturated to 8 bits; the others are unchanged. *)
Definition draws_axis_lines (rasterize : pil_op -> image -> Z -> Z -> quad) : Prop :=
  forall img x0 y0 x1 y1 r g b x y,
    im_mode img = ModeRGB -> (x0 = x1 \/ y0 = y1) -> x0 <= x1 -> y0 <= y1 ->
    view ModeRGB (rasterize (Line x0 y0 x1 y1 (Ink3 r g b)) img x y)
    = if in_box x0 y0 x1 y1 x y then PRGB (clamp8 r) (clamp8 g) (clamp8 b)
      else getpixel img x y.

(** A colour as an RGB pixel; a pixel within 1 of a colour on each channel. *)
Definition rgb_pixel (c : color) : pixel := let '(r, g, b) := c in PRGB r g b.

Definition color_close (c : color) (p : pixel) : Prop :=
  let '(r2, g2, b2) := c in
  match p with
  | PRGB r g b => Z.abs (r - r2) <= 1 /\ Z.abs (g - g2) <= 1 /\ Z.abs (b - b2) <= 1
  | _ => False
  end.

(** The colour [create_gradient] draws at index [i] of [n] rows or columns. *)
Definition gradient_color (n : Z) (c1 c2 : color) (i : Z) : E color :=
  let '(r1, g1, b1) := c1 in
  let '(r2, g2, b2) := c2 in
  ebind (py_truediv i n) (fun ratio =>
  ebind (gradient_channel r1 r2 ratio) (fun r =>
  ebind (gradient_channel g1 g2 ratio) (fun g =>
  ebind (gradient_channel b1 b2 ratio) (fun b => eret (r, g, b))))).

(** Checks over all pairs of 8-bit channel values, each with its float. *)
Definition chan_floats : list (Z * float) :=
  map (fun c => (c, float_of_small c)) (range 256).

Definition all_chan_pairs (test : Z -> float -> Z -> float -> bool) : bool :=
  forallb (fun p => forallb (fun q => test (fst p) (snd p) (fst q) (snd q)) chan_floats)
    chan_floats.

(** The float converted by [gradient_channel]. *)
Definition gradient_mix (f1 f2 ratio : float) : float :=
  (f1 * (1 - ratio) + f2 * ratio)%float.

(** At ratio 0 the mix lies in [[a, a + 1)]. *)
Definition first_index_test (a : Z) (fa : float) (b : Z) (fb : float) : bool :=
  let s := gradient_mix fa fb PrimFloat.zero in
  PrimFloat.leb fa s && PrimFloat.ltb s (float_of_small (a + 1)).

(** At ratio (n-1)/n the mix lies in [[b - 1, b + 2)] (from 0 when b = 0). *)
Definition last_index_test (ratio : float) (a : Z) (fa : float) (b : Z) (fb : float) : bool :=
  let s := gradient_mix fa fb ratio in
  PrimFloat.leb (float_of_small (Z.max 0 (b - 1))) s
  && PrimFloat.ltb s (float_of_small (b + 2)).

Definition last_index_check (n : Z) : bool :=
  match py_truediv (n - 1) n with
  | inr ratio => all_chan_pairs (last_index_test ratio)
  | inl _ => false
  end.

(** The drawing call of row [y] of the brush stroke: a horizontal span on
    row [y] whose alpha is [int(220 * wave)] plus a jitter of [[-20, 20]],
    clamped, with [wave = sin((y / height) * pi) * 0.3 + 0.7]. *)
Definition stroke_row_event (math_sin : float -> float) (height y : Z)
    (ev : option event) : Prop :=
  exists progress wave a0 j start_x end_x c,
    py_truediv y height = inr progress /\
    wave = (math_sin (progress * math_pi) * 0x1.3333333333333p-2
            + 0x1.6666666666666p-1)%float /\
    py_int (220 * wave)%float = inr a0 /\
    -20 <= j <= 20 /\
    ev = Some (EvPil (Line start_x y end_x y (ink4 c (clamp8 (a0 + j))))).

(** [math.sin] stays within [[-1, 1]]. *)
Definition sin_bounded (math_sin : float -> float) : Prop :=
  forall x, PrimFloat.leb (-1)%float (math_sin x) = true /\
            PrimFloat.leb (math_sin x) 1%float = true.

(** *** Further vocabulary *)

(** The drawing call [create_gradient] makes for index [i]: the line of row
    [i] from [x = 0] to [x = width] (vertical), or of column [i] from
    [y = 0] to [y = height], in the colour computed for [i]. *)
Definition gradient_line (width height : Z) (color1 color2 : color) (direction : string)
    (i : Z) (ev : event) : Prop :=
  let vertical := String.eqb direction "vertical" in
  exists r g b,
    gradient_color (if vertical then height else width) color1 color2 i = inr (r, g, b) /\
    ev = EvPil (if vertical then Line 0 i width i (Ink3 r g b)
                else Line i 0 i height (Ink3 r g b)).

(** One window of a building with its top at [top_y]: the rectangle of cell
    [(row, col)] of the window grid, 8 wide and 12 high, amber when lit and
    the building colour darkened by 15 otherwise. *)
Definition window_event (x width top_y building_height window_rows window_cols : Z)
    (c : color) (ev : event) : Prop :=
  exists row col wc,
    0 <= row < window_rows /\ 0 <= col < window_cols /\
    (wc = COLORS "amber" \/ wc = color_map (fun ch => Z.max 0 (ch - 15)) c) /\
    let wx := x + 10 + col * (width - 20) / window_cols in
    let wy := top_y + 20 + row * (building_height - 40) / window_rows in
    ev = EvPil (Rectangle wx wy (wx + 8) (wy + 12) (ink3 wc)).

(** The drawing calls of one [draw_building_silhouette]: the outline
    polygon, then the windows. *)
Definition building_events (x width height base_y : Z) (c : color) (evs : list event)
    : Prop :=
  exists bh k roof rows cols rest,
    height / 4 <= bh <= height / 2 /\ 3 <= k <= 8 /\
    List.length roof = Z.to_nat (k + 1) /\
    Forall (fun p : num * Z => base_y - bh - 20 <= snd p <= base_y - bh + 30) roof /\
    3 <= rows <= 8 /\ 2 <= cols <= 5 /\
    (List.length rest <= Z.to_nat (rows * cols))%nat /\
    Forall (window_event x width (base_y - bh) bh rows cols c) rest /\
    evs = EvPil (Polygon ((NInt x, base_y) :: (NInt x, base_y - bh) :: roof
                          ++ [(NInt (x + width), base_y)]) (ink3 c)) :: rest.

(** The two drawing calls of one haze band of the scene: the blur of the
    band, then its paste at the left edge, 400 + 100 * layer rows down,
    through the band's own alpha as mask. *)
Definition haze_events (layer : Z) (evs : list event) : Prop :=
  exists src mask,
    im_mode src = ModeRGB /\ im_width src = 640 /\ im_height src = 50 /\
    im_mode mask = ModeL /\
    evs = [EvPil (GaussianBlur 25); EvPil (Paste src 0 (400 + layer * 100) (Some mask))].

(** The drawing calls of one building of a scene layer: placed at a random
    x of [[xlo, xhi]] with a random width of [[wlo, whi]]. *)
Definition scene_building (xlo xhi wlo whi base_y : Z) (c : color) (evs : list event)
    : Prop :=
  exists bx bw,
    xlo <= bx <= xhi /\ wlo <= bw <= whi /\ building_events bx bw 1200 base_y c evs.

(** A snow particle of the scene: always drawn in opaque snow white. *)
Definition snow_event (ev : event) : Prop :=
  exists sx sy size,
    0 <= sx <= 640 /\ 0 <= sy <= 1200 /\ 1 <= size <= 3 /\
    ev = EvPil (Ellipse sx sy (sx + size) (sy + size) (Ink3 220 225 230)).

(** Everything [create_scene_background] records, in order: the sky
    gradient, the haze bands, the three rows of buildings from far to near,
    the ground, the snow, the final blur, the file and its log line. *)
Definition scene_events (scene_config : list (string * color)) (path : string)
    (evs : list event) : Prop :=
  exists sky haze far mid near snow,
    evs = sky ++ List.concat haze ++ List.concat far ++ List.concat mid
          ++ List.concat near
          ++ EvPil (Rectangle 0 890 640 1200
                      (ink3 (dict_get scene_config "ground_color" (COLORS "ash"))))
          :: snow
          ++ [EvPil (GaussianBlur 0x1p-1); EvSave path; EvPrint ("Created: " ++ path)] /\
    Forall2 (gradient_line 640 1200
               (dict_get scene_config "sky_top" (COLORS "charcoal"))
               (dict_get scene_config "sky_bottom" (COLORS "slate")) "vertical")
            (range 1200) sky /\
    Forall2 haze_events (range 3) haze /\
    List.length far = 8%nat /\
    Forall (scene_building (-50) 640 40 120 790 (75, 80, 90)) far /\
    List.length mid = 6%nat /\
    Forall (scene_building (-30) 590 60 150 840 (35, 40, 50)) mid /\
    List.length near = 4%nat /\
    Forall (scene_building (-20) 540 80 200 940 (15, 18, 25)) near /\
    List.length snow = 200%nat /\ Forall snow_event snow.

(** A spot of the rough style: an ellipse whose corner lies on the canvas,
    1 to 4 wide, in the base colour darkened by 10 to 40 (not below 0), at
    alpha 200. *)
Definition rough_spot_event (width height : Z) (base_color : color) (ev : event) : Prop :=
  exists x y darkness size,
    0 <= x < width /\ 0 <= y < height /\ 10 <= darkness <= 40 /\ 1 <= size <= 4 /\
    ev = EvPil (Ellipse x y (x + size) (y + size)
                  (ink4 (color_map (fun ch => Z.max 0 (ch - darkness)) base_color) 200)).



(** A test that the darkening term at [(x, y)] is defined and lies in
    [[0, 30]]: [30 * (dist / max_dist)] is at least 0 and below 31. *)
Definition darkness_range_test (center_x center_y x y : Z) : bool :=
  match math_sqrt ((x - center_x) ^ 2 + (y - center_y) ^ 2),
        math_sqrt (center_x ^ 2 + center_y ^ 2) with
  | inr dist, inr max_dist =>
      negb (PrimFloat.is_zero max_dist)
      && PrimFloat.leb 0 (30 * (dist / max_dist))
      && PrimFloat.ltb (30 * (dist / max_dist)) 31
  | _, _ => false
  end.

Definition darkness_range_row_test (center_x center_y width y : Z) : bool :=
  forallb (fun x => darkness_range_test center_x center_y x y) (range width).

(** A colour whose channels are at most 250. *)
Definition color_upto_250 (c : color) : Prop :=
  let '(r, g, b) := c in 0 <= r <= 250 /\ 0 <= g <= 250 /\ 0 <= b <= 250.

(** A pixel write of the inventory style at [(x, y)]: opaque, every colour
    channel 8-bit. *)
Definition inventory_pixel_event (y x : Z) (ev : event) : Prop :=
  exists r g b,
    chan8 r /\ chan8 g /\ chan8 b /\ ev = EvPil (PutPixel x y (Ink4 r g b 255)).

(** [int(30 * (1 - i / 20))], and its values for i = 0, ..., 19.  Exact
    arithmetic would give 6 and 3 at i = 16 and i = 18; the doubles give 5
    and 2. *)
Definition highlight_alpha (i : Z) : E Z :=
  ebind (py_truediv i 20) (fun t => py_int (30 * (1 - t))%float).

Definition highlight_alphas : list Z :=
  [30; 28; 27; 25; 24; 22; 21; 19; 18; 16; 15; 13; 12; 10; 9; 7; 5; 4; 2; 1].

(** The highlight line of index [i]: from [(i, 0)] to [(0, i)], in fog. *)
Definition highlight_event (i : Z) (ev : event) : Prop :=
  ev = EvPil (Line i 0 0 i (Ink4 160 170 180 (nth (Z.to_nat i) highlight_alphas 0))).

(** A texture dot of the speaker brush stroke: an ellipse 1 to 3 wide with
    its corner in [[15, 185]] x [[8, 32]], in rust (90, 60, 45) shifted by
    one amount of [[-20, 20]] on every channel, at alpha 180. *)
Definition stroke_dot_event (ev : event) : Prop :=
  exists x y size darkness,
    15 <= x <= 185 /\ 8 <= y <= 32 /\ 1 <= size <= 3 /\ -20 <= darkness <= 20 /\
    ev = EvPil (Ellipse x y (x + size) (y + size)
                  (Ink4 (90 + darkness) (60 + darkness) (45 + darkness) 180)).

(** *** Console output *)

(** The lines printed by a list of events, in order. *)
Definition printed (evs : list event) : list string :=
  flat_map (fun e => match e with EvPrint s => [s] | _ => [] end) evs.

(** [m] always returns, and what it prints is [lines]. *)
Definition prints {A} (lines : list string) (m : M A) : Prop :=
  forall w, returns m w (fun _ w' =>
    exists evs, w_trace w' = w_trace w ++ evs /\ printed evs = lines).

(** A call into the drawing library. *)
Definition pil_event (e : event) : Prop := exists op, e = EvPil op.

(** What [main] prints: the banner, one line per background, the texture
    heading, one line per texture, the three closing lines. *)
Definition main_lines (output_dir : string) : list string :=
  [ ("=== RINGING Frozen Silence Asset Generator ===" ++ nl)%string;
    "Generating scene backgrounds..."%string ]
  ++ map (fun p => ("Created: " ++ p)%string) (catalog_backgrounds output_dir)
  ++ [ (nl ++ "Generating UI textures...")%string ]
  ++ map (fun p => ("Created: " ++ p)%string) (catalog_textures output_dir)
  ++ [ (nl ++ "=== Asset generation complete! ===")%string;
       ("Backgrounds saved to: " ++ backgrounds_dir output_dir)%string;
       ("Textures saved to: " ++ textures_dir output_dir)%string ].

(** * Lemmas *)

(** ** Magnitudes of binary64 operations

    The conversions [int(f)] of the program raise on NaN and infinities.
    These lemmas bound the binary exponent of the result of each arithmetic
    operation from the bounds of its operands, through the specification of
    the primitive operations; a bounded float is finite, so its conversion
    is defined. *)

Module FloatMag.

Lemma digits2_pos_size p : digits2_pos p = Pos.size p.
Proof. induction p; simpl; congruence. Qed.

Lemma Zdigits2_log2 z : 0 < z -> Zdigits2 z = Z.log2 z + 1.
Proof.
  destruct z as [|p|p]; try lia. intros _. simpl.
  rewrite digits2_pos_size. destruct p; simpl; lia.
Qed.

Lemma Zdigits2_nonneg z : 0 <= Zdigits2 z.
Proof. destruct z; simpl; lia. Qed.

Lemma Zdigits2_lt z k : 0 <= z -> 0 <= k -> z < 2 ^ k -> Zdigits2 z <= k.
Proof.
  intros Hz Hk Hlt. destruct (Z.eq_dec z 0) as [->|Hne]; [simpl; lia|].
  rewrite Zdigits2_log2 by lia.
  assert (Z.log2 z < k) by (apply Z.log2_lt_pow2; lia). lia.
Qed.

Lemma Zdigits2_upper z : 0 <= z -> z < 2 ^ Zdigits2 z.
Proof.
  intros Hz. destruct (Z.eq_dec z 0) as [->|Hne]; [simpl; lia|].
  rewrite Zdigits2_log2 by lia.
  pose proof (Z.log2_spec z ltac:(lia)) as H. unfold Z.succ in H. lia.
Qed.

Lemma Zdigits2_lower z : 0 < z -> 2 ^ (Zdigits2 z - 1) <= z.
Proof.
  intros Hz. rewrite Zdigits2_log2 by lia.
  replace (Z.log2 z + 1 - 1) with (Z.log2 z) by lia.
  apply (Z.log2_spec z Hz).
Qed.

Lemma Zdigits2_div_pow2 z n : 0 <= z -> 0 <= n ->
  Zdigits2 (z / 2 ^ n) <= Z.max 0 (Zdigits2 z - n).
Proof.
  intros Hz Hn.
  assert (Hp : 0 < 2 ^ n) by (apply Z.pow_pos_nonneg; lia).
  assert (Hq : 0 <= z / 2 ^ n) by (apply Z.div_pos; lia).
  pose proof (Zdigits2_upper z Hz) as Hu.
  pose proof (Zdigits2_nonneg z) as Hd.
  destruct (Z_le_gt_dec (Zdigits2 z) n) as [Hle|Hgt].
  - assert (z / 2 ^ n = 0) as ->.
    { apply Z.div_small. split; [lia|].
      eapply Z.lt_le_trans; [exact Hu|]. apply Z.pow_le_mono_r; lia. }
    simpl. lia.
  - apply Zdigits2_lt; try lia.
    rewrite Z.max_r by lia.
    apply Z.div_lt_upper_bound; [lia|].
    rewrite <- Z.pow_add_r by lia.
    replace (n + (Zdigits2 z - n)) with (Zdigits2 z) by lia. exact Hu.
Qed.

Lemma Zdigits2_succ z : 0 <= z -> Zdigits2 (z + 1) <= Zdigits2 z + 1.
Proof.
  intros Hz. pose proof (Zdigits2_upper z Hz). pose proof (Zdigits2_nonneg z).
  apply Zdigits2_lt; try lia.
  rewrite Z.pow_add_r by lia. change (2 ^ 1) with 2. lia.
Qed.

Lemma Zdigits2_mul a b : 0 <= a -> 0 <= b -> Zdigits2 (a * b) <= Zdigits2 a + Zdigits2 b.
Proof.
  intros Ha Hb.
  pose proof (Zdigits2_upper a Ha). pose proof (Zdigits2_upper b Hb).
  pose proof (Zdigits2_nonneg a). pose proof (Zdigits2_nonneg b).
  apply Zdigits2_lt; try nia.
  rewrite Z.pow_add_r by lia. nia.
Qed.

Lemma Zdigits2_add a b k : 0 <= a -> 0 <= b -> Zdigits2 a <= k -> Zdigits2 b <= k ->
  Zdigits2 (a + b) <= k + 1.
Proof.
  intros Ha Hb Hka Hkb.
  pose proof (Zdigits2_upper a Ha). pose proof (Zdigits2_upper b Hb).
  pose proof (Zdigits2_nonneg a). pose proof (Zdigits2_nonneg b).
  assert (2 ^ Zdigits2 a <= 2 ^ k) by (apply Z.pow_le_mono_r; lia).
  assert (2 ^ Zdigits2 b <= 2 ^ k) by (apply Z.pow_le_mono_r; lia).
  apply Zdigits2_lt; try lia.
  rewrite Z.pow_add_r by lia. change (2 ^ 1) with 2. lia.
Qed.

Lemma Zdigits2_mono a b : 0 <= a <= b -> Zdigits2 a <= Zdigits2 b.
Proof.
  intros H. pose proof (Zdigits2_upper b ltac:(lia)). pose proof (Zdigits2_nonneg b).
  apply Zdigits2_lt; lia.
Qed.

Lemma Zdigits2_div a b : 0 <= a -> 0 < b ->
  Zdigits2 (a / b) <= Z.max 0 (Zdigits2 a - Zdigits2 b + 1).
Proof.
  intros Ha Hb.
  pose proof (Zdigits2_upper a Ha) as Hua. pose proof (Zdigits2_lower b Hb) as Hlb.
  pose proof (Zdigits2_nonneg a). 
  assert (1 <= Zdigits2 b) by (rewrite Zdigits2_log2 by lia; pose proof (Z.log2_nonneg b); lia).
  assert (Hq : 0 <= a / b) by (apply Z.div_pos; lia).
  assert (Hp : 0 < 2 ^ (Zdigits2 b - 1)) by (apply Z.pow_pos_nonneg; lia).
  destruct (Z_le_gt_dec (Zdigits2 a) (Zdigits2 b - 1)) as [Hle|Hgt].
  - assert (a / b = 0) as ->.
    { apply Z.div_small. split; [lia|].
      assert (2 ^ Zdigits2 a <= 2 ^ (Zdigits2 b - 1)) by (apply Z.pow_le_mono_r; lia). lia. }
    simpl. lia.
  - rewrite Z.max_r by lia. apply Zdigits2_lt; try lia.
    apply Z.div_lt_upper_bound; [lia|].
    assert (2 ^ Zdigits2 a = 2 ^ (Zdigits2 b - 1) * 2 ^ (Zdigits2 a - Zdigits2 b + 1)).
    { rewrite <- Z.pow_add_r by lia. f_equal. lia. }
    assert (0 < 2 ^ (Zdigits2 a - Zdigits2 b + 1)) by (apply Z.pow_pos_nonneg; lia).
    nia.
Qed.


Lemma shr_1_m mrs : 0 <= shr_m mrs -> shr_m (shr_1 mrs) = shr_m mrs / 2.
Proof.
  destruct mrs as [m r s]. simpl. intros Hm. rewrite <- Z.div2_div.
  destruct m as [|p|p]; try lia; try reflexivity; destruct p; reflexivity.
Qed.

Lemma iter_shr_1_m n : forall mrs, 0 <= shr_m mrs ->
  shr_m (iter_pos shr_1 n mrs) = shr_m mrs / 2 ^ Z.pos n.
Proof.
  induction n as [n IH|n IH|]; intros mrs Hm; simpl iter_pos.
  - assert (H1 : 0 <= shr_m (shr_1 mrs)) by (rewrite shr_1_m by lia; apply Z.div_pos; lia).
    assert (Hp : 0 < 2 ^ Z.pos n) by (apply Z.pow_pos_nonneg; lia).
    assert (H2 : 0 <= shr_m (iter_pos shr_1 n (shr_1 mrs)))
      by (rewrite IH by lia; apply Z.div_pos; lia).
    rewrite IH by lia. rewrite IH by lia. rewrite shr_1_m by lia.
    rewrite !Z.div_div by lia.
    f_equal.
    assert (E : 2 ^ Z.pos n~1 = 2 ^ 1 * 2 ^ Z.pos n * 2 ^ Z.pos n)
      by (rewrite <- !Z.pow_add_r by lia; f_equal; lia).
    rewrite E. change (2 ^ 1) with 2. lia.
  - assert (Hp : 0 < 2 ^ Z.pos n) by (apply Z.pow_pos_nonneg; lia).
    assert (H2 : 0 <= shr_m (iter_pos shr_1 n mrs))
      by (rewrite IH by lia; apply Z.div_pos; lia).
    rewrite IH by lia. rewrite IH by lia.
    rewrite !Z.div_div by lia.
    f_equal.
    assert (E : 2 ^ Z.pos n~0 = 2 ^ Z.pos n * 2 ^ Z.pos n)
      by (rewrite <- Z.pow_add_r by lia; f_equal; lia).
    rewrite E. lia.
  - rewrite shr_1_m by lia. reflexivity.
Qed.

Lemma shr_spec mrs e n : 0 <= shr_m mrs ->
  shr_m (fst (shr mrs e n)) = shr_m mrs / 2 ^ Z.max 0 n /\
  snd (shr mrs e n) = e + Z.max 0 n.
Proof.
  intros Hm. destruct n as [|p|p]; simpl.
  - rewrite Z.div_1_r. lia.
  - rewrite iter_shr_1_m by lia. split; [reflexivity|lia].
  - rewrite Z.div_1_r. lia.
Qed.

Lemma shr_record_of_loc_m m l : shr_m (shr_record_of_loc m l) = m.
Proof. destruct l as [|[]]; reflexivity. Qed.

(** After [shr_fexp] the mantissa is non-negative and the magnitude has not
    grown beyond the larger of the input magnitude and the minimal exponent. *)
Lemma shr_fexp_mag m e l : 0 <= m ->
  let r := shr_fexp prec emax m e l in
  0 <= shr_m (fst r) /\
  snd r <= Z.max e (Z.max (Zdigits2 m + e - 53) (-1074)) /\
  Zdigits2 (shr_m (fst r)) + snd r <= Z.max (Zdigits2 m + e) (snd r).
Proof.
  intros Hm r. subst r. unfold shr_fexp.
  set (n := fexp prec emax (Zdigits2 m + e) - e).
  destruct (shr_spec (shr_record_of_loc m l) e n) as [H1 H2];
    [rewrite shr_record_of_loc_m; lia|].
  rewrite shr_record_of_loc_m in H1. rewrite H1, H2.
  assert (Hp : 0 < 2 ^ Z.max 0 n) by (apply Z.pow_pos_nonneg; lia).
  pose proof (Zdigits2_div_pow2 m (Z.max 0 n) Hm ltac:(lia)) as Hd.
  pose proof (Zdigits2_nonneg m) as Hdm.
  assert (Hn : n = Z.max (Zdigits2 m + e - 53) (-1074) - e) by reflexivity.
  split; [apply Z.div_pos; lia|]. split; lia.
Qed.

Lemma round_nearest_even_range m l : 0 <= m ->
  m <= round_nearest_even m l <= m + 1.
Proof. intros Hm. destruct l as [|[]]; simpl; try lia. destruct (Z.even m); lia. Qed.

Lemma binary_round_aux_mag s m e l k :
  0 <= m -> Zdigits2 m + e + 1 <= k -> -1073 <= k <= 972 ->
  mag_le k (binary_round_aux prec emax s m e l).
Proof.
  intros Hm Hd Hk. unfold binary_round_aux.
  pose proof (shr_fexp_mag m e l Hm) as H1. cbv zeta in H1.
  destruct (shr_fexp prec emax m e l) as [mrs1 e1]. simpl fst in H1; simpl snd in H1.
  destruct H1 as (Hm1 & He1 & Hd1).
  set (m2 := round_nearest_even (shr_m mrs1) (loc_of_shr_record mrs1)).
  pose proof (round_nearest_even_range (shr_m mrs1) (loc_of_shr_record mrs1) Hm1) as Hr.
  fold m2 in Hr.
  assert (Hm2 : 0 <= m2) by lia.
  assert (Hd2 : Zdigits2 m2 <= Zdigits2 (shr_m mrs1) + 1).
  { etransitivity; [apply (Zdigits2_mono m2 (shr_m mrs1 + 1)); lia|].
    apply Zdigits2_succ; lia. }
  pose proof (shr_fexp_mag m2 e1 loc_Exact Hm2) as H3. cbv zeta in H3.
  destruct (shr_fexp prec emax m2 e1 loc_Exact) as [mrs3 e3]. simpl fst in H3; simpl snd in H3.
  destruct H3 as (Hm3 & He3 & Hd3).
  pose proof (Zdigits2_nonneg m) as Hdm.
  assert (Hfe : e3 <= 971) by lia.
  destruct (shr_m mrs3) as [|p|p] eqn:E; simpl; try lia.
  replace (e3 <=? 971) with true by (symmetry; apply Z.leb_le; lia).
  simpl. simpl in Hd3. lia.
Qed.


Lemma mag_le_weaken a b x : mag_le a x -> a <= b -> mag_le b x.
Proof. destruct x; simpl; auto. lia. Qed.

Lemma Zpos_digits2 p : Z.pos (digits2_pos p) = Zdigits2 (Z.pos p).
Proof. reflexivity. Qed.

Lemma pos_iter_xO m d : Z.pos (Pos.iter xO m d) = Z.pos m * 2 ^ Z.pos d.
Proof.
  induction d as [|d IH] using Pos.peano_ind.
  - simpl. lia.
  - rewrite Pos.iter_succ, Pos2Z.inj_xO, IH, Pos2Z.inj_succ, Z.pow_succ_r by lia. lia.
Qed.

Lemma Zdigits2_mul_pow2 z n : 0 < z -> 0 <= n -> Zdigits2 (z * 2 ^ n) = Zdigits2 z + n.
Proof.
  intros Hz Hn. assert (0 < 2 ^ n) by (apply Z.pow_pos_nonneg; lia).
  rewrite !Zdigits2_log2 by nia. rewrite Z.log2_mul_pow2 by lia. lia.
Qed.

(** [shl_align] keeps the value: mantissa times a power of two. *)
Lemma shl_align_spec m e e' :
  let r := shl_align m e e' in
  Z.pos (fst r) = Z.pos m * 2 ^ (e - snd r) /\ snd r <= e /\ snd r = Z.min e e'.
Proof.
  unfold shl_align. destruct (e' - e) as [|d|d] eqn:E; cbn [fst snd].
  - rewrite Z.sub_diag. change (2 ^ 0) with 1. lia.
  - rewrite Z.sub_diag. change (2 ^ 0) with 1. lia.
  - rewrite pos_iter_xO. replace (e - e') with (Z.pos d) by lia. lia.
Qed.

Lemma shl_align_mag m e e' :
  Zdigits2 (Z.pos (fst (shl_align m e e'))) + snd (shl_align m e e') = Zdigits2 (Z.pos m) + e.
Proof.
  destruct (shl_align_spec m e e') as (H1 & H2 & _).
  rewrite H1, Zdigits2_mul_pow2 by lia. lia.
Qed.

Lemma binary_round_mag s m e k :
  Zdigits2 (Z.pos m) + e + 1 <= k -> -1073 <= k <= 972 ->
  mag_le k (binary_round prec emax s m e).
Proof.
  intros Hd Hk. unfold binary_round.
  pose proof (shl_align_mag m e (fexp prec emax (Z.pos (digits2_pos m) + e))) as H.
  destruct (shl_align m e _) as [mz ez]. simpl fst in H; simpl snd in H.
  apply binary_round_aux_mag; lia.
Qed.

Lemma Zdigits2_opp z : Zdigits2 (- z) = Zdigits2 z.
Proof. destruct z; reflexivity. Qed.

Lemma binary_normalize_mag m e sz k :
  Zdigits2 m + e + 1 <= k -> -1073 <= k <= 972 ->
  mag_le k (binary_normalize prec emax m e sz).
Proof.
  intros Hd Hk. destruct m as [|p|p]; simpl; [exact I| |];
    apply binary_round_mag; auto.
Qed.

Lemma SFmul_mag x y a b :
  mag_le a x -> mag_le b y -> -1073 <= a + b + 1 <= 972 ->
  mag_le (a + b + 1) (SFmul prec emax x y).
Proof.
  destruct x as [sx|sx| |sx mx ex], y as [sy|sy| |sy my ey];
    cbn [mag_le SFmul]; try tauto.
  intros Ha Hb Hk. apply binary_round_aux_mag; try lia.
  pose proof (Zdigits2_mul (Z.pos mx) (Z.pos my) ltac:(lia) ltac:(lia)) as H.
  rewrite <- Pos2Z.inj_mul in H. rewrite !Zpos_digits2 in *. lia.
Qed.

Lemma Zdigits2_abs_le m A B k :
  0 <= A -> 0 <= B -> Z.abs m <= A + B -> Zdigits2 A <= k -> Zdigits2 B <= k ->
  Zdigits2 m <= k + 1.
Proof.
  intros HA HB Hm Ha Hb.
  assert (Zdigits2 m = Zdigits2 (Z.abs m)) as ->.
  { destruct m; reflexivity. }
  etransitivity; [apply (Zdigits2_mono (Z.abs m) (A + B)); lia|].
  apply Zdigits2_add; auto.
Qed.

Lemma aligned_sum_mag sx mx ex sy my ey (op : Z -> Z -> Z) a b :
  (forall u v, Z.abs (op u v) <= Z.abs u + Z.abs v) ->
  Z.pos (digits2_pos mx) + ex <= a -> Z.pos (digits2_pos my) + ey <= b ->
  let ez := Z.min ex ey in
  Zdigits2 (op (cond_Zopp sx (Z.pos (fst (shl_align mx ex ez))))
               (cond_Zopp sy (Z.pos (fst (shl_align my ey ez))))) + ez
    <= Z.max a b + 1.
Proof.
  intros Hop Ha Hb ez.
  destruct (shl_align_spec mx ex ez) as (X1 & _ & X3).
  destruct (shl_align_spec my ey ez) as (Y1 & _ & Y3).
  pose proof (shl_align_mag mx ex ez) as Xm. pose proof (shl_align_mag my ey ez) as Ym.
  set (A := Z.pos (fst (shl_align mx ex ez))) in *.
  set (B := Z.pos (fst (shl_align my ey ez))) in *.
  assert (Hs1 : snd (shl_align mx ex ez) = ez) by (subst ez; lia).
  assert (Hs2 : snd (shl_align my ey ez) = ez) by (subst ez; lia).
  rewrite Hs1 in Xm. rewrite Hs2 in Ym. simpl Zdigits2 in Xm, Ym.
  assert (Hab : Zdigits2 (op (cond_Zopp sx A) (cond_Zopp sy B)) <= Z.max a b - ez + 1).
  { apply (Zdigits2_abs_le _ A B); try (subst A B; lia).
    - etransitivity; [apply Hop|]. destruct sx, sy; simpl; subst A B; lia.
    - fold A in Xm. change (Zdigits2 A) with (Z.pos (digits2_pos (fst (shl_align mx ex ez)))). lia.
    - change (Zdigits2 B) with (Z.pos (digits2_pos (fst (shl_align my ey ez)))). lia. }
  lia.
Qed.

Lemma SFadd_mag x y a b :
  mag_le a x -> mag_le b y -> -1073 <= Z.max a b + 2 <= 972 ->
  mag_le (Z.max a b + 2) (SFadd prec emax x y).
Proof.
  destruct x as [sx|sx| |sx mx ex], y as [sy|sy| |sy my ey];
    cbn [mag_le SFadd]; try tauto; try (intros; lia).
  - destruct sx, sy; cbn [mag_le]; auto.
  - intros Ha Hb Hk. apply binary_normalize_mag; try lia.
    pose proof (aligned_sum_mag sx mx ex sy my ey Z.add a b ltac:(intros; lia) Ha Hb) as H.
    cbv zeta in H. lia.
Qed.

Lemma SFsub_mag x y a b :
  mag_le a x -> mag_le b y -> -1073 <= Z.max a b + 2 <= 972 ->
  mag_le (Z.max a b + 2) (SFsub prec emax x y).
Proof.
  destruct x as [sx|sx| |sx mx ex], y as [sy|sy| |sy my ey];
    cbn [mag_le SFsub]; try tauto; try (intros; lia).
  - destruct sx, sy; cbn [mag_le]; auto.
  - intros Ha Hb Hk. apply binary_normalize_mag; try lia.
    pose proof (aligned_sum_mag sx mx ex sy my ey Z.sub a b ltac:(intros; lia) Ha Hb) as H.
    cbv zeta in H. lia.
Qed.


Lemma SFdiv_mag x sy my ey a c :
  mag_le a x -> c <= Z.pos (digits2_pos my) + ey -> -1073 <= a - c + 2 <= 972 ->
  mag_le (a - c + 2) (SFdiv prec emax x (S754_finite sy my ey)).
Proof.
  destruct x as [sx|sx| |sx mx ex]; cbn [mag_le SFdiv]; try tauto.
  intros Ha Hc Hk. unfold SFdiv_core_binary.
  set (d1 := Zdigits2 (Z.pos mx)). set (d2 := Zdigits2 (Z.pos my)).
  set (e' := Z.min (fexp prec emax (d1 + ex - (d2 + ey))) (ex - ey)).
  set (s := ex - ey - e').
  set (m' := match s with Z.pos _ => Z.shiftl (Z.pos mx) s | 0 => Z.pos mx | Z.neg _ => 0 end).
  assert (Hs : 0 <= s) by (subst s e'; lia).
  assert (Hm' : m' = Z.pos mx * 2 ^ s).
  { subst m'. clearbody s. destruct s as [|p|p]; try lia.
    rewrite Z.shiftl_mul_pow2 by lia. reflexivity. }
  assert (Hq : fst (Z.div_eucl m' (Z.pos my)) = m' / Z.pos my) by reflexivity.
  destruct (Z.div_eucl m' (Z.pos my)) as [q r]. simpl fst in Hq. subst q.
  assert (Hp : 0 < 2 ^ s) by (apply Z.pow_pos_nonneg; lia).
  assert (Hm0 : 0 < m') by nia.
  pose proof (Zdigits2_div m' (Z.pos my) ltac:(lia) ltac:(lia)) as Hd.
  rewrite Hm' in Hd at 2. rewrite Zdigits2_mul_pow2 in Hd by lia.
  fold d1 d2 in Hd.
  assert (He' : e' <= Z.max (d1 + ex - (d2 + ey) - 53) (-1074)).
  { subst e'. unfold fexp, SpecFloat.emin, prec, emax. lia. }
  apply binary_round_aux_mag; try lia.
  - apply Z.div_pos; lia.
  - subst d1 d2. rewrite <- !Zpos_digits2 in *. lia.
Qed.

Lemma SFopp_mag x a : mag_le a x -> mag_le a (SFopp x).
Proof. destruct x; simpl; auto. Qed.

Lemma fmag_weaken a b f : fmag a f -> a <= b -> fmag b f.
Proof. apply mag_le_weaken. Qed.

Lemma fmag_mul a b x y : fmag a x -> fmag b y -> -1073 <= a + b + 1 <= 972 ->
  fmag (a + b + 1) (x * y)%float.
Proof. unfold fmag. rewrite FloatAxioms.mul_spec. apply SFmul_mag. Qed.

Lemma fmag_add a b x y : fmag a x -> fmag b y -> -1073 <= Z.max a b + 2 <= 972 ->
  fmag (Z.max a b + 2) (x + y)%float.
Proof. unfold fmag. rewrite FloatAxioms.add_spec. apply SFadd_mag. Qed.

Lemma fmag_sub a b x y : fmag a x -> fmag b y -> -1073 <= Z.max a b + 2 <= 972 ->
  fmag (Z.max a b + 2) (x - y)%float.
Proof. unfold fmag. rewrite FloatAxioms.sub_spec. apply SFsub_mag. Qed.

Lemma fmag_opp a x : fmag a x -> fmag a (- x)%float.
Proof. unfold fmag. rewrite FloatAxioms.opp_spec. apply SFopp_mag. Qed.

(** A positive integer below 2^53 converts exactly. *)
Lemma binary_round_exact s m :
  Zdigits2 (Z.pos m) <= 53 ->
  exists m' e', binary_round prec emax s m 0 = S754_finite s m' e' /\
                Z.pos (digits2_pos m') + e' = Zdigits2 (Z.pos m) /\
                Z.pos m' = Z.pos m * 2 ^ (- e') /\ e' = Zdigits2 (Z.pos m) - 53.
Proof.
  intros Hd. unfold binary_round.
  set (fe := fexp prec emax (Z.pos (digits2_pos m) + 0)).
  pose proof (shl_align_mag m 0 fe) as Hmag.
  destruct (shl_align_spec m 0 fe) as (H1 & H2 & H3).
  destruct (shl_align m 0 fe) as [mz ez]. cbn [fst snd] in *.
  assert (Hfe : fe = Zdigits2 (Z.pos m) - 53).
  { subst fe. unfold fexp, SpecFloat.emin, prec, emax.
    pose proof (Zdigits2_nonneg (Z.pos m)). rewrite Zpos_digits2. lia. }
  assert (Hez : ez = Zdigits2 (Z.pos m) - 53) by lia.
  assert (Hdz : Zdigits2 (Z.pos mz) = 53) by lia.
  exists mz, ez. split; [|rewrite Zpos_digits2; repeat split; [lia| |lia];
                            rewrite H1; f_equal; f_equal; lia].
  unfold binary_round_aux.
  assert (Hshr : forall l, shr_fexp prec emax (Z.pos mz) ez l = (shr_record_of_loc (Z.pos mz) l, ez)).
  { intros l. unfold shr_fexp. rewrite Hdz.
    replace (fexp prec emax (53 + ez) - ez) with 0; [reflexivity|].
    unfold fexp, SpecFloat.emin, prec, emax.
    pose proof (Zdigits2_nonneg (Z.pos m)). lia. }
  rewrite Hshr. cbn [shr_record_of_loc loc_of_shr_record shr_m round_nearest_even].
  rewrite Hshr. cbn [shr_record_of_loc shr_m].
  replace (ez <=? emax - prec) with true; [reflexivity|].
  symmetry. apply Z.leb_le. unfold emax, prec. lia.
Qed.


Lemma to_Z_of_Z_small z : 0 <= z < 2 ^ 63 -> Uint63.to_Z (Uint63.of_Z z) = z.
Proof.
  intros Hz. rewrite Uint63.of_Z_spec. apply Z.mod_small.
  change Uint63.wB with (2 ^ 63). lia.
Qed.

Lemma Prim2SF_of_uint63_pos z : 0 < z < 2 ^ 53 ->
  exists m e, Prim2SF (PrimFloat.of_uint63 (Uint63.of_Z z)) = S754_finite false m e /\
              Z.pos (digits2_pos m) + e = Zdigits2 z /\
              Z.pos m = z * 2 ^ (- e) /\ e = Zdigits2 z - 53.
Proof.
  intros Hz. rewrite of_uint63_spec, to_Z_of_Z_small by lia.
  destruct z as [|p|p]; try lia. cbn [binary_normalize].
  apply binary_round_exact. apply Zdigits2_lt; lia.
Qed.

Lemma Prim2SF_float_of_small z : 0 < Z.abs z < 2 ^ 53 ->
  exists m e, Prim2SF (float_of_small z) = S754_finite (z <? 0) m e /\
              Z.pos (digits2_pos m) + e = Zdigits2 z /\
              Z.pos m = Z.abs z * 2 ^ (- e) /\ e = Zdigits2 z - 53.
Proof.
  intros Hz. unfold float_of_small. destruct (Z.ltb_spec z 0) as [Hneg|Hpos].
  - destruct (Prim2SF_of_uint63_pos (- z) ltac:(lia)) as (m & e & H1 & H2 & H3 & H4).
    exists m, e. rewrite FloatAxioms.opp_spec, H1. cbn [SFopp negb].
    rewrite Zdigits2_opp in H2, H4.
    split; [reflexivity|]. split; [exact H2|]. split; [|exact H4].
    rewrite H3. f_equal. lia.
  - destruct (Prim2SF_of_uint63_pos z ltac:(lia)) as (m & e & H1 & H2 & H3 & H4).
    exists m, e. repeat split; try assumption. rewrite H3. f_equal. lia.
Qed.

Lemma fmag_float_of_small z : Z.abs z < 2 ^ 53 -> fmag (Zdigits2 z) (float_of_small z).
Proof.
  intros Hz. destruct (Z.eq_dec z 0) as [->|Hne].
  - vm_compute. exact I.
  - destruct (Prim2SF_float_of_small z ltac:(lia)) as (m & e & H1 & H2 & _).
    unfold fmag. rewrite H1. cbn [mag_le]. lia.
Qed.

Lemma fmag_div a c x y sy my ey :
  fmag a x -> Prim2SF y = S754_finite sy my ey -> c <= Z.pos (digits2_pos my) + ey ->
  -1073 <= a - c + 2 <= 972 -> fmag (a - c + 2) (x / y)%float.
Proof.
  unfold fmag. intros Hx Hy Hc Hk. rewrite FloatAxioms.div_spec, Hy.
  apply SFdiv_mag; auto.
Qed.

Lemma py_int_defined k f : fmag k f -> exists z, py_int f = inr z.
Proof.
  unfold fmag, py_int. destruct (Prim2SF f); cbn [mag_le]; try tauto; eauto.
Qed.

(** A float between -1 and 1 has magnitude at most 1. *)
Lemma fmag_unit f :
  PrimFloat.leb (-1)%float f = true -> PrimFloat.leb f 1%float = true -> fmag 1 f.
Proof.
  rewrite !FloatAxioms.leb_spec. unfold fmag.
  pose proof (Prim2SF_valid f) as Hv.
  change (Prim2SF 1%float) with (S754_finite false 4503599627370496 (-52)).
  change (Prim2SF (-1)%float) with (S754_finite true 4503599627370496 (-52)).
  destruct (Prim2SF f) as [s|s| |s m e]; cbn [mag_le].
  - auto.
  - destruct s; cbn; discriminate.
  - cbn. discriminate.
  - cbn [valid_binary] in Hv. unfold bounded, canonical_mantissa in Hv.
    apply andb_prop in Hv. destruct Hv as [Hc _]. apply Z.eqb_eq in Hc.
    unfold fexp, SpecFloat.emin, prec, emax in Hc.
    intros Hlo Hhi.
    assert (He : e <= -52).
    { destruct s.
      - unfold SFleb, SFcompare in Hlo. destruct (Z.compare_spec (-52) e); try lia; discriminate.
      - unfold SFleb, SFcompare in Hhi. destruct (Z.compare_spec e (-52)); try lia; discriminate. }
    lia.
Qed.

End FloatMag.

(** ** Runs of the monad *)

Lemma returns_ret {A} (a : A) w (Q : A -> world -> Prop) : Q a w -> returns (ret a) w Q.
Proof. intros H. exists a, w. split; [reflexivity|exact H]. Qed.

Lemma returns_bind {A B} (m : M A) (k : A -> M B) w (Q : B -> world -> Prop) :
  returns m w (fun a w' => returns (k a) w' Q) -> returns (bind m k) w Q.
Proof.
  intros (a & w1 & Hm & b & w2 & Hk & HQ). exists b, w2. split; [|exact HQ].
  unfold bind. rewrite Hm. exact Hk.
Qed.

Lemma returns_weaken {A} (m : M A) w (P Q : A -> world -> Prop) :
  returns m w P -> (forall a w', P a w' -> Q a w') -> returns m w Q.
Proof. intros (a & w' & Hm & HP) H. exists a, w'. auto. Qed.

Lemma returns_eq {A} (m m' : M A) w (Q : A -> world -> Prop) :
  m w = m' w -> returns m' w Q -> returns m w Q.
Proof. unfold returns. intros ->. auto. Qed.

Lemma returns_lift {A} (e : E A) (a : A) w (Q : A -> world -> Prop) :
  e = inr a -> Q a w -> returns (lift e) w Q.
Proof. intros -> H. apply returns_ret, H. Qed.

Lemma randint_run a b w : a <= b ->
  randint a b w = Ok (a + w_oracle w (w_pos w) mod (b - a + 1)) (adv 1 w).
Proof.
  intros Hab. unfold randint. destruct (Z.ltb_spec b a); [lia|]. reflexivity.
Qed.

Lemma returns_randint a b w (Q : Z -> world -> Prop) :
  a <= b -> (forall r, a <= r <= b -> Q r (adv 1 w)) -> returns (randint a b) w Q.
Proof.
  intros Hab H. eexists _, _. split; [apply randint_run, Hab|].
  apply H. pose proof (Z.mod_pos_bound (w_oracle w (w_pos w)) (b - a + 1) ltac:(lia)). lia.
Qed.

Lemma returns_random w (Q : float -> world -> Prop) :
  (forall u, Q u (adv 1 w)) -> returns random_random w Q.
Proof. intros H. eexists _, _. split; [reflexivity|apply H]. Qed.

Lemma returns_choice2 {A} (x1 x2 : A) w (Q : A -> world -> Prop) :
  Q x1 (adv 1 w) -> Q x2 (adv 1 w) -> returns (random_choice [x1; x2]) w Q.
Proof.
  intros H1 H2. eexists _, _. split; [reflexivity|].
  destruct (Z.to_nat _) as [|[|n]]; simpl; auto. destruct n; auto.
Qed.

Lemma returns_emit e w (Q : unit -> world -> Prop) :
  Q tt (logged [e] w) -> returns (emit e) w Q.
Proof. intros H. exists tt, (logged [e] w). split; [reflexivity|exact H]. Qed.

Lemma returns_for_each {A S} (Inv : S -> world -> Prop) (l : list A)
    (body : A -> S -> M S) :
  (forall a s w, In a l -> Inv s w -> returns (body a s) w Inv) ->
  forall s w, Inv s w -> returns (for_each l body s) w Inv.
Proof.
  induction l as [|a l IH]; intros Hbody s w HI; simpl.
  - apply returns_ret, HI.
  - apply returns_bind.
    eapply returns_weaken; [apply Hbody; [left; reflexivity|exact HI]|].
    intros s' w' HI'. apply IH; [|exact HI'].
    intros a' s'' w'' Hin. apply Hbody. right. exact Hin.
Qed.

(** A loop over consecutive integers with an invariant indexed by the
    number of completed iterations. *)
Lemma returns_for_count {S} (Inv : nat -> S -> world -> Prop) (lo : Z)
    (body : Z -> S -> M S) (n : nat) :
  (forall k s w, (k < n)%nat -> Inv k s w ->
     returns (body (lo + Z.of_nat k) s) w (Inv (Datatypes.S k))) ->
  forall s w, Inv 0%nat s w ->
  returns (for_each (map (fun k => lo + Z.of_nat k) (seq 0 n)) body s) w (Inv n).
Proof.
  intros Hbody.
  assert (G : forall m a s w, (a + m = n)%nat -> Inv a s w ->
            returns (for_each (map (fun k => lo + Z.of_nat k) (seq a m)) body s) w (Inv n)).
  { induction m as [|m IH]; intros a s w Ham HI; simpl.
    - apply returns_ret. replace n with a by lia. exact HI.
    - apply returns_bind.
      eapply returns_weaken; [apply Hbody; [lia|exact HI]|].
      intros s' w' HI'. apply IH; [lia|exact HI']. }
  intros s w HI. apply (G n 0%nat); [lia|exact HI].
Qed.

Lemma range_as_count n : range n = map (fun k => 0 + Z.of_nat k) (seq 0 (Z.to_nat n)).
Proof. reflexivity. Qed.

Lemma in_range n i : In i (range n) <-> 0 <= i < n.
Proof.
  unfold range. rewrite in_map_iff. split.
  - intros (k & <- & Hk). apply in_seq in Hk. lia.
  - intros Hi. exists (Z.to_nat i). split; [lia|]. apply in_seq. lia.
Qed.

Lemma in_range2 lo hi i : In i (range2 lo hi) <-> lo <= i < hi.
Proof.
  unfold range2. rewrite in_map_iff. split.
  - intros (k & <- & Hk). apply in_seq in Hk. lia.
  - intros Hi. exists (Z.to_nat (i - lo)). split; [lia|]. apply in_seq. lia.
Qed.

(** ** The noise pass *)

Lemma getpixel_setpixel img i j p x y :
  getpixel (setpixel img i j p) x y =
  if (x =? i) && (y =? j) then view (im_mode img) (quad_of p) else getpixel img x y.
Proof.
  unfold getpixel, setpixel; cbn [im_mode im_buf].
  destruct ((x =? i) && (y =? j)); reflexivity.
Qed.

Lemma adv_adv n m w : adv n (adv m w) = adv (n + m) w.
Proof. unfold adv; cbn [w_oracle w_pos w_files w_trace]. f_equal. lia. Qed.

Lemma adv_0 w : adv 0 w = w.
Proof. destruct w; reflexivity. Qed.

Section AddNoise.

Variable intensity : Z.
Hypothesis intensity_nonneg : 0 <= intensity.

(** One pixel of the pass. *)
Lemma add_noise_pixel_run i j img w :
  im_mode img <> ModeL ->
  let delta := - intensity + w_oracle w (w_pos w) mod (intensity - - intensity + 1) in
  add_noise_pixel intensity i j img w =
    Ok (setpixel img i j (noisy delta (getpixel img i j))) (adv 1 w) /\
  view (im_mode img) (quad_of (noisy delta (getpixel img i j))) =
    noisy delta (getpixel img i j).
Proof.
  intros Hmode delta. unfold add_noise_pixel, getpixel.
  destruct (im_buf img i j) as [[[r g] b] a].
  destruct (im_mode img); [congruence| |]; cbn [view noisy quad_of];
    (split; [|reflexivity]); unfold bind;
    rewrite randint_run by lia; reflexivity.
Qed.

(** One column of the pass, started in world [w]. *)
Lemma add_noise_column i img w :
  (0 < im_height img -> im_mode img <> ModeL) ->
  returns (for_each (range (im_height img)) (add_noise_pixel intensity i) img) w
    (fun img' w' =>
       w' = adv (Z.to_nat (im_height img)) w /\
       im_mode img' = im_mode img /\ im_width img' = im_width img /\
       im_height img' = im_height img /\
       forall x y, getpixel img' x y =
         if (x =? i) && (0 <=? y) && (y <? im_height img)
         then noisy (noise_at w intensity 0 0 y) (getpixel img x y)
         else getpixel img x y).
Proof.
  intros Hmode. rewrite range_as_count.
  eapply returns_weaken.
  - apply (returns_for_count
      (fun k img' w' =>
         w' = adv k w /\
         im_mode img' = im_mode img /\ im_width img' = im_width img /\
         im_height img' = im_height img /\
         forall x y, getpixel img' x y =
           if (x =? i) && (0 <=? y) && (y <? Z.of_nat k)
           then noisy (noise_at w intensity 0 0 y) (getpixel img x y)
           else getpixel img x y)).
    + cbv beta. intros k s w1 Hk (Hw1 & Hm & Hw & Hh & Hpix). subst w1.
      assert (Hm' : im_mode s <> ModeL) by (rewrite Hm; apply Hmode; lia).
      destruct (add_noise_pixel_run i (0 + Z.of_nat k) s (adv k w) Hm') as [Hrun Hview].
      cbv zeta in Hrun, Hview.
      eexists _, _. split; [exact Hrun|].
      split; [apply adv_adv|]. repeat (split; [assumption|]).
      intros x y. rewrite getpixel_setpixel, Hview.
      destruct (Z.eqb_spec x i) as [->|Hx]; cbn [andb].
      * destruct (Z.eqb_spec y (0 + Z.of_nat k)) as [->|Hy].
        -- replace (0 <=? 0 + Z.of_nat k) with true by (symmetry; apply Z.leb_le; lia).
           replace (0 + Z.of_nat k <? Z.of_nat (Datatypes.S k)) with true
             by (symmetry; apply Z.ltb_lt; lia).
           cbn [andb]. rewrite Hpix. rewrite Z.eqb_refl. cbn [andb].
           replace (0 + Z.of_nat k <? Z.of_nat k) with false
             by (symmetry; apply Z.ltb_ge; lia).
           rewrite andb_false_r. unfold noise_at.
           cbn [adv w_oracle w_pos].
           replace (Z.to_nat (0 * 0 + (0 + Z.of_nat k))) with k by lia. reflexivity.
        -- rewrite Hpix. rewrite Z.eqb_refl. cbn [andb].
           destruct (Z.leb_spec 0 y); cbn [andb]; [|reflexivity].
           destruct (Z.ltb_spec y (Z.of_nat k)), (Z.ltb_spec y (Z.of_nat (Datatypes.S k)));
             try reflexivity; lia.
      * rewrite Hpix. destruct (Z.eqb_spec x i); [contradiction|]. reflexivity.
    + split; [symmetry; apply adv_0|]. repeat (split; [reflexivity|]). intros x y.
      destruct (Z.ltb_spec y (Z.of_nat 0)); [|rewrite andb_false_r; reflexivity].
      destruct (Z.leb_spec 0 y); [lia|]. rewrite andb_false_r. reflexivity.
  - cbv beta. intros img' w' (Hw1 & Hm & Hw & Hh & Hpix). subst w'.
    repeat (split; [assumption || reflexivity|]).
    intros x y. rewrite Hpix.
    destruct (Z.eqb_spec x i); cbn [andb]; [|reflexivity].
    destruct (Z.leb_spec 0 y); cbn [andb]; [|reflexivity].
    replace (y <? Z.of_nat (Z.to_nat (im_height img))) with (y <? im_height img);
      [reflexivity|].
    destruct (Z.ltb_spec y (im_height img)), (Z.ltb_spec y (Z.of_nat (Z.to_nat (im_height img))));
      try reflexivity; lia.
Qed.

(** The whole pass: every pixel of the image receives the delta drawn for
    it, one draw per pixel, column by column; nothing else changes. *)
Lemma add_noise_spec img w :
  (0 < im_width img -> 0 < im_height img -> im_mode img <> ModeL) ->
  returns (add_noise img intensity) w
    (fun img' w' =>
       w' = adv (Z.to_nat (im_width img) * Z.to_nat (im_height img)) w /\
       im_mode img' = im_mode img /\ im_width img' = im_width img /\
       im_height img' = im_height img /\
       forall x y, getpixel img' x y =
         if (0 <=? x) && (x <? im_width img) && (0 <=? y) && (y <? im_height img)
         then noisy (noise_at w intensity (im_height img) x y) (getpixel img x y)
         else getpixel img x y).
Proof.
  intros Hmode. unfold add_noise. rewrite range_as_count.
  set (Hn := Z.to_nat (im_height img)).
  eapply returns_weaken.
  - apply (returns_for_count
      (fun k img' w' =>
         w' = adv (k * Hn) w /\
         im_mode img' = im_mode img /\ im_width img' = im_width img /\
         im_height img' = im_height img /\
         forall x y, getpixel img' x y =
           if (0 <=? x) && (x <? Z.of_nat k) && (0 <=? y) && (y <? im_height img)
           then noisy (noise_at w intensity (im_height img) x y) (getpixel img x y)
           else getpixel img x y)).
    + cbv beta. intros k s w1 Hk (Hw1 & Hm & Hw & Hh & Hpix). subst w1.
      eapply returns_weaken.
      * apply add_noise_column. rewrite Hm, Hh. intros Hpos. apply Hmode; lia.
      * cbv beta. intros img' w' (Hw1 & Hm' & Hw' & Hh' & Hpix'). subst w'.
        split; [rewrite Hh, adv_adv; reflexivity|].
        split; [congruence|]. split; [congruence|]. split; [congruence|].
        intros x y. rewrite Hpix', Hpix, Hh.
        destruct (Z.eqb_spec x (0 + Z.of_nat k)) as [->|Hx];
          destruct (Z.leb_spec 0 y); destruct (Z.ltb_spec y (im_height img));
          cbn [andb];
          repeat match goal with
                 | |- context [?a <=? ?b] => destruct (Z.leb_spec a b)
                 | |- context [?a <? ?b] => destruct (Z.ltb_spec a b)
                 end; cbn [andb]; try lia; try reflexivity.
        f_equal. unfold noise_at. cbn [adv w_oracle w_pos].
        assert (E : (Z.to_nat (0 * 0 + y) + (k * Hn + w_pos w)
                     = Z.to_nat ((0 + Z.of_nat k) * im_height img + y) + w_pos w)%nat).
        { subst Hn. change (0 * 0 + y) with y.
          replace (0 + Z.of_nat k) with (Z.of_nat k) by lia.
          rewrite (Z2Nat.inj_add _ y), Z2Nat.inj_mul, Nat2Z.id by (try lia; nia). lia. }
        rewrite E. reflexivity.
    + split; [symmetry; apply adv_0|]. repeat (split; [reflexivity|]). intros x y.
      destruct (Z.leb_spec 0 x); destruct (Z.ltb_spec x (Z.of_nat 0));
        cbn [andb]; try lia; reflexivity.
  - cbv beta. intros img' w' (Hw1 & Hm & Hw & Hh & Hpix). subst w'.
    repeat (split; [assumption || reflexivity|]).
    intros x y. rewrite Hpix.
    destruct (Z.leb_spec 0 x); cbn [andb]; [|reflexivity].
    destruct (Z.ltb_spec x (im_width img)), (Z.ltb_spec x (Z.of_nat (Z.to_nat (im_width img))));
      try reflexivity; lia.
Qed.

End AddNoise.

Lemma clamp8_bound c delta intensity :
  chan8 c -> - intensity <= delta <= intensity ->
  Z.abs (clamp8 (c + delta) - c) <= intensity /\ 0 <= clamp8 (c + delta) <= 255.
Proof. unfold chan8, clamp8. lia. Qed.

Lemma clamp8_id c : chan8 c -> clamp8 c = c.
Proof. unfold chan8, clamp8. lia. Qed.

Lemma noise_at_range w intensity h i j :
  0 <= intensity -> - intensity <= noise_at w intensity h i j <= intensity.
Proof.
  intros HI. unfold noise_at.
  pose proof (Z.mod_pos_bound (w_oracle w (Z.to_nat (i * h + j) + w_pos w))
                (intensity - - intensity + 1) ltac:(lia)). lia.
Qed.

Lemma pixel8_not_L img :
  (forall i j, in_image img i j -> pixel8 (getpixel img i j)) ->
  0 < im_width img -> 0 < im_height img -> im_mode img <> ModeL.
Proof.
  intros H8 Hw Hh Hm. specialize (H8 0 0 ltac:(unfold in_image; lia)).
  unfold getpixel in H8. rewrite Hm in H8.
  destruct (im_buf img 0 0) as [[[r g] b] a]. exact H8.
Qed.

Lemma in_image_test img i j :
  in_image img i j ->
  (0 <=? i) && (i <? im_width img) && (0 <=? j) && (j <? im_height img) = true.
Proof.
  intros [[H1 H2] [H3 H4]].
  apply Z.leb_le in H1, H3. apply Z.ltb_lt in H2, H4. rewrite H1, H2, H3, H4. reflexivity.
Qed.

(** C6: for every 8-bit image and every intensity I >= 0, [add_noise]
    returns; each pixel of the image receives one delta of [[-I, I]] (the
    draw made for that pixel), added to R, G and B alike and clamped, so
    every output channel is within I of the input channel and in [[0, 255]];
    the alpha channel of an RGBA pixel is unchanged. *)
Theorem add_noise_bound (img : image) (intensity : Z) (w : world) :
  0 <= intensity ->
  (forall i j, in_image img i j -> pixel8 (getpixel img i j)) ->
  exists img',
    add_noise img intensity w
      = Ok img' (adv (Z.to_nat (im_width img) * Z.to_nat (im_height img)) w) /\
    im_mode img' = im_mode img /\ im_width img' = im_width img /\
    im_height img' = im_height img /\
    forall i j, in_image img i j ->
      let delta := noise_at w intensity (im_height img) i j in
      - intensity <= delta <= intensity /\
      getpixel img' i j = noisy delta (getpixel img i j) /\
      Forall2 (fun c c' => Z.abs (c' - c) <= intensity /\ 0 <= c' <= 255)
        (rgb_of (getpixel img i j)) (rgb_of (getpixel img' i j)) /\
      alpha_of (getpixel img' i j) = alpha_of (getpixel img i j).
Proof.
  intros HI H8.
  destruct (add_noise_spec intensity HI img w (pixel8_not_L img H8))
    as (img' & w' & Hrun & Hw' & Hm & Hw & Hh & Hpix).
  subst w'. exists img'. split; [exact Hrun|]. repeat (split; [assumption|]).
  intros i j Hin delta.
  pose proof (noise_at_range w intensity (im_height img) i j HI) as Hd. fold delta in Hd.
  split; [exact Hd|].
  assert (Hp : getpixel img' i j = noisy delta (getpixel img i j))
    by (rewrite Hpix, (in_image_test img i j Hin); reflexivity).
  split; [exact Hp|]. rewrite Hp.
  specialize (H8 i j Hin). destruct (getpixel img i j) as [v|r g b|r g b a];
    cbn [pixel8 noisy rgb_of alpha_of] in *; [contradiction| |].
  - destruct H8 as (Hr & Hg & Hb).
    split; [|reflexivity].
    repeat (apply Forall2_cons; [apply clamp8_bound; assumption|]). apply Forall2_nil.
  - destruct H8 as (Hr & Hg & Hb & Ha).
    split; [|reflexivity].
    repeat (apply Forall2_cons; [apply clamp8_bound; assumption|]). apply Forall2_nil.
Qed.

Lemma add_noise_bound_witness :
  exists img',
    add_noise demo_image 5 demo_world = Ok img' (adv 2 demo_world) /\
    getpixel img' 0 0 = PRGBA 8 248 28 40.
Proof.
  destruct (add_noise_bound demo_image 5 demo_world) as (img' & Hrun & _ & _ & _ & Hpix).
  - lia.
  - intros i j [[Hi1 Hi2] _]. unfold getpixel, demo_image; cbn [im_mode im_buf im_width] in *.
    destruct (Z.eqb_spec i 0); cbn; unfold chan8; lia.
  - exists img'. split; [exact Hrun|].
    destruct (Hpix 0 0) as (_ & Hp & _); [unfold in_image; cbn; lia|].
    rewrite Hp. reflexivity.
Defined.

(** C10: with intensity 0 [add_noise] returns an image with every pixel of
    an 8-bit input unchanged (R, G, B, and alpha when present). *)
Theorem add_noise_zero_identity (img : image) (w : world) :
  (forall i j, in_image img i j -> pixel8 (getpixel img i j)) ->
  exists img',
    add_noise img 0 w
      = Ok img' (adv (Z.to_nat (im_width img) * Z.to_nat (im_height img)) w) /\
    im_mode img' = im_mode img /\ im_width img' = im_width img /\
    im_height img' = im_height img /\
    forall i j, getpixel img' i j = getpixel img i j.
Proof.
  intros H8.
  destruct (add_noise_spec 0 ltac:(lia) img w (pixel8_not_L img H8))
    as (img' & w' & Hrun & Hw' & Hm & Hw & Hh & Hpix).
  subst w'. exists img'. split; [exact Hrun|]. repeat (split; [assumption|]).
  intros i j. rewrite Hpix.
  destruct ((0 <=? i) && (i <? im_width img) && (0 <=? j) && (j <? im_height img)) eqn:E;
    [|reflexivity].
  assert (Hin : in_image img i j).
  { unfold in_image. repeat (apply andb_prop in E; destruct E as [E ?]).
    repeat match goal with
           | H : (_ <=? _) = true |- _ => apply Z.leb_le in H
           | H : (_ <? _) = true |- _ => apply Z.ltb_lt in H
           end. lia. }
  assert (Hz : noise_at w 0 (im_height img) i j = 0).
  { unfold noise_at. change (0 - - 0 + 1) with 1. rewrite Z.mod_1_r. reflexivity. }
  rewrite Hz. specialize (H8 i j Hin).
  destruct (getpixel img i j) as [v|r g b|r g b a]; cbn [pixel8 noisy] in *;
    [contradiction| |]; rewrite !Z.add_0_r, !clamp8_id by tauto; reflexivity.
Qed.

Lemma add_noise_zero_identity_witness :
  exists img',
    add_noise demo_image 0 demo_world = Ok img' (adv 2 demo_world) /\
    getpixel img' 1 0 = PRGBA 0 128 255 255.
Proof.
  destruct (add_noise_zero_identity demo_image demo_world) as (img' & Hrun & _ & _ & _ & Hpix).
  - intros i j [[Hi1 Hi2] _]. unfold getpixel, demo_image; cbn [im_mode im_buf im_width] in *.
    destruct (Z.eqb_spec i 0); cbn; unfold chan8; lia.
  - exists img'. split; [exact Hrun|]. rewrite Hpix. reflexivity.
Defined.

(** ** World-independent computations *)

Lemma logged_nil w : logged [] w = w.
Proof. destruct w. unfold logged; cbn. rewrite app_nil_r. reflexivity. Qed.

Lemma logged_logged e1 e2 w : logged e2 (logged e1 w) = logged (e1 ++ e2) w.
Proof. unfold logged; cbn. rewrite app_assoc. reflexivity. Qed.

Lemma deterministic_ret {A} (a : A) : deterministic (ret a).
Proof. exists (inr a), []. intros w. rewrite logged_nil. reflexivity. Qed.

Lemma deterministic_raise {A} (e : exn) : deterministic (@raise A e).
Proof. exists (inl e), []. intros w. rewrite logged_nil. reflexivity. Qed.

Lemma deterministic_lift {A} (e : E A) : deterministic (lift e).
Proof. destruct e; [apply deterministic_raise|apply deterministic_ret]. Qed.

Lemma deterministic_bind {A B} (m : M A) (k : A -> M B) :
  deterministic m -> (forall a, deterministic (k a)) -> deterministic (bind m k).
Proof.
  intros (r1 & e1 & H1) Hk. destruct r1 as [e|a].
  - exists (inl e), e1. intros w. unfold bind. rewrite H1. reflexivity.
  - destruct (Hk a) as (r2 & e2 & H2). exists r2, (e1 ++ e2). intros w.
    unfold bind. rewrite H1, H2, logged_logged. reflexivity.
Qed.

Lemma deterministic_emit e : deterministic (emit e).
Proof. exists (inr tt), [e]. intros w. reflexivity. Qed.

Lemma deterministic_pil rasterize op img : deterministic (pil rasterize op img).
Proof.
  unfold pil. apply deterministic_bind; [apply deterministic_emit|].
  intros _. apply deterministic_ret.
Qed.

Lemma deterministic_for_each {A S} (l : list A) (body : A -> S -> M S) :
  (forall a s, deterministic (body a s)) -> forall s, deterministic (for_each l body s).
Proof.
  intros Hbody. induction l as [|a l IH]; intros s; simpl.
  - apply deterministic_ret.
  - apply deterministic_bind; [apply Hbody|exact IH].
Qed.

(** C8: [create_gradient] is deterministic: for all arguments its outcome
    (the image, pixel store included) and the drawing calls it makes are
    the same from every world, and it reads nothing from the random
    stream. *)
Theorem create_gradient_deterministic
    (rasterize : pil_op -> image -> Z -> Z -> quad)
    (width height : Z) (color1 color2 : color) (direction : string) :
  deterministic (create_gradient rasterize width height color1 color2 direction).
Proof.
  unfold create_gradient. apply deterministic_bind; [apply deterministic_lift|].
  intros img. apply deterministic_for_each. clear img. intros i img.
  unfold gradient_row. destruct color1 as [[r1 g1] b1], color2 as [[r2 g2] b2].
  repeat (apply deterministic_bind; [apply deterministic_lift|intros ?]).
  destruct (String.eqb direction "vertical"); apply deterministic_pil.
Qed.

(** ** The inventory shading *)

(** The darkening term depends on the point only through its squared
    distance to the centre pixel, hence it is symmetric about that pixel. *)
Lemma inventory_darkness_reflect (cx cy x y : Z) :
  inventory_darkness cx cy x y = inventory_darkness cx cy (2 * cx - x) (2 * cy - y).
Proof.
  unfold inventory_darkness.
  replace ((2 * cx - x - cx) ^ 2) with ((x - cx) ^ 2) by (rewrite !Z.pow_2_r; lia).
  replace ((2 * cy - y - cy) ^ 2) with ((y - cy) ^ 2) by (rewrite !Z.pow_2_r; lia).
  reflexivity.
Qed.

(** C4 (as amended): on a canvas of odd width and odd height (a square
    one in particular) the darkening term [int(30 * dist / max_dist)] at
    [(x, y)] equals the term at the rotated point
    [(width - 1 - x, height - 1 - y)]. *)
Theorem inventory_darkness_symmetry (width height x y : Z) :
  Z.odd width = true -> Z.odd height = true ->
  inventory_darkness (width / 2) (height / 2) x y
  = inventory_darkness (width / 2) (height / 2) (width - 1 - x) (height - 1 - y).
Proof.
  intros Hw Hh.
  apply Z.odd_spec in Hw, Hh. destruct Hw as [a Ha], Hh as [b Hb].
  rewrite (inventory_darkness_reflect (width / 2) (height / 2) x y).
  f_equal; Z.to_euclidean_division_equations; lia.
Qed.

Lemma inventory_darkness_symmetry_witness :
  inventory_darkness (5 / 2) (5 / 2) 0 1 = inventory_darkness (5 / 2) (5 / 2) (5 - 1 - 0) (5 - 1 - 1).
Proof. apply (inventory_darkness_symmetry 5 5 0 1); reflexivity. Defined.

(** C4 as stated fails on the 64x64 inventory slot: the corner [(0, 0)] is
    darkened by 30, the rotated corner [(63, 63)] by 29. *)
Lemma inventory_darkness_even_counterexample :
  inventory_darkness (64 / 2) (64 / 2) 0 0 = inr 30 /\
  inventory_darkness (64 / 2) (64 / 2) (64 - 1 - 0) (64 - 1 - 0) = inr 29 /\
  inventory_darkness (64 / 2) (64 / 2) 0 0
    <> inventory_darkness (64 / 2) (64 / 2) (64 - 1 - 0) (64 - 1 - 0).
Proof. vm_compute. repeat split; discriminate. Qed.

(** C5: on a 3x3 white inventory texture with every dither equal to +5, the
    value handed to [putpixel] for the centre pixel is 260 on each colour
    channel: the radial shading clamps below 0 only. *)
Theorem inventory_channel_overflow :
  match create_ui_texture raster_ref "out" "slot" 3 3 (255, 255, 255) "inventory"
          (const_world 10) with
  | Ok _ w' => nth_error (w_trace w') 4 = Some (EvPil (PutPixel 1 1 (Ink4 260 260 260 255)))
  | Raise _ _ => False
  end.
Proof. vm_compute. reflexivity. Qed.

(** ** The style dispatch *)





(** ** The gradient *)

Import FloatMag.

Ltac fmag_lit := unfold fmag; vm_compute; intro; discriminate.

Lemma fmag_zero k : fmag k PrimFloat.zero.
Proof. exact I. Qed.
Lemma fmag_one : fmag 1 1%float.
Proof. fmag_lit. Qed.

Lemma py_float_small z : Z.abs z < 2 ^ 63 -> py_float z = inr (float_of_small z).
Proof.
  intros Hz. unfold py_float.
  change (2 ^ 63) with 9223372036854775808 in Hz.
  destruct (Z.ltb_spec (Z.abs z) 9223372036854775808); [reflexivity|lia].
Qed.

Lemma fmag_chan8 c : chan8 c -> fmag 8 (float_of_small c).
Proof.
  intros [H0 H255]. eapply fmag_weaken; [apply fmag_float_of_small; lia|].
  apply Zdigits2_lt; lia.
Qed.

(** The ratio [i / n] of an index of [range(n)]. *)
Lemma gradient_ratio_mag i n :
  0 <= i < n -> n < 2 ^ 53 -> exists ratio, py_truediv i n = inr ratio /\ fmag 2 ratio.
Proof.
  intros Hi Hn. unfold py_truediv.
  destruct (Z.eqb_spec n 0); [lia|].
  destruct (Z.eqb_spec i 0) as [->|Hi0].
  - destruct (Z.ltb_spec n 0); [lia|]. eexists. split; [reflexivity|exact I].
  - replace ((Z.abs i <=? 9007199254740992) && (Z.abs n <=? 9007199254740992)) with true
      by (symmetry; apply andb_true_iff; change (2 ^ 53) with 9007199254740992 in Hn;
          split; apply Z.leb_le; lia).
    eexists. split; [reflexivity|].
    destruct (Prim2SF_float_of_small n ltac:(lia)) as (m & e & Hn1 & Hn2 & _).
    eapply fmag_weaken.
    + eapply (fmag_div (Zdigits2 i) (Zdigits2 n)); [apply fmag_float_of_small; lia|exact Hn1|lia|].
      pose proof (Zdigits2_mono i n ltac:(lia)).
      assert (Zdigits2 n <= 53) by (apply Zdigits2_lt; lia).
      assert (1 <= Zdigits2 i) by (rewrite Zdigits2_log2 by lia; pose proof (Z.log2_nonneg i); lia).
      lia.
    + pose proof (Zdigits2_mono i n ltac:(lia)). lia.
Qed.

Lemma gradient_channel_defined c1 c2 ratio :
  chan8 c1 -> chan8 c2 -> fmag 2 ratio -> exists v, gradient_channel c1 c2 ratio = inr v.
Proof.
  intros H1 H2 Hr. unfold gradient_channel.
  rewrite !py_float_small by (unfold chan8 in *; lia). cbn [ebind].
  eapply py_int_defined.
  eapply fmag_add;
    [eapply fmag_mul;
       [apply fmag_chan8, H1|eapply fmag_sub; [apply fmag_one|exact Hr|lia]|lia]
    |eapply fmag_mul; [apply fmag_chan8, H2|exact Hr|lia]|lia].
Qed.

Lemma gradient_color_defined n c1 c2 i :
  color8 c1 -> color8 c2 -> 0 <= i < n -> n < 2 ^ 53 ->
  exists c, gradient_color n c1 c2 i = inr c.
Proof.
  destruct c1 as [[r1 g1] b1], c2 as [[r2 g2] b2].
  intros (Hr1 & Hg1 & Hb1) (Hr2 & Hg2 & Hb2) Hi Hn. unfold gradient_color.
  destruct (gradient_ratio_mag i n Hi Hn) as (ratio & -> & Hmag). cbn [ebind].
  destruct (gradient_channel_defined r1 r2 ratio Hr1 Hr2 Hmag) as (r & ->).
  destruct (gradient_channel_defined g1 g2 ratio Hg1 Hg2 Hmag) as (g & ->).
  destruct (gradient_channel_defined b1 b2 ratio Hb1 Hb2 Hmag) as (b & ->).
  cbn [ebind eret]. eauto.
Qed.

(** ** Order of binary64 values

    Comparisons of finite floats in canonical form agree with the order of
    their values; scaled by 2^1074 every finite value is an integer. *)

Lemma canonical_facts m e :
  bounded prec emax m e = true ->
  -1074 <= e /\ Z.pos m < 2 ^ 53 /\ (-1074 < e -> 2 ^ 52 <= Z.pos m).
Proof.
  unfold bounded, canonical_mantissa. intros H. apply andb_prop in H. destruct H as [H _].
  apply Z.eqb_eq in H. unfold fexp, SpecFloat.emin, prec, emax in H.
  rewrite Zpos_digits2 in H.
  pose proof (Zdigits2_upper (Z.pos m) ltac:(lia)) as Hu.
  pose proof (Zdigits2_lower (Z.pos m) ltac:(lia)) as Hl.
  pose proof (Zdigits2_nonneg (Z.pos m)) as Hn.
  split; [lia|]. split.
  - eapply Z.lt_le_trans; [exact Hu|]. apply Z.pow_le_mono_r; lia.
  - intros He. replace (Zdigits2 (Z.pos m)) with 53 in Hl by lia. exact Hl.
Qed.

Lemma canonical_compare m1 e1 m2 e2 :
  bounded prec emax m1 e1 = true -> bounded prec emax m2 e2 = true ->
  match Z.compare e1 e2 with
  | Lt => Lt
  | Gt => Gt
  | Eq => Pos.compare_cont Eq m1 m2
  end = Z.compare (Z.pos m1 * 2 ^ (e1 + 1074)) (Z.pos m2 * 2 ^ (e2 + 1074)).
Proof.
  intros H1 H2.
  destruct (canonical_facts m1 e1 H1) as (Ha1 & Hb1 & Hc1).
  destruct (canonical_facts m2 e2 H2) as (Ha2 & Hb2 & Hc2).
  assert (Hlt : forall ma ea mb eb, -1074 <= ea -> ea < eb -> Z.pos ma < 2 ^ 53 ->
            2 ^ 52 <= Z.pos mb -> Z.pos ma * 2 ^ (ea + 1074) < Z.pos mb * 2 ^ (eb + 1074)).
  { intros ma ea mb eb Hea Hlt Hma Hmb.
    assert (0 < 2 ^ (ea + 1074)) by (apply Z.pow_pos_nonneg; lia).
    assert (2 ^ (eb + 1074) = 2 ^ (ea + 1074) * 2 ^ (eb - ea)) as ->
      by (rewrite <- Z.pow_add_r by lia; f_equal; lia).
    assert (2 ^ 1 <= 2 ^ (eb - ea)) by (apply Z.pow_le_mono_r; lia).
    change (2 ^ 1) with 2 in *. change (2 ^ 53) with (2 * 2 ^ 52) in Hma.
    assert (HT : 0 < 2 ^ 52) by (apply Z.pow_pos_nonneg; lia).
    clear Hc1 Hc2 Hb1 Hb2.
    remember (2 ^ 52) as T eqn:ET. clear ET.
    remember (2 ^ (ea + 1074)) as P eqn:EP. clear EP.
    remember (2 ^ (eb - ea)) as R eqn:ER. clear ER.
    assert (Z.pos ma * P < 2 * T * P) by nia.
    assert (2 * T * P <= Z.pos mb * P * 2) by nia.
    assert (Z.pos mb * P * 2 <= Z.pos mb * (P * R)) by nia.
    lia. }
  destruct (Z.compare_spec e1 e2) as [->|Hl|Hg].
  - rewrite Pos.compare_cont_spec. cbn [Pos.switch_Eq].
    assert (0 < 2 ^ (e2 + 1074)) by (apply Z.pow_pos_nonneg; lia).
    change (Pos.compare m1 m2) with (Z.compare (Z.pos m1) (Z.pos m2)).
    destruct (Z.compare_spec (Z.pos m1) (Z.pos m2)) as [E|E|E]; symmetry.
    + rewrite E. apply Z.compare_refl.
    + apply Z.compare_lt_iff. nia.
    + apply Z.compare_gt_iff. nia.
  - symmetry. apply Z.compare_lt_iff. apply Hlt; auto; lia.
  - symmetry. apply Z.compare_gt_iff. apply Hlt; auto; lia.
Qed.

(** The float of a small positive integer, scaled. *)
Lemma float_of_small_scaled z :
  0 < z < 2 ^ 53 ->
  exists m e, Prim2SF (float_of_small z) = S754_finite false m e /\
              bounded prec emax m e = true /\
              Z.pos m * 2 ^ (e + 1074) = z * 2 ^ 1074.
Proof.
  intros Hz. destruct (Prim2SF_float_of_small z ltac:(lia)) as (m & e & H1 & H2 & H3 & H4).
  replace (z <? 0) with false in H1 by (symmetry; apply Z.ltb_ge; lia).
  exists m, e. split; [exact H1|]. split.
  - pose proof (Prim2SF_valid (float_of_small z)) as Hv. rewrite H1 in Hv. exact Hv.
  - assert (Hd : 1 <= Zdigits2 z <= 53).
    { split; [rewrite Zdigits2_log2 by lia; pose proof (Z.log2_nonneg z); lia|].
      apply Zdigits2_lt; lia. }
    rewrite H3, Z.abs_eq by lia. rewrite <- Z.mul_assoc, <- Z.pow_add_r by lia.
    f_equal. f_equal. lia.
Qed.

(** A float between two small integers converts to an integer between
    them. *)
Lemma py_int_between a b s :
  0 <= a -> a < b -> b < 2 ^ 53 ->
  PrimFloat.leb (float_of_small a) s = true ->
  PrimFloat.ltb s (float_of_small b) = true ->
  exists v, py_int s = inr v /\ a <= v < b.
Proof.
  intros Ha Hab Hb. rewrite FloatAxioms.leb_spec, FloatAxioms.ltb_spec.
  destruct (float_of_small_scaled b ltac:(lia)) as (mb & eb & HB & HBv & HBs).
  rewrite HB. unfold py_int.
  pose proof (Prim2SF_valid s) as Hv.
  assert (HP : 0 < 2 ^ 1074) by (apply Z.pow_pos_nonneg; lia).
  assert (HA : a = 0 /\ Prim2SF (float_of_small a) = S754_zero false \/
               exists ma ea, Prim2SF (float_of_small a) = S754_finite false ma ea /\
                             bounded prec emax ma ea = true /\
                             Z.pos ma * 2 ^ (ea + 1074) = a * 2 ^ 1074).
  { destruct (Z.eq_dec a 0) as [->|Hne]; [left; split; reflexivity|].
    right. apply float_of_small_scaled. lia. }
  destruct (Prim2SF s) as [sx|sx| |sx mx ex].
  - (* zero *)
    intros Hle _. exists 0. split; [reflexivity|].
    destruct HA as [[-> _]|(ma & ea & HA & _)]; [lia|].
    rewrite HA in Hle. cbn in Hle. discriminate.
  - (* infinity *)
    intros Hle Hlt. destruct sx; cbn in Hlt; [|discriminate].
    destruct HA as [[_ HA]|(ma & ea & HA & _)]; rewrite HA in Hle; cbn in Hle; discriminate.
  - intros _ Hlt. cbn in Hlt. discriminate.
  - (* finite *)
    cbn [valid_binary] in Hv. destruct (canonical_facts mx ex Hv) as (Hex & _ & _).
    intros Hle Hlt.
    assert (Hsx : sx = false).
    { destruct sx; [|reflexivity].
      destruct HA as [[_ HA]|(ma & ea & HA & _)]; rewrite HA in Hle; cbn in Hle; discriminate. }
    subst sx.
    assert (Hup : Z.pos mx * 2 ^ (ex + 1074) < b * 2 ^ 1074).
    { unfold SFltb, SFcompare in Hlt. rewrite (canonical_compare mx ex mb eb Hv HBv) in Hlt.
      rewrite <- HBs. unfold Z.lt.
      destruct (Z.compare (Z.pos mx * 2 ^ (ex + 1074)) (Z.pos mb * 2 ^ (eb + 1074)));
        [discriminate Hlt|reflexivity|discriminate Hlt]. }
    assert (Hlo : a * 2 ^ 1074 <= Z.pos mx * 2 ^ (ex + 1074)).
    { destruct HA as [[-> _]|(ma & ea & HA & HAv & HAs)].
      - assert (0 < 2 ^ (ex + 1074)) by (apply Z.pow_pos_nonneg; lia). nia.
      - rewrite HA in Hle. unfold SFleb, SFcompare in Hle.
        rewrite (canonical_compare ma ea mx ex HAv Hv) in Hle.
        rewrite <- HAs. unfold Z.le.
        destruct (Z.compare (Z.pos ma * 2 ^ (ea + 1074)) (Z.pos mx * 2 ^ (ex + 1074)));
          [discriminate|discriminate|discriminate Hle]. }
    eexists. split; [reflexivity|].
    destruct (Z.leb_spec 0 ex) as [Hpos|Hneg].
    + rewrite Z.shiftl_mul_pow2 by lia.
      rewrite Z.pow_add_r, Z.mul_assoc in Hup, Hlo by lia. nia.
    + rewrite Z.shiftr_div_pow2 by lia.
      assert (HD : 0 < 2 ^ (- ex)) by (apply Z.pow_pos_nonneg; lia).
      assert (HQ : 0 < 2 ^ (ex + 1074)) by (apply Z.pow_pos_nonneg; lia).
      assert (HE : 2 ^ 1074 = 2 ^ (- ex) * 2 ^ (ex + 1074))
        by (rewrite <- Z.pow_add_r by lia; f_equal; lia).
      rewrite HE in Hup, Hlo. split.
      * apply Z.div_le_lower_bound; [lia|]. nia.
      * apply Z.div_lt_upper_bound; [lia|]. nia.
Qed.

Lemma all_chan_pairs_spec test :
  all_chan_pairs test = true ->
  forall a b, chan8 a -> chan8 b -> test a (float_of_small a) b (float_of_small b) = true.
Proof.
  unfold all_chan_pairs. intros H a b Ha Hb.
  assert (Hin : forall c, chan8 c -> In (c, float_of_small c) chan_floats).
  { intros c Hc. unfold chan_floats. apply in_map_iff. exists c.
    split; [reflexivity|]. apply in_range. unfold chan8 in Hc. lia. }
  rewrite forallb_forall in H. specialize (H _ (Hin a Ha)).
  rewrite forallb_forall in H. exact (H _ (Hin b Hb)).
Qed.

Lemma gradient_channel_mix a b ratio :
  chan8 a -> chan8 b ->
  gradient_channel a b ratio
  = py_int (gradient_mix (float_of_small a) (float_of_small b) ratio).
Proof.
  intros Ha Hb. unfold gradient_channel.
  rewrite !py_float_small by (unfold chan8 in *; lia). reflexivity.
Qed.

Lemma first_index_all : all_chan_pairs first_index_test = true.
Proof. vm_compute. reflexivity. Qed.

(** At index 0 the gradient channel is the first colour's, exactly. *)
Lemma first_index_exact a b :
  chan8 a -> chan8 b -> gradient_channel a b PrimFloat.zero = inr a.
Proof.
  intros Ha Hb. rewrite gradient_channel_mix by assumption.
  pose proof (all_chan_pairs_spec _ first_index_all a b Ha Hb) as H.
  unfold first_index_test in H. apply andb_prop in H. destruct H as [H1 H2].
  destruct (py_int_between a (a + 1) _ ltac:(unfold chan8 in Ha; lia) ltac:(lia)
              ltac:(unfold chan8 in Ha; lia) H1 H2) as (v & -> & Hv).
  f_equal. lia.
Qed.

(** At the last index of [n] the gradient channel is within 1 of the second
    colour's, for every [n] that passes the check. *)
Lemma last_index_close n a b :
  last_index_check n = true -> chan8 a -> chan8 b ->
  exists ratio v, py_truediv (n - 1) n = inr ratio /\
                  gradient_channel a b ratio = inr v /\ Z.abs (v - b) <= 1.
Proof.
  unfold last_index_check. intros H Ha Hb.
  destruct (py_truediv (n - 1) n) as [e|ratio]; [discriminate|].
  pose proof (all_chan_pairs_spec _ H a b Ha Hb) as Ht.
  unfold last_index_test in Ht. apply andb_prop in Ht. destruct Ht as [H1 H2].
  destruct (py_int_between (Z.max 0 (b - 1)) (b + 2) _ ltac:(lia)
              ltac:(unfold chan8 in Hb; lia) ltac:(unfold chan8 in Hb; lia) H1 H2)
    as (v & Hv & Hr).
  exists ratio, v. split; [reflexivity|]. rewrite gradient_channel_mix by assumption.
  split; [exact Hv|]. unfold chan8 in Hb. lia.
Qed.

Lemma last_index_check_1200 : last_index_check 1200 = true.
Proof. vm_compute. reflexivity. Qed.

Lemma last_index_check_640 : last_index_check 640 = true.
Proof. vm_compute. reflexivity. Qed.

Lemma getpixel_with_buf img buf x y :
  getpixel (with_buf img buf) x y = view (im_mode img) (buf x y).
Proof. reflexivity. Qed.

Lemma returns_pil rasterize op img w (Q : image -> world -> Prop) :
  Q (with_buf img (rasterize op img)) (logged [EvPil op] w) ->
  returns (pil rasterize op img) w Q.
Proof. intros H. eexists _, _. split; [reflexivity|exact H]. Qed.

Section Gradient.

Variable rasterize : pil_op -> image -> Z -> Z -> quad.
Hypothesis line_spec : draws_axis_lines rasterize.

Variables (width height : Z) (color1 color2 : color) (direction : string).

Let vertical : bool := String.eqb direction "vertical".
Let n : Z := if vertical then height else width.
Let index (x y : Z) : Z := if vertical then y else x.

(** One iteration draws the line of the colour computed for its index. *)
Lemma gradient_row_run i r g b img w :
  gradient_color n color1 color2 i = inr (r, g, b) ->
  gradient_row rasterize width height color1 color2 direction i img w
  = pil rasterize (if vertical then Line 0 i width i (Ink3 r g b)
                   else Line i 0 i height (Ink3 r g b)) img w.
Proof.
  unfold gradient_color, gradient_row, n, vertical.
  destruct color1 as [[r1 g1] b1], color2 as [[r2 g2] b2].
  unfold bind, lift, ret, raise.
  destruct (py_truediv i _) as [e|ratio]; cbn beta iota delta [ebind]; [discriminate|].
  destruct (gradient_channel r1 r2 ratio) as [e|r']; cbn beta iota delta [ebind];
    [discriminate|].
  destruct (gradient_channel g1 g2 ratio) as [e|g']; cbn beta iota delta [ebind];
    [discriminate|].
  destruct (gradient_channel b1 b2 ratio) as [e|b']; cbn beta iota delta [ebind eret];
    [discriminate|].
  intros H. injection H as -> -> ->.
  destruct (String.eqb direction "vertical"); reflexivity.
Qed.

(** Every pixel of the canvas holds the colour computed for its row
    (vertical) or column (horizontal). *)
Lemma create_gradient_spec w :
  0 < width < 2 ^ 53 -> 0 < height < 2 ^ 53 -> color8 color1 -> color8 color2 ->
  returns (create_gradient rasterize width height color1 color2 direction) w
    (fun img _ =>
       im_mode img = ModeRGB /\ im_width img = width /\ im_height img = height /\
       forall x y, in_image img x y ->
         exists r g b,
           gradient_color n color1 color2 (index x y) = inr (r, g, b) /\
           getpixel img x y = PRGB (clamp8 r) (clamp8 g) (clamp8 b)).
Proof.
  intros Hw Hh H1 H2. unfold create_gradient, Image_new.
  replace ((width <? 0) || (height <? 0)) with false
    by (symmetry; apply orb_false_iff; split; apply Z.ltb_ge; lia).
  apply returns_bind, returns_ret. fold vertical. fold n. rewrite range_as_count.
  eapply returns_weaken.
  - apply (returns_for_count
      (fun k img _ =>
         im_mode img = ModeRGB /\ im_width img = width /\ im_height img = height /\
         forall x y, in_image img x y -> index x y < Z.of_nat k ->
           exists r g b,
             gradient_color n color1 color2 (index x y) = inr (r, g, b) /\
             getpixel img x y = PRGB (clamp8 r) (clamp8 g) (clamp8 b))).
    + cbv beta. intros k s w1 Hk (Hm & Hsw & Hsh & Hpix).
      assert (Hn : 0 < n < 2 ^ 53) by (unfold n; destruct vertical; lia).
      destruct (gradient_color_defined n color1 color2 (0 + Z.of_nat k) H1 H2
                  ltac:(lia) ltac:(lia)) as ([[r g] b] & Hc).
      eapply returns_eq; [apply (gradient_row_run _ r g b s w1 Hc)|].
      apply returns_pil. repeat (split; [assumption|]).
      intros x y Hin Hidx. rewrite getpixel_with_buf, Hm.
      assert (Hin' : 0 <= x < width /\ 0 <= y < height)
        by (unfold in_image in Hin; cbn in Hin; lia).
      destruct (Z.eq_dec (index x y) (0 + Z.of_nat k)) as [Heq|Hne].
      * exists r, g, b. rewrite Heq. split; [exact Hc|].
        unfold index in Heq. destruct vertical.
        -- rewrite line_spec by (auto; lia). unfold in_box.
           replace ((0 <=? x) && (x <=? width) && (0 + Z.of_nat k <=? y) && (y <=? 0 + Z.of_nat k))
             with true; [reflexivity|].
           symmetry. rewrite !andb_true_iff, !Z.leb_le. lia.
        -- rewrite line_spec by (auto; lia). unfold in_box.
           replace ((0 + Z.of_nat k <=? x) && (x <=? 0 + Z.of_nat k) && (0 <=? y) && (y <=? height))
             with true; [reflexivity|].
           symmetry. rewrite !andb_true_iff, !Z.leb_le. lia.
      * destruct (Hpix x y) as (r' & g' & b' & Hc' & Hp');
          [unfold in_image; lia|lia|].
        exists r', g', b'. split; [exact Hc'|]. rewrite <- Hp'.
        unfold index in Hne. destruct vertical.
        -- rewrite line_spec by (auto; lia). unfold in_box.
           replace ((0 <=? x) && (x <=? width) && (0 + Z.of_nat k <=? y) && (y <=? 0 + Z.of_nat k))
             with false; [reflexivity|].
           symmetry. apply not_true_is_false. rewrite !andb_true_iff, !Z.leb_le. lia.
        -- rewrite line_spec by (auto; lia). unfold in_box.
           replace ((0 + Z.of_nat k <=? x) && (x <=? 0 + Z.of_nat k) && (0 <=? y) && (y <=? height))
             with false; [reflexivity|].
           symmetry. apply not_true_is_false. rewrite !andb_true_iff, !Z.leb_le. lia.
    + cbn. repeat (split; [reflexivity|]). intros x y Hin Hidx.
      unfold index in Hidx. unfold in_image in Hin. cbn in Hin, Hidx.
      destruct vertical; lia.
  - cbv beta. intros img w' (Hm & Hsw & Hsh & Hpix). repeat (split; [assumption|]).
    intros x y Hin. apply Hpix; [exact Hin|].
    unfold in_image in Hin. rewrite Hsw, Hsh in Hin. unfold index, n.
    destruct vertical; lia.
Qed.

End Gradient.

Lemma raster_ref_axis_lines : draws_axis_lines raster_ref.
Proof.
  intros img x0 y0 x1 y1 r g b x y Hm Haxis Hx Hy.
  cbn [raster_ref]. rewrite Z.min_l, Z.min_l, Z.max_r, Z.max_r by lia.
  replace ((x0 =? x1) || (y0 =? y1)) with true
    by (symmetry; apply orb_true_iff; rewrite !Z.eqb_eq; exact Haxis).
  cbn [andb]. destruct (in_box x0 y0 x1 y1 x y); [reflexivity|].
  unfold getpixel. rewrite Hm. reflexivity.
Qed.

Lemma gradient_color_first n c1 c2 :
  0 < n -> color8 c1 -> color8 c2 -> gradient_color n c1 c2 0 = inr c1.
Proof.
  destruct c1 as [[r1 g1] b1], c2 as [[r2 g2] b2].
  intros Hn (Hr1 & Hg1 & Hb1) (Hr2 & Hg2 & Hb2). unfold gradient_color, py_truediv.
  destruct (Z.eqb_spec n 0); [lia|]. cbn [Z.eqb ebind].
  destruct (Z.ltb_spec n 0); [lia|].
  rewrite !first_index_exact by assumption. reflexivity.
Qed.

Lemma clamp8_close v c : chan8 c -> Z.abs (v - c) <= 1 -> Z.abs (clamp8 v - c) <= 1.
Proof. unfold chan8, clamp8. lia. Qed.

Lemma gradient_color_last n c1 c2 c :
  last_index_check n = true -> color8 c1 -> color8 c2 ->
  gradient_color n c1 c2 (n - 1) = inr c ->
  color_close c2 (rgb_pixel (color_map clamp8 c)).
Proof.
  destruct c1 as [[r1 g1] b1], c2 as [[r2 g2] b2], c as [[r g] b].
  intros Hck (Hr1 & Hg1 & Hb1) (Hr2 & Hg2 & Hb2). unfold gradient_color.
  destruct (last_index_close n r1 r2 Hck Hr1 Hr2) as (ratio & vr & Ht & Hvr & Hcr).
  destruct (last_index_close n g1 g2 Hck Hg1 Hg2) as (ratio' & vg & Ht' & Hvg & Hcg).
  destruct (last_index_close n b1 b2 Hck Hb1 Hb2) as (ratio'' & vb & Ht'' & Hvb & Hcb).
  rewrite Ht in Ht', Ht''. injection Ht' as <-. injection Ht'' as <-.
  rewrite Ht. cbn [ebind]. rewrite Hvr, Hvg, Hvb. cbn [ebind eret].
  intros H. injection H as <- <- <-.
  cbn [color_close rgb_pixel color_map].
  repeat split; apply clamp8_close; assumption.
Qed.

(** C3 (as amended): for every 8-bit colorA and colorB and every size,
    [create_gradient] returns an RGB canvas of that size whose first row
    (vertical) or first column (horizontal) equals colorA exactly; on the
    program's canvas, 1200 rows or 640 columns, the last row or column is
    within 1 of colorB on each channel. *)
Theorem create_gradient_boundary
    (rasterize : pil_op -> image -> Z -> Z -> quad)
    (width height : Z) (color1 color2 : color) (direction : string) (w : world) :
  draws_axis_lines rasterize ->
  0 < width < 2 ^ 53 -> 0 < height < 2 ^ 53 -> color8 color1 -> color8 color2 ->
  let vertical := String.eqb direction "vertical" in
  exists img w',
    create_gradient rasterize width height color1 color2 direction w = Ok img w' /\
    im_mode img = ModeRGB /\ im_width img = width /\ im_height img = height /\
    (forall x y, in_image img x y -> (if vertical then y else x) = 0 ->
       getpixel img x y = rgb_pixel color1) /\
    ((if vertical then height = 1200 else width = 640) ->
     forall x y, in_image img x y ->
       (if vertical then y = height - 1 else x = width - 1) ->
       color_close color2 (getpixel img x y)).
Proof.
  intros Hline Hw Hh H1 H2 vertical.
  destruct (create_gradient_spec rasterize Hline width height color1 color2 direction w
              Hw Hh H1 H2) as (img & w' & Hrun & Hm & Hsw & Hsh & Hpix).
  fold vertical in Hpix.
  exists img, w'. split; [exact Hrun|]. repeat (split; [assumption|]). split.
  - intros x y Hin Hidx. destruct (Hpix x y Hin) as (r & g & b & Hc & Hp).
    rewrite Hidx, gradient_color_first in Hc
      by (try assumption; destruct vertical; lia).
    injection Hc as Hc. rewrite Hp. subst color1. destruct H1 as (Hr & Hg & Hb).
    cbn [rgb_pixel]. rewrite !clamp8_id by assumption. reflexivity.
  - intros Hsize x y Hin Hidx. destruct (Hpix x y Hin) as (r & g & b & Hc & Hp).
    rewrite Hp. change (PRGB (clamp8 r) (clamp8 g) (clamp8 b))
      with (rgb_pixel (color_map clamp8 (r, g, b))).
    destruct vertical; subst.
    + apply (gradient_color_last 1200 color1 color2 (r, g, b) last_index_check_1200 H1 H2).
      rewrite Hsize in Hc. exact Hc.
    + apply (gradient_color_last 640 color1 color2 (r, g, b) last_index_check_640 H1 H2).
      rewrite Hsize in Hc. exact Hc.
Qed.

Lemma create_gradient_boundary_witness :
  exists img w',
    create_gradient raster_ref 2 3 (15, 18, 25) (35, 40, 50) "vertical" demo_world
      = Ok img w' /\
    getpixel img 1 0 = PRGB 15 18 25.
Proof.
  destruct (create_gradient_boundary raster_ref 2 3 (15, 18, 25) (35, 40, 50) "vertical"
              demo_world raster_ref_axis_lines)
    as (img & w' & Hrun & _ & Hsw & Hsh & Hfirst & _);
    try (split; reflexivity); try (cbn; unfold chan8; lia).
  exists img, w'. split; [exact Hrun|].
  apply (Hfirst 1 0); [unfold in_image; lia|reflexivity].
Defined.

(** C3 as stated fails: a two-row gradient from black to white ends at
    127, not within 1 of 255. *)
Lemma create_gradient_last_row_counterexample :
  match create_gradient raster_ref 1 2 (0, 0, 0) (255, 255, 255) "vertical" demo_world with
  | Ok img _ => getpixel img 0 0 = PRGB 0 0 0 /\ getpixel img 0 1 = PRGB 127 127 127
  | Raise _ _ => False
  end.
Proof. vm_compute. split; reflexivity. Qed.

(** ** The brush stroke *)

Lemma fmag_8 : fmag 4 8%float.
Proof. fmag_lit. Qed.
Lemma fmag_10 : fmag 4 10%float.
Proof. fmag_lit. Qed.
Lemma fmag_30 : fmag 5 30%float.
Proof. fmag_lit. Qed.
Lemma fmag_220 : fmag 8 220%float.
Proof. fmag_lit. Qed.
Lemma fmag_03 : fmag (-1) 0x1.3333333333333p-2%float.
Proof. fmag_lit. Qed.
Lemma fmag_07 : fmag 0 0x1.6666666666666p-1%float.
Proof. fmag_lit. Qed.

Lemma fmag_small_int j k :
  0 <= k <= 53 -> Z.abs j < 2 ^ k -> fmag k (float_of_small j).
Proof.
  intros Hk Hj.
  assert (2 ^ k <= 2 ^ 53) by (apply Z.pow_le_mono_r; lia).
  eapply fmag_weaken; [apply fmag_float_of_small; lia|].
  rewrite <- (Zdigits2_opp j). destruct (Z.abs_spec j) as [[_ E]|[_ E]].
  - rewrite Zdigits2_opp. apply Zdigits2_lt; lia.
  - apply Zdigits2_lt; lia.
Qed.

(** Magnitude goals: descend through the arithmetic, close the leaves with
    known bounds. *)
Ltac fmag_auto :=
  lazymatch goal with
  | |- fmag _ (_ + _)%float => eapply fmag_add; [fmag_auto|fmag_auto|lia]
  | |- fmag _ (_ - _)%float => eapply fmag_sub; [fmag_auto|fmag_auto|lia]
  | |- fmag _ (_ * _)%float => eapply fmag_mul; [fmag_auto|fmag_auto|lia]
  | |- _ => first [ eassumption | exact fmag_one | exact fmag_8 | exact fmag_10
                  | exact fmag_30 | exact fmag_220 | exact fmag_03 | exact fmag_07 ]
  end.

(** Step a run through a conversion [int(f)] whose argument is bounded. *)
Ltac step_int k :=
  lazymatch goal with
  | |- returns (lift (py_int ?f)) _ _ =>
      let v := fresh "v" in
      let Hv := fresh "Hv" in
      destruct (py_int_defined k f) as (v & Hv);
      [eapply fmag_weaken; [fmag_auto|lia]|eapply returns_lift; [exact Hv|]]
  end.

Section BrushStroke.

Variable rasterize : pil_op -> image -> Z -> Z -> quad.
Variable math_sin : float -> float.
Hypothesis sin_range : sin_bounded math_sin.

Lemma stroke_wave_spec height y :
  0 < y < height -> height < 2 ^ 53 ->
  exists progress,
    py_truediv y height = inr progress /\
    stroke_wave math_sin height y
    = inr (math_sin (progress * math_pi) * 0x1.3333333333333p-2
           + 0x1.6666666666666p-1)%float /\
    fmag 3 (math_sin (progress * math_pi) * 0x1.3333333333333p-2
            + 0x1.6666666666666p-1)%float.
Proof.
  intros Hy Hh. destruct (gradient_ratio_mag y height ltac:(lia) Hh) as (p & Hp & _).
  exists p. split; [exact Hp|]. unfold stroke_wave. rewrite Hp. cbn [ebind eret].
  split; [reflexivity|].
  assert (Hs : fmag 1 (math_sin (p * math_pi)))
    by (apply fmag_unit; apply sin_range).
  eapply fmag_weaken; [fmag_auto|lia].
Qed.

(** One row of the stroke: it returns, draws exactly the span described by
    [stroke_row_event], and writes no file. *)
Lemma stroke_row_spec width height brush_color y img w :
  0 < y < height -> height < 2 ^ 53 -> Z.abs (width - 10) < 2 ^ 53 ->
  returns (stroke_row rasterize math_sin width height brush_color y img) w
    (fun img' w' =>
       exists ev, stroke_row_event math_sin height y (Some ev) /\
                  w_trace w' = w_trace w ++ [ev] /\
                  w_files w' = w_files w /\ same_shape img img').
Proof.
  intros Hy Hh Hw.
  destruct (stroke_wave_spec height y Hy Hh) as (p & Hp & Hwave & Hmag).
  set (wave := (math_sin (p * math_pi) * 0x1.3333333333333p-2
                + 0x1.6666666666666p-1)%float) in *.
  assert (H53 : 2 ^ 5 <= 2 ^ 53) by (apply Z.pow_le_mono_r; lia).
  unfold stroke_row.
  apply returns_bind. eapply returns_lift; [exact Hwave|].
  apply returns_bind, returns_randint; [lia|intros j1 Hj1].
  assert (Hf1 : fmag 5 (float_of_small j1)) by (apply fmag_small_int; [lia|change (2 ^ 5) with 32; lia]).
  apply returns_bind. eapply returns_lift; [apply py_float_small; lia|].
  apply returns_bind. step_int 20.
  apply returns_bind. eapply returns_lift; [apply py_float_small; lia|].
  apply returns_bind, returns_randint; [lia|intros j2 Hj2].
  assert (Hf2 : fmag 5 (float_of_small j2)) by (apply fmag_small_int; [lia|change (2 ^ 5) with 32; lia]).
  assert (Hfw : fmag 53 (float_of_small (width - 10))) by (apply fmag_small_int; lia).
  apply returns_bind. eapply returns_lift; [apply py_float_small; lia|].
  apply returns_bind. step_int 60.
  apply returns_bind, returns_randint; [lia|intros variation Hvar].
  apply returns_bind. step_int 20.
  apply returns_bind, returns_randint; [lia|intros j3 Hj3].
  apply returns_pil.
  eexists. split; [|repeat split].
  exists p, wave, v1, j3. do 3 eexists.
  split; [exact Hp|]. split; [reflexivity|]. split; [exact Hv1|]. split; [exact Hj3|].
  reflexivity.
Qed.

End BrushStroke.

Lemma save_run img path w :
  0 < im_width img -> 0 < im_height img ->
  save img path w
  = Ok tt (mkWorld (w_oracle w) (w_pos w) (w_files w ++ [(path, img)])
             (w_trace w ++ [EvSave path])).
Proof.
  intros Hw Hh. unfold save.
  replace ((im_width img <=? 0) || (im_height img <=? 0)) with false; [reflexivity|].
  symmetry. apply orb_false_iff. split; apply Z.leb_gt; assumption.
Qed.

Lemma returns_save img path w (Q : unit -> world -> Prop) :
  0 < im_width img -> 0 < im_height img ->
  Q tt (mkWorld (w_oracle w) (w_pos w) (w_files w ++ [(path, img)])
          (w_trace w ++ [EvSave path])) ->
  returns (save img path) w Q.
Proof. intros Hw Hh H. eexists _, _. split; [apply save_run; assumption|exact H]. Qed.

Lemma returns_print s w (Q : unit -> world -> Prop) :
  Q tt (logged [EvPrint s] w) -> returns (print s) w Q.
Proof. apply returns_emit. Qed.

Section BrushStrokeRun.

Variable rasterize : pil_op -> image -> Z -> Z -> quad.
Variable math_sin : float -> float.
Variable output_dir : string.
Hypothesis sin_range : sin_bounded math_sin.

Lemma stroke_dot_spec width height brush_color i img w :
  15 <= width - 15 -> 8 <= height - 8 ->
  returns (stroke_dot rasterize width height brush_color i img) w
    (fun img' w' => (exists ev, w_trace w' = w_trace w ++ [ev]) /\
                    w_files w' = w_files w /\ same_shape img img').
Proof.
  intros Hw Hh. unfold stroke_dot.
  apply returns_bind, returns_randint; [lia|intros x Hx].
  apply returns_bind, returns_randint; [lia|intros y Hy].
  apply returns_bind, returns_randint; [lia|intros size Hsize].
  apply returns_bind, returns_randint; [lia|intros darkness Hd].
  apply returns_pil. split; [eexists; reflexivity|]. split; [reflexivity|]. repeat split.
Qed.

(** The whole brush stroke: 30 row spans, then the dots, then the file. *)
Lemma create_brush_stroke_speaker_spec w :
  returns (create_brush_stroke_speaker rasterize math_sin output_dir) w
    (fun path w' =>
       path = os_path_join (textures_dir output_dir) "speaker_brush.png" /\
       (exists img, w_files w' = w_files w ++ [(path, img)]) /\
       exists evs rest,
         w_trace w' = w_trace w ++ evs ++ rest /\ List.length evs = 30%nat /\
         forall k, (k < 30)%nat ->
           stroke_row_event math_sin 40 (5 + Z.of_nat k) (nth_error evs k)).
Proof.
  unfold create_brush_stroke_speaker.
  apply returns_bind. eapply returns_lift; [reflexivity|].
  apply returns_bind.
  eapply returns_weaken.
  - apply (returns_for_count
      (fun k img' w' =>
         (im_width img' = 200 /\ im_height img' = 40) /\
         w_files w' = w_files w /\
         exists evs, w_trace w' = w_trace w ++ evs /\ List.length evs = k /\
           forall i, (i < k)%nat ->
             stroke_row_event math_sin 40 (5 + Z.of_nat i) (nth_error evs i))
      5 _ 30).
    + cbv beta. intros k s w1 Hk (Hs & Hf & evs & Ht & Hlen & Hrows).
      eapply returns_weaken.
      * apply (stroke_row_spec rasterize math_sin sin_range 200 40);
          [lia|reflexivity|reflexivity].
      * cbv beta. intros img' w' (ev & Hev & Ht' & Hf' & _ & Hw' & Hh').
        split; [split; [rewrite Hw'|rewrite Hh']; apply Hs|].
        split; [congruence|]. exists (evs ++ [ev]).
        split; [rewrite Ht', Ht, app_assoc; reflexivity|].
        split; [rewrite length_app, Hlen; cbn; lia|].
        intros i Hi. destruct (Nat.eq_dec i k) as [->|Hne].
        -- rewrite nth_error_app2 by lia. rewrite Hlen, Nat.sub_diag. exact Hev.
        -- rewrite nth_error_app1 by lia. apply Hrows. lia.
    + split; [split; reflexivity|].
      split; [reflexivity|]. exists []. split; [rewrite app_nil_r; reflexivity|].
      split; [reflexivity|]. intros i Hi. lia.
  - cbv beta. intros img1 w1 (Hs1 & Hf1 & evs & Ht1 & Hlen & Hrows).
    apply returns_bind.
    eapply returns_weaken.
    + apply (returns_for_each
        (fun (img' : image) w' =>
           (im_width img' = 200 /\ im_height img' = 40) /\
           w_files w' = w_files w /\ exists rest, w_trace w' = w_trace w ++ evs ++ rest)).
      * intros i s w2 _ (Hs2 & Hf2 & rest & Ht2).
        eapply returns_weaken; [apply stroke_dot_spec; lia|].
        cbv beta. intros img' w' ((ev & Ht') & Hf' & _ & Hw' & Hh').
        split; [split; [rewrite Hw'|rewrite Hh']; apply Hs2|].
        split; [congruence|]. exists (rest ++ [ev]).
        rewrite Ht', Ht2, <- !app_assoc. reflexivity.
      * split; [exact Hs1|]. split; [exact Hf1|]. exists []. rewrite app_nil_r. exact Ht1.
    + cbv beta. intros img2 w2 ((Hw2 & Hh2) & Hf2 & rest & Ht2).
      apply returns_bind, returns_save; [rewrite Hw2; reflexivity|rewrite Hh2; reflexivity|].
      apply returns_bind, returns_print. apply returns_ret.
      split; [reflexivity|]. split.
      * eexists. cbn [logged w_files]. rewrite Hf2. reflexivity.
      * exists evs. eexists. split; [|split; [exact Hlen|exact Hrows]].
        cbn [logged w_trace]. rewrite Ht2, <- !app_assoc. reflexivity.
Qed.

End BrushStrokeRun.


(** ** The building silhouette *)

Lemma returns_randint_exact a b w (Q : Z -> world -> Prop) :
  a <= b -> Q (a + w_oracle w (w_pos w) mod (b - a + 1)) (adv 1 w) ->
  returns (randint a b) w Q.
Proof. intros Hab H. eexists _, _. split; [apply randint_run, Hab|exact H]. Qed.

Lemma py_truediv_defined a b :
  b <> 0 -> Z.abs a <= 2 ^ 53 -> Z.abs b <= 2 ^ 53 ->
  exists f, py_truediv a b = inr f /\
            (a <> 0 -> f = PrimFloat.div (float_of_small a) (float_of_small b)).
Proof.
  intros Hb Ha Hb'. change (2 ^ 53) with 9007199254740992 in *. unfold py_truediv.
  destruct (Z.eqb_spec b 0); [contradiction|].
  destruct (Z.eqb_spec a 0); [eexists; split; [reflexivity|contradiction]|].
  replace ((Z.abs a <=? 9007199254740992) && (Z.abs b <=? 9007199254740992)) with true
    by (symmetry; apply andb_true_iff; split; apply Z.leb_le; lia).
  eexists. split; reflexivity.
Qed.

(** The roofline loop appends one point per index, with the x-coordinate
    [x + i * segment_width] computed in floating point. *)
Lemma roof_points_spec x top_y sw (l : list Z) :
  Z.abs x < 2 ^ 63 -> (forall i, In i l -> Z.abs i < 2 ^ 63) ->
  forall acc w,
  returns (for_each l (roof_point x top_y sw) acc) w
    (fun pts w' =>
       exists roof, pts = acc ++ roof /\
         map fst roof = map (fun i => NFlt (float_of_small x + float_of_small i * sw)%float) l /\
         w_trace w' = w_trace w /\ w_files w' = w_files w).
Proof.
  intros Hx. induction l as [|i l IH]; intros Hl acc w; cbn [for_each].
  - apply returns_ret. exists []. rewrite app_nil_r. repeat split.
  - apply returns_bind. unfold roof_point at 1.
    apply returns_bind. eapply returns_lift; [apply py_float_small, Hl; left; reflexivity|].
    apply returns_bind. eapply returns_lift; [apply py_float_small, Hx|].
    apply returns_bind, returns_randint; [lia|intros dy Hdy].
    apply returns_ret.
    eapply returns_weaken; [apply IH; intros j Hj; apply Hl; right; exact Hj|].
    cbv beta. intros pts w' (roof & -> & Hmap & Ht & Hf).
    eexists (_ :: roof). split; [rewrite <- app_assoc; reflexivity|].
    split; [cbn [map fst]; rewrite Hmap; reflexivity|]. split; assumption.
Qed.

Lemma window_cell_spec rasterize x width top_y bh rows cols c row col img w :
  returns (window_cell rasterize x width top_y bh rows cols c row col img) w
    (fun _ w' => (exists evs, w_trace w' = w_trace w ++ evs) /\ w_files w' = w_files w).
Proof.
  unfold window_cell. apply returns_bind, returns_random. intros u.
  destruct (PrimFloat.ltb u _).
  - apply returns_bind, returns_random. intros v. apply returns_pil.
    split; [eexists; reflexivity|reflexivity].
  - apply returns_ret. split; [exists []; rewrite app_nil_r; reflexivity|reflexivity].
Qed.

(** A loop whose iterations only append events and write no file. *)
Lemma returns_for_each_events {A S} (l : list A) (body : A -> S -> M S) :
  (forall a s w, returns (body a s) w
     (fun _ w' => (exists evs, w_trace w' = w_trace w ++ evs) /\ w_files w' = w_files w)) ->
  forall s w, returns (for_each l body s) w
     (fun _ w' => (exists evs, w_trace w' = w_trace w ++ evs) /\ w_files w' = w_files w).
Proof.
  intros Hbody s w.
  apply (returns_for_each
    (fun (_ : S) w' => (exists evs, w_trace w' = w_trace w ++ evs) /\ w_files w' = w_files w)).
  - intros a s' w1 _ ((evs & Ht) & Hf).
    eapply returns_weaken; [apply Hbody|].
    cbv beta. intros _ w2 ((evs' & Ht') & Hf'). split; [|congruence].
    exists (evs ++ evs'). rewrite Ht', Ht, app_assoc. reflexivity.
  - split; [exists []; rewrite app_nil_r; reflexivity|reflexivity].
Qed.

Lemma draw_building_silhouette_spec rasterize img x width height base_y c w :
  0 <= height -> Z.abs x < 2 ^ 63 -> Z.abs width <= 2 ^ 53 ->
  let k := 3 + w_oracle w (S (w_pos w)) mod (8 - 3 + 1) in
  exists sw,
    py_truediv width k = inr sw /\
    (width <> 0 -> sw = PrimFloat.div (float_of_small width) (float_of_small k)) /\
    returns (draw_building_silhouette rasterize img x width height base_y c) w
      (fun _ w' =>
         exists pts rest,
           w_trace w' = w_trace w ++ EvPil (Polygon pts (ink3 c)) :: rest /\
           map fst pts = roofline_xs x sw k ++ [NInt (x + width)] /\
           w_files w' = w_files w).
Proof.
  intros Hh Hx Hw k.
  assert (Hk : 3 <= k <= 8).
  { subst k. pose proof (Z.mod_pos_bound (w_oracle w (S (w_pos w))) (8 - 3 + 1) ltac:(lia)).
    lia. }
  destruct (py_truediv_defined width k ltac:(lia) Hw)
    as (sw & Hsw & Hsw'); [change (2 ^ 53) with 9007199254740992; lia|].
  exists sw. split; [exact Hsw|]. split; [exact Hsw'|].
  unfold draw_building_silhouette.
  apply returns_bind, returns_randint;
    [Z.to_euclidean_division_equations; lia|intros bh Hbh].
  apply returns_bind, returns_randint_exact; [lia|].
  cbn [adv w_oracle w_pos]. change (1 + w_pos w)%nat with (S (w_pos w)). fold k.
  apply returns_bind. eapply returns_lift; [exact Hsw|].
  apply returns_bind.
  eapply returns_weaken.
  { apply roof_points_spec; [exact Hx|].
    intros i Hi. apply in_range in Hi. change (2 ^ 63) with 9223372036854775808. lia. }
  cbv beta. intros pts w1 (roof & -> & Hmap & Ht & Hf).
  apply returns_bind, returns_pil.
  apply returns_bind, returns_randint; [lia|intros rows Hrows].
  apply returns_bind, returns_randint; [lia|intros cols Hcols].
  eapply returns_weaken.
  { apply returns_for_each_events. intros row s w2.
    apply returns_for_each_events. intros col s' w3.
    apply window_cell_spec. }
  cbv beta. intros _ w2 ((evs & Ht2) & Hf2).
  eexists _, evs. split; [|split].
  - rewrite Ht2. cbn [adv logged w_trace]. rewrite Ht. cbn [adv w_trace].
    rewrite <- app_assoc. reflexivity.
  - rewrite !map_app, Hmap. reflexivity.
  - rewrite Hf2. cbn [adv logged w_files]. rewrite Hf. reflexivity.
Qed.

Lemma nondecreasing_floats l : nondecreasing (map NFlt l) = float_sorted l.
Proof.
  induction l as [|a [|b l] IH]; try reflexivity.
  cbn [map nondecreasing float_sorted num_le] in *. rewrite IH. reflexivity.
Qed.

Lemma nondecreasing_floats_cons {A} (f : A -> float) a l :
  nondecreasing (NFlt a :: map (fun i => NFlt (f i)) l) = float_sorted (a :: map f l).
Proof.
  rewrite <- nondecreasing_floats. cbn [map]. rewrite map_map. reflexivity.
Qed.

Lemma nondecreasing_roof x a rest :
  nondecreasing (NInt x :: NInt x :: NFlt a :: rest)
  = int_le_float x a && nondecreasing (NFlt a :: rest).
Proof. destruct rest; cbn [nondecreasing num_le]; rewrite Z.leb_refl; reflexivity. Qed.

Lemma int_test_all : forallb int_test xs_table = true.
Proof. vm_compute. reflexivity. Qed.

Lemma width_test_all : forallb width_test (range2 40 201) = true.
Proof. vm_compute. reflexivity. Qed.

Lemma in_xs_table x : -50 <= x <= 640 -> In (x, float_of_small x) xs_table.
Proof.
  intros Hx. unfold xs_table.
  apply (in_map (fun x => (x, float_of_small x))), in_range2. lia.
Qed.

Lemma range_succ k : 0 <= k -> range (k + 1) = 0 :: map Z.of_nat (seq 1 (Z.to_nat k)).
Proof.
  intros Hk. unfold range. replace (Z.to_nat (k + 1)) with (S (Z.to_nat k)) by lia.
  reflexivity.
Qed.

(** For the arguments the scene composer passes, the x-coordinates are
    non-decreasing up to the last roofline point. *)
Lemma roofline_nondecreasing x width k :
  -50 <= x <= 640 -> 40 <= width <= 200 -> 3 <= k <= 8 ->
  nondecreasing (roofline_xs x (PrimFloat.div (float_of_small width) (float_of_small k)) k)
  = true.
Proof.
  intros Hx Hw Hk.
  pose proof (proj1 (forallb_forall _ _) int_test_all _ (in_xs_table x Hx)) as Hint.
  pose proof (proj1 (forallb_forall _ _) width_test_all width
                ltac:(apply in_range2; lia)) as Hwd.
  unfold width_test in Hwd.
  pose proof (proj1 (forallb_forall _ _) Hwd k ltac:(apply in_range2; lia)) as Hseg.
  clear Hwd. unfold segments_test, offsets_test in Hseg.
  set (sw := PrimFloat.div (float_of_small width) (float_of_small k)) in *.
  apply andb_prop in Hseg. destruct Hseg as [Hzero Hall].
  pose proof (proj1 (forallb_forall _ _) Hall _ (in_xs_table x Hx)) as Hsorted.
  clear Hall. unfold shifted_sorted in Hsorted. cbn [snd] in Hsorted.
  unfold int_test in Hint. cbn [fst snd] in Hint.
  unfold roof_offsets in Hzero, Hsorted. rewrite range_succ in Hzero, Hsorted by lia.
  cbn [map] in Hzero, Hsorted.
  apply FloatAxioms.Leibniz.eqb_spec in Hzero.
  rewrite Hzero, map_map in Hsorted.
  unfold roofline_xs. rewrite range_succ by lia.
  cbn [map]. rewrite nondecreasing_roof, Hzero, Hint. cbn [andb].
  rewrite (nondecreasing_floats_cons
             (fun i : Z => (float_of_small x + float_of_small i * sw)%float)).
  exact Hsorted.
Qed.

(** C2 (as amended): [draw_building_silhouette], called with a
    non-negative canvas height, returns; with k the segment count it draws
    (an integer of [[3, 8]]), the polygon it fills has exactly k + 4
    points: the left base corner, the left top corner, the k + 1 roofline
    points at [x + i * (width / k)], and the right base corner
    [x + width].  For the arguments the scene composer passes (x in
    [[-50, 640]], width in [[40, 200]]) the x-coordinates are
    non-decreasing from the first point to the last roofline point. *)
Theorem silhouette_polygon
    (rasterize : pil_op -> image -> Z -> Z -> quad) (img : image)
    (x width height base_y : Z) (c : color) (w : world) :
  0 <= height -> Z.abs x < 2 ^ 63 -> Z.abs width <= 2 ^ 53 ->
  let k := 3 + w_oracle w (S (w_pos w)) mod (8 - 3 + 1) in
  exists img' w' sw pts rest,
    draw_building_silhouette rasterize img x width height base_y c w = Ok img' w' /\
    3 <= k <= 8 /\
    py_truediv width k = inr sw /\
    w_trace w' = w_trace w ++ EvPil (Polygon pts (ink3 c)) :: rest /\
    List.length pts = Z.to_nat (k + 4) /\
    map fst pts = roofline_xs x sw k ++ [NInt (x + width)] /\
    (-50 <= x <= 640 -> 40 <= width <= 200 -> nondecreasing (roofline_xs x sw k) = true).
Proof.
  intros Hh Hx Hw k.
  destruct (draw_building_silhouette_spec rasterize img x width height base_y c w Hh Hx Hw)
    as (sw & Hsw & Hsw' & img' & w' & Hrun & pts & rest & Ht & Hmap & _).
  fold k in Hsw, Hsw', Hmap.
  assert (Hk : 3 <= k <= 8).
  { subst k. pose proof (Z.mod_pos_bound (w_oracle w (S (w_pos w))) (8 - 3 + 1) ltac:(lia)).
    lia. }
  exists img', w', sw, pts, rest. split; [exact Hrun|]. split; [exact Hk|].
  split; [exact Hsw|]. split; [exact Ht|]. split; [|split; [exact Hmap|]].
  - rewrite <- (length_map fst), Hmap. unfold roofline_xs, range.
    rewrite length_app. cbn [List.length]. rewrite !length_map, length_seq. lia.
  - intros Hxr Hwr. rewrite Hsw' by lia. apply roofline_nondecreasing; assumption.
Qed.

Lemma silhouette_polygon_witness :
  exists img' w' sw pts rest,
    draw_building_silhouette raster_ref demo_image 100 60 1200 840 (35, 40, 50) demo_world
      = Ok img' w' /\
    py_truediv 60 7 = inr sw /\
    w_trace w' = EvPil (Polygon pts (Ink3 35 40 50)) :: rest /\
    List.length pts = 11%nat /\
    nondecreasing (roofline_xs 100 sw 7) = true.
Proof.
  destruct (silhouette_polygon raster_ref demo_image 100 60 1200 840 (35, 40, 50) demo_world)
    as (img' & w' & sw & pts & rest & Hrun & _ & Hsw & Ht & Hlen & _ & Hmono);
    try (cbn; lia).
  exists img', w', sw, pts, rest.
  split; [exact Hrun|]. split; [exact Hsw|]. split; [exact Ht|]. split; [exact Hlen|].
  apply Hmono; lia.
Defined.

(** C2 as stated fails: with segment count 7 the polygon has 11 points,
    not 10; and at x = -50, width = 58 the last roofline point lies at
    8.000000000000007, beyond the closing corner at 8, so the x-coordinates
    of the whole polygon are not non-decreasing. *)
Lemma silhouette_polygon_counterexample :
  match draw_building_silhouette raster_ref demo_image (-50) 58 1200 790 (75, 80, 90)
          (const_world 4) with
  | Ok _ w' =>
      match w_trace w' with
      | EvPil (Polygon pts _) :: _ =>
          3 + w_oracle (const_world 4) 1 mod (8 - 3 + 1) = 7 /\
          List.length pts = 11%nat /\
          nondecreasing (map fst pts) = false
      | _ => False
      end
  | Raise _ _ => False
  end.
Proof. vm_compute. repeat split. Qed.

Lemma sin_ref_bounded : sin_bounded sin_ref.
Proof.
  intros x. unfold sin_ref.
  set (p := (x * _)%float).
  destruct (PrimFloat.leb p 1) eqn:E1; [destruct (PrimFloat.leb (-1) p) eqn:E2|];
    split; try assumption; reflexivity.
Qed.


(** The span of the middle row (y = 20) on the reference instances: the
    wave is just below 1, so [int(220 * wave) = 219]; the jitter is
    [-20 + (7 * 63 + 3) mod 41 = 14], the alpha 233. *)
Example brush_stroke_middle_row :
  match create_brush_stroke_speaker raster_ref sin_ref "out" demo_world with
  | Ok _ w' => nth_error (w_trace w') 15 = Some (EvPil (Line 3 20 195 20 (Ink4 97 67 52 233)))
  | Raise _ _ => False
  end.
Proof. vm_compute. reflexivity. Qed.

(** ** Computations that write no file *)

Lemma same_shape_refl img : same_shape img img.
Proof. repeat split. Qed.

Lemma same_shape_trans a b c : same_shape a b -> same_shape b c -> same_shape a c.
Proof. unfold same_shape. intros (? & ? & ?) (? & ? & ?). repeat split; congruence. Qed.

Lemma kf_ret {A} (a : A) (P : A -> Prop) : P a -> keeps_files (ret a) P.
Proof. intros H w. apply returns_ret. split; [exact H|reflexivity]. Qed.

Lemma kf_bind {A B} (m : M A) (k : A -> M B) (P : A -> Prop) (Q : B -> Prop) :
  keeps_files m P -> (forall a, P a -> keeps_files (k a) Q) -> keeps_files (bind m k) Q.
Proof.
  intros Hm Hk w. apply returns_bind.
  eapply returns_weaken; [apply Hm|]. cbv beta. intros a w1 [Ha Hf].
  eapply returns_weaken; [apply Hk, Ha|]. cbv beta. intros b w2 [Hb Hf'].
  split; [exact Hb|congruence].
Qed.

Lemma kf_weaken {A} (m : M A) (P Q : A -> Prop) :
  keeps_files m P -> (forall a, P a -> Q a) -> keeps_files m Q.
Proof.
  intros Hm H w. eapply returns_weaken; [apply Hm|]. cbv beta. intros a w' [Ha Hf]. auto.
Qed.

Lemma kf_eq {A} (m m' : M A) (P : A -> Prop) :
  (forall w, m w = m' w) -> keeps_files m' P -> keeps_files m P.
Proof. intros He Hm w. eapply returns_eq; [apply He|apply Hm]. Qed.

Lemma kf_lift {A} (e : E A) (a : A) (P : A -> Prop) :
  e = inr a -> P a -> keeps_files (lift e) P.
Proof. intros -> H. apply kf_ret, H. Qed.

Lemma kf_randint a b : a <= b -> keeps_files (randint a b) (fun r => a <= r <= b).
Proof. intros Hab w. apply returns_randint; [exact Hab|]. intros r Hr. split; [exact Hr|reflexivity]. Qed.

Lemma kf_random : keeps_files random_random (fun _ => True).
Proof. intros w. apply returns_random. intros u. split; [exact I|reflexivity]. Qed.

Lemma kf_choice2 {A} (x1 x2 : A) : keeps_files (random_choice [x1; x2]) (fun _ => True).
Proof. intros w. apply returns_choice2; split; auto. Qed.

Lemma kf_pil rasterize op img : keeps_files (pil rasterize op img) (same_shape img).
Proof. intros w. apply returns_pil. split; [repeat split|reflexivity]. Qed.

Lemma kf_print s : keeps_files (print s) (fun _ => True).
Proof. intros w. apply returns_print. split; [exact I|reflexivity]. Qed.

Lemma kf_for_each {A S} (Inv : S -> Prop) (l : list A) (body : A -> S -> M S) :
  (forall a s, In a l -> Inv s -> keeps_files (body a s) Inv) ->
  forall s, Inv s -> keeps_files (for_each l body s) Inv.
Proof.
  intros Hbody s Hs w.
  apply (returns_for_each (fun s' w' => Inv s' /\ w_files w' = w_files w)).
  - intros a s' w1 Hin [Hs' Hf].
    eapply returns_weaken; [apply Hbody; [exact Hin|exact Hs']|].
    cbv beta. intros s'' w2 [Hs'' Hf']. split; [exact Hs''|congruence].
  - split; [exact Hs|reflexivity].
Qed.

(** A drawing loop keeps the shape of the canvas. *)
Lemma kf_for_each_shape {A} (l : list A) (body : A -> image -> M image) img :
  (forall a s, In a l -> keeps_files (body a s) (same_shape s)) ->
  keeps_files (for_each l body img) (same_shape img).
Proof.
  intros Hbody. apply (kf_for_each (same_shape img)).
  - intros a s Hin Hs. eapply kf_weaken; [apply Hbody, Hin|].
    intros s' Hs'. eapply same_shape_trans; eassumption.
  - apply same_shape_refl.
Qed.

Lemma kf_add_noise img intensity :
  0 <= intensity -> im_mode img <> ModeL ->
  keeps_files (add_noise img intensity) (same_shape img).
Proof.
  intros HI Hm w.
  eapply returns_weaken; [apply (add_noise_spec intensity HI img w); intros; exact Hm|].
  cbv beta. intros img' w' (-> & H1 & H2 & H3 & _). split; [repeat split; assumption|reflexivity].
Qed.

(** ** The scene composer *)

Lemma rgb_canvas_shape width height img img' :
  rgb_canvas width height img -> same_shape img img' -> rgb_canvas width height img'.
Proof. unfold rgb_canvas, same_shape. intros (? & ? & ?) (? & ? & ?). repeat split; congruence. Qed.

Section SceneParts.

Variable rasterize : pil_op -> image -> Z -> Z -> quad.

Lemma kf_create_gradient width height color1 color2 direction :
  0 < width < 2 ^ 53 -> 0 < height < 2 ^ 53 -> color8 color1 -> color8 color2 ->
  keeps_files (create_gradient rasterize width height color1 color2 direction)
    (rgb_canvas width height).
Proof.
  intros Hw Hh H1 H2. unfold create_gradient, Image_new.
  replace ((width <? 0) || (height <? 0)) with false
    by (symmetry; apply orb_false_iff; split; apply Z.ltb_ge; lia).
  eapply kf_bind; [eapply (kf_lift _ _ (rgb_canvas width height)); [reflexivity|repeat split]|].
  intros img Himg. apply (kf_for_each (rgb_canvas width height)); [|exact Himg].
  intros i s Hi Hs. apply in_range in Hi.
  destruct (gradient_color_defined
              (if String.eqb direction "vertical" then height else width)
              color1 color2 i H1 H2 Hi
              ltac:(destruct (String.eqb direction "vertical"); lia)) as ([[r g] b] & Hc).
  eapply kf_eq; [intros w; apply (gradient_row_run rasterize _ _ _ _ _ _ r g b s w Hc)|].
  eapply kf_weaken; [apply kf_pil|]. intros s'. apply rgb_canvas_shape, Hs.
Qed.

Lemma kf_haze_layer width height layer img :
  0 <= width ->
  keeps_files (haze_layer rasterize width height layer img) (same_shape img).
Proof.
  intros Hw. unfold haze_layer, Image_new. destruct (COLORS "fog") as [[fr fg] fb].
  replace ((width <? 0) || (50 <? 0)) with false
    by (symmetry; apply orb_false_iff; split; apply Z.ltb_ge; lia).
  eapply kf_bind; [eapply (kf_lift _ _ (fun _ => True)); [reflexivity|exact I]|].
  intros haze _. eapply kf_bind; [apply kf_pil|].
  intros haze' _. apply kf_pil.
Qed.

Lemma kf_roof_point x top_y sw i points :
  Z.abs x < 2 ^ 63 -> Z.abs i < 2 ^ 63 ->
  keeps_files (roof_point x top_y sw i points) (fun _ => True).
Proof.
  intros Hx Hi. unfold roof_point.
  eapply kf_bind; [eapply (kf_lift _ _ (fun _ => True)); [apply py_float_small, Hi|exact I]|].
  intros fi _.
  eapply kf_bind; [eapply (kf_lift _ _ (fun _ => True)); [apply py_float_small, Hx|exact I]|].
  intros fx _. eapply kf_bind; [apply kf_randint; lia|].
  intros dy _. apply kf_ret. exact I.
Qed.

Lemma kf_window_cell x width top_y bh rows cols c row col img :
  keeps_files (window_cell rasterize x width top_y bh rows cols c row col img)
    (same_shape img).
Proof.
  unfold window_cell. eapply kf_bind; [apply kf_random|]. intros u _.
  destruct (PrimFloat.ltb u _).
  - eapply kf_bind; [apply kf_random|]. intros v _. apply kf_pil.
  - apply kf_ret, same_shape_refl.
Qed.

Lemma kf_draw_building_silhouette img x width height base_y c :
  0 <= height -> Z.abs x < 2 ^ 63 -> Z.abs width <= 2 ^ 53 ->
  keeps_files (draw_building_silhouette rasterize img x width height base_y c)
    (same_shape img).
Proof.
  intros Hh Hx Hw. unfold draw_building_silhouette.
  eapply kf_bind; [apply kf_randint; Z.to_euclidean_division_equations; lia|].
  intros bh _. eapply kf_bind; [apply kf_randint; lia|].
  intros k Hk. cbv beta in Hk.
  destruct (py_truediv_defined width k ltac:(lia) Hw) as (sw & Hsw & _);
    [change (2 ^ 53) with 9007199254740992; lia|].
  eapply kf_bind; [eapply (kf_lift _ _ (fun _ => True)); [exact Hsw|exact I]|].
  intros sw' _.
  eapply kf_bind.
  { apply (kf_for_each (fun _ => True)); [|exact I].
    intros i pts Hi _. apply in_range in Hi. apply kf_roof_point; [exact Hx|].
    change (2 ^ 63) with 9223372036854775808. lia. }
  intros pts _. eapply kf_bind; [apply kf_pil|].
  intros img1 Himg1. eapply kf_bind; [apply kf_randint; lia|].
  intros rows _. eapply kf_bind; [apply kf_randint; lia|].
  intros cols _.
  eapply kf_weaken.
  { apply kf_for_each_shape. intros row s _.
    apply kf_for_each_shape. intros col s' _. apply kf_window_cell. }
  intros img2 Himg2. eapply same_shape_trans; eassumption.
Qed.

Lemma kf_snow_particle width height i img :
  0 <= width -> 0 <= height ->
  keeps_files (snow_particle rasterize width height i img) (same_shape img).
Proof.
  intros Hw Hh. unfold snow_particle.
  eapply kf_bind; [apply kf_randint; lia|]. intros sx _.
  eapply kf_bind; [apply kf_randint; lia|]. intros sy _.
  eapply kf_bind; [apply kf_randint; lia|]. intros size _.
  eapply kf_bind; [apply kf_randint; lia|]. intros alpha _.
  apply kf_pil.
Qed.

(** A row of buildings: each at a random position and width. *)
Lemma kf_building_row (n xlo xhi wlo whi height base_y : Z) c img :
  xlo <= xhi -> wlo <= whi -> 0 <= height ->
  -(2 ^ 53) < xlo -> xhi < 2 ^ 53 -> -(2 ^ 53) <= wlo -> whi <= 2 ^ 53 ->
  keeps_files
    (for_each (range n)
       (fun _ img =>
          bx <- randint xlo xhi ;;
          bw <- randint wlo whi ;;
          draw_building_silhouette rasterize img bx bw height base_y c) img)
    (same_shape img).
Proof.
  intros Hx Hw Hh Hxl Hxh Hwl Hwh. apply kf_for_each_shape. intros i s _.
  eapply kf_bind; [apply kf_randint, Hx|]. intros bx Hbx.
  eapply kf_bind; [apply kf_randint, Hw|]. intros bw Hbw. cbv beta in Hbx, Hbw.
  assert (2 ^ 53 < 2 ^ 63) by reflexivity.
  apply kf_draw_building_silhouette; lia.
Qed.

End SceneParts.

(** Step a run through a computation that writes no file. *)
Tactic Notation "kf_step" uconstr(H) ident(img) ident(Himg) ident(Hf) :=
  apply returns_bind; eapply returns_weaken;
  [eapply H|cbv beta; intros img ? [Himg Hf]].

(** One scene: the run returns and appends exactly the scene's file. *)
Lemma create_scene_background_spec rasterize output_dir scene_name scene_config w :
  color8 (dict_get scene_config "sky_top" (COLORS "charcoal")) ->
  color8 (dict_get scene_config "sky_bottom" (COLORS "slate")) ->
  returns (create_scene_background rasterize output_dir scene_name scene_config) w
    (fun path w' =>
       path = os_path_join (backgrounds_dir output_dir) (scene_name ++ ".png") /\
       exists img, w_files w' = w_files w ++ [(path, img)]).
Proof.
  intros Htop Hbottom. unfold create_scene_background. cbv zeta.
  kf_step kf_create_gradient img1 H1 F1;
    [split; [lia|reflexivity]|split; [lia|reflexivity]|exact Htop|exact Hbottom|].
  kf_step kf_for_each_shape img2 H2 F2;
    [intros layer s _; apply kf_haze_layer; lia|].
  apply returns_bind. eapply returns_lift; [reflexivity|].
  apply returns_bind. eapply returns_lift; [vm_compute; reflexivity|].
  kf_step kf_building_row img3 H3 F3; try lia; try reflexivity.
  kf_step kf_building_row img4 H4 F4; try lia; try reflexivity.
  kf_step kf_building_row img5 H5 F5; try lia; try reflexivity.
  kf_step kf_pil img6 H6 F6.
  kf_step kf_for_each_shape img7 H7 F7;
    [intros i s _; apply kf_snow_particle; lia|].
  assert (Hc7 : rgb_canvas 640 1200 img7)
    by (repeat (eapply rgb_canvas_shape; [|eassumption]); exact H1).
  kf_step kf_add_noise img8 H8 F8;
    [lia|destruct Hc7 as (Hm & _); rewrite Hm; discriminate|].
  kf_step kf_pil img9 H9 F9.
  assert (Hc9 : rgb_canvas 640 1200 img9)
    by (eapply rgb_canvas_shape; [eapply rgb_canvas_shape; [exact Hc7|exact H8]|exact H9]).
  destruct Hc9 as (_ & Hw9 & Hh9).
  apply returns_bind, returns_save; [rewrite Hw9; reflexivity|rewrite Hh9; reflexivity|].
  apply returns_bind, returns_print. apply returns_ret.
  split; [reflexivity|]. exists img9. cbn [logged w_files].
  congruence.
Qed.

(** ** The texture composer *)

Lemma darkness_test_defined cx cy x y :
  darkness_test cx cy x y = true -> exists v, inventory_darkness cx cy x y = inr v.
Proof.
  unfold darkness_test, inventory_darkness.
  destruct (math_sqrt ((x - cx) ^ 2 + (y - cy) ^ 2)) as [e|dist]; [discriminate|].
  destruct (math_sqrt (cx ^ 2 + cy ^ 2)) as [e|max_dist]; [discriminate|].
  intros H. apply andb_prop in H. destruct H as [H Hhi].
  apply andb_prop in H. destruct H as [Hz Hlo].
  cbn [ebind]. unfold py_fdiv. destruct (PrimFloat.is_zero max_dist); [discriminate|].
  cbn [ebind]. eapply py_int_defined.
  eapply fmag_mul; [exact fmag_30|apply fmag_unit; eassumption|lia].
Qed.

Lemma darkness_rows_64 :
  forallb (darkness_row_test (64 / 2) (64 / 2) 64) (range 64) = true.
Proof. vm_compute. reflexivity. Qed.

Lemma inventory_defined_64 x y :
  0 <= x < 64 -> 0 <= y < 64 ->
  exists v, inventory_darkness (64 / 2) (64 / 2) x y = inr v.
Proof.
  intros Hx Hy. apply darkness_test_defined.
  pose proof (proj1 (forallb_forall _ _) darkness_rows_64 y ltac:(apply in_range; lia)) as H.
  unfold darkness_row_test in H.
  exact (proj1 (forallb_forall _ _) H x ltac:(apply in_range; lia)).
Qed.

Section TextureParts.

Variable rasterize : pil_op -> image -> Z -> Z -> quad.

Lemma kf_rough_spot width height base_color i img :
  1 <= width -> 1 <= height ->
  keeps_files (rough_spot rasterize width height base_color i img) (same_shape img).
Proof.
  intros Hw Hh. unfold rough_spot.
  eapply kf_bind; [apply kf_randint; lia|]. intros x _.
  eapply kf_bind; [apply kf_randint; lia|]. intros y _.
  eapply kf_bind; [apply kf_randint; lia|]. intros darkness _.
  eapply kf_bind; [apply kf_randint; lia|]. intros size _.
  apply kf_pil.
Qed.

Lemma kf_inventory_pixel cx cy base_color y x img :
  (exists v, inventory_darkness cx cy x y = inr v) ->
  keeps_files (inventory_pixel rasterize cx cy base_color y x img) (same_shape img).
Proof.
  intros (v & Hv). unfold inventory_pixel. destruct base_color as [[br bg] bb].
  eapply kf_bind; [eapply (kf_lift _ _ (fun _ => True)); [exact Hv|exact I]|].
  intros d _. eapply kf_bind; [apply kf_randint; lia|]. intros dr _.
  eapply kf_bind; [apply kf_randint; lia|]. intros dg _.
  eapply kf_bind; [apply kf_randint; lia|]. intros db _.
  apply kf_pil.
Qed.

Lemma kf_inventory_highlight i img :
  0 <= i < 20 ->
  keeps_files (inventory_highlight rasterize i img) (same_shape img).
Proof.
  intros Hi. unfold inventory_highlight.
  destruct (gradient_ratio_mag i 20 Hi ltac:(reflexivity)) as (t & Ht & Hmag).
  eapply kf_bind; [eapply (kf_lift _ _ (fun r => r = t)); [exact Ht|reflexivity]|].
  intros t' ->.
  destruct (py_int_defined 20 (30 * (1 - t))%float) as (alpha & Ha);
    [eapply fmag_weaken; [fmag_auto|lia]|].
  eapply kf_bind; [eapply (kf_lift _ _ (fun _ => True)); [exact Ha|exact I]|].
  intros a _. apply kf_pil.
Qed.

(** A texture canvas: RGBA of the given size. *)
Lemma texture_canvas_new width height q :
  0 <= width -> 0 <= height ->
  exists img,
    Image_new ModeRGBA width height q = inr img /\
    im_mode img = ModeRGBA /\ im_width img = width /\ im_height img = height.
Proof.
  intros Hw Hh. unfold Image_new. destruct q as [[[r g] b] a].
  replace ((width <? 0) || (height <? 0)) with false
    by (symmetry; apply orb_false_iff; split; apply Z.ltb_ge; lia).
  eexists. split; [reflexivity|]. repeat split.
Qed.

Variable output_dir : string.

(** The common tail of [create_ui_texture]: noise, save, print. *)
Lemma texture_tail_spec name (img : image) w0 w :
  im_mode img = ModeRGBA -> 0 < im_width img -> 0 < im_height img ->
  w_files w = w_files w0 ->
  returns
    (img <- add_noise img 8 ;;
     save img (os_path_join (textures_dir output_dir) (name ++ ".png")) ;;
     print ("Created: " ++ os_path_join (textures_dir output_dir) (name ++ ".png")) ;;
     ret (os_path_join (textures_dir output_dir) (name ++ ".png"))) w
    (fun path w' =>
       path = os_path_join (textures_dir output_dir) (name ++ ".png") /\
       exists img', w_files w' = w_files w0 ++ [(path, img')]).
Proof.
  intros Hm Hiw Hih Hf.
  kf_step kf_add_noise img1 H1 F1; [lia|rewrite Hm; discriminate|].
  destruct H1 as (_ & Hw1 & Hh1).
  apply returns_bind, returns_save; [rewrite Hw1; exact Hiw|rewrite Hh1; exact Hih|].
  apply returns_bind, returns_print. apply returns_ret.
  split; [reflexivity|]. exists img1. cbn [logged w_files]. congruence.
Qed.

Lemma create_ui_texture_rough_spec name width height base_color w :
  1 <= width -> 1 <= height ->
  returns (create_ui_texture rasterize output_dir name width height base_color "rough") w
    (fun path w' =>
       path = os_path_join (textures_dir output_dir) (name ++ ".png") /\
       exists img, w_files w' = w_files w ++ [(path, img)]).
Proof.
  intros Hw Hh. unfold create_ui_texture. destruct base_color as [[br bg] bb].
  destruct (texture_canvas_new width height (br, bg, bb, 255)) as (img0 & E0 & M0 & W0 & H0);
    [lia|lia|].
  apply returns_bind. eapply returns_lift; [exact E0|].
  replace (String.eqb "rough" "rough") with true by reflexivity.
  kf_step kf_for_each_shape img1 H1 F1;
    [intros i s _; apply kf_rough_spot; assumption|].
  destruct H1 as (Hm1 & Hw1 & Hh1).
  apply texture_tail_spec; [congruence|lia|lia|exact F1].
Qed.

Lemma create_ui_texture_inventory_spec name width height base_color w :
  1 <= width -> 1 <= height ->
  (forall x y, 0 <= x < width -> 0 <= y < height ->
     exists v, inventory_darkness (width / 2) (height / 2) x y = inr v) ->
  returns (create_ui_texture rasterize output_dir name width height base_color "inventory") w
    (fun path w' =>
       path = os_path_join (textures_dir output_dir) (name ++ ".png") /\
       exists img, w_files w' = w_files w ++ [(path, img)]).
Proof.
  intros Hw Hh Hdef. unfold create_ui_texture. destruct base_color as [[br bg] bb].
  destruct (texture_canvas_new width height (br, bg, bb, 255)) as (img0 & E0 & M0 & W0 & H0);
    [lia|lia|].
  apply returns_bind. eapply returns_lift; [exact E0|].
  replace (String.eqb "inventory" "rough") with false by reflexivity.
  replace (String.eqb "inventory" "brushstroke") with false by reflexivity.
  replace (String.eqb "inventory" "inventory") with true by reflexivity.
  cbv zeta.
  apply returns_bind.
  eapply returns_weaken.
  { eapply kf_bind.
    - apply kf_for_each_shape. intros y s Hy.
      apply kf_for_each_shape. intros x s' Hx.
      apply in_range in Hx, Hy. apply kf_inventory_pixel, Hdef; assumption.
    - intros img1 H1. eapply kf_weaken.
      + apply kf_for_each_shape. intros i s Hi. apply in_range in Hi.
        apply kf_inventory_highlight, Hi.
      + intros img2 H2. exact (same_shape_trans _ _ _ H1 H2). }
  cbv beta. intros img2 w2 [H2 F2]. destruct H2 as (Hm2 & Hw2 & Hh2).
  apply texture_tail_spec; [congruence|lia|lia|exact F2].
Qed.

End TextureParts.

(** ** Paths of the catalog *)

Lemma str_app_assoc (a b c : string) : ((a ++ b) ++ c = a ++ (b ++ c))%string.
Proof. induction a as [|x a IH]; cbn; [reflexivity|rewrite IH; reflexivity]. Qed.

Lemma str_app_inv_head (p a b : string) : (p ++ a = p ++ b)%string -> a = b.
Proof.
  induction p as [|x p IH]; cbn; intros H; [exact H|].
  injection H as H. apply IH, H.
Qed.

Lemma str_length_app (a b : string) :
  String.length (a ++ b) = (String.length a + String.length b)%nat.
Proof. induction a as [|x a IH]; cbn; [reflexivity|rewrite IH; reflexivity]. Qed.

Lemma get_last_app (p : string) c s :
  get (String.length (p ++ String c s) - 1) (p ++ String c s)
  = get (String.length (String c s) - 1) (String c s).
Proof.
  induction p as [|x p IH]; [reflexivity|].
  change (String x p ++ String c s)%string with (String x (p ++ String c s)).
  cbn [String.length].
  assert (E : String.length (p ++ String c s)
              = S (String.length (p ++ String c s) - 1)).
  { rewrite str_length_app. cbn [String.length]. lia. }
  replace (S (String.length (p ++ String c s)) - 1)%nat
    with (S (String.length (p ++ String c s) - 1)) by lia.
  cbn [get]. exact IH.
Qed.

Lemma ends_with_slash_app p s :
  relative s = true -> ends_with_slash (p ++ s) = ends_with_slash s.
Proof.
  destruct s as [|c s]; [discriminate|]. intros _.
  unfold ends_with_slash. rewrite get_last_app. reflexivity.
Qed.

Lemma length_app_nonzero p s :
  relative s = true -> (String.length (p ++ s) =? 0)%nat = false.
Proof.
  destruct s as [|c s]; [discriminate|]. intros _.
  rewrite str_length_app. cbn [String.length]. apply Nat.eqb_neq. lia.
Qed.

Lemma os_path_join_relative a b :
  relative b = true -> os_path_join a b = (dir_prefix a ++ b)%string.
Proof.
  destruct b as [|c b]; [discriminate|]. cbn [relative]. intros H.
  unfold os_path_join, dir_prefix.
  destruct (Ascii.eqb c "/"); [discriminate|].
  destruct ((String.length a =? 0)%nat || ends_with_slash a)%bool; [reflexivity|].
  rewrite str_app_assoc. reflexivity.
Qed.

(** A sub-directory named by a relative component that does not end in a
    separator is not empty and does not end in a separator either. *)
Lemma dir_prefix_subdir a d :
  relative d = true -> ends_with_slash d = false ->
  dir_prefix (os_path_join a d) = (os_path_join a d ++ "/")%string.
Proof.
  intros Hr He. rewrite (os_path_join_relative a d Hr). unfold dir_prefix.
  rewrite (length_app_nonzero _ d Hr), (ends_with_slash_app _ d Hr), He. reflexivity.
Qed.

Lemma os_path_join_file a d f :
  relative d = true -> ends_with_slash d = false -> relative f = true ->
  os_path_join (os_path_join a d) f = (os_path_join a d ++ "/" ++ f)%string.
Proof.
  intros Hr He Hf. rewrite (os_path_join_relative _ f Hf), dir_prefix_subdir by assumption.
  apply str_app_assoc.
Qed.

Lemma catalog_path a d f :
  relative d = true -> ends_with_slash d = false -> relative f = true ->
  os_path_join (os_path_join a d) f = (dir_prefix a ++ (d ++ "/" ++ f))%string.
Proof.
  intros Hr He Hf. rewrite os_path_join_file by assumption.
  rewrite (os_path_join_relative a d Hr). apply str_app_assoc.
Qed.

Lemma simple_name_relative s : simple_name s = true -> relative s = true.
Proof.
  destruct s as [|c s]; [discriminate|]. cbn. intros H.
  apply andb_prop in H. apply H.
Qed.

Lemma simple_name_no_slash s : simple_name s = true -> no_slash s = true.
Proof. destruct s; [discriminate|]. intros H. exact H. Qed.

Lemma no_slash_app_slash a b : no_slash (a ++ "/" ++ b) = false.
Proof.
  induction a as [|x a IH]; [reflexivity|].
  change (no_slash (String x (a ++ "/" ++ b)) = false).
  cbn [no_slash]. rewrite IH. apply andb_false_r.
Qed.

(** The directory of a file is determined by its path. *)
Lemma file_in_unique d1 d2 p : file_in d1 p -> file_in d2 p -> d1 = d2.
Proof.
  intros (n1 & H1 & ->) (n2 & H2 & E).
  apply simple_name_no_slash in H1, H2.
  revert d2 E. induction d1 as [|x d1 IH]; intros [|y d2] E.
  - reflexivity.
  - cbn in E. injection E as _ E. rewrite E in H1.
    change (d2 ++ String "/" n2)%string with (d2 ++ "/" ++ n2)%string in H1.
    rewrite no_slash_app_slash in H1. discriminate.
  - cbn in E. injection E as _ E. rewrite <- E in H2.
    change (d1 ++ String "/" n1)%string with (d1 ++ "/" ++ n1)%string in H2.
    rewrite no_slash_app_slash in H2. discriminate.
  - cbn in E. injection E as Exy E. f_equal; [exact Exy|apply IH, E].
Qed.

Lemma scene_names_simple n :
  In n scene_names -> simple_name (n ++ ".png") = true.
Proof. intros H. repeat (destruct H as [<-|H]; [reflexivity|]). destruct H. Qed.

Lemma texture_names_simple n :
  In n texture_names -> simple_name (n ++ ".png") = true.
Proof. intros H. repeat (destruct H as [<-|H]; [reflexivity|]). destruct H. Qed.

Lemma catalog_as_relative output_dir :
  catalog_backgrounds output_dir ++ catalog_textures output_dir
  = map (append (dir_prefix output_dir)) catalog_relative.
Proof.
  unfold catalog_backgrounds, catalog_textures, catalog_relative,
    backgrounds_dir, textures_dir.
  rewrite map_app, !map_map. f_equal; apply map_ext_in; intros n Hn;
    apply catalog_path; try reflexivity; apply simple_name_relative.
  - apply scene_names_simple, Hn.
  - apply texture_names_simple, Hn.
Qed.

Lemma catalog_relative_nodup : NoDup catalog_relative.
Proof.
  repeat (apply NoDup_cons; [cbn; intuition discriminate|]). apply NoDup_nil.
Qed.

Lemma catalog_nodup output_dir :
  NoDup (catalog_backgrounds output_dir ++ catalog_textures output_dir).
Proof.
  rewrite catalog_as_relative.
  generalize catalog_relative_nodup. generalize catalog_relative.
  induction l as [|a l IH]; intros H; cbn [map]; [apply NoDup_nil|].
  inversion H as [|? ? Hn Hl]; subst. apply NoDup_cons; [|apply IH, Hl].
  intros Hin. apply in_map_iff in Hin. destruct Hin as (b & E & Hb).
  apply str_app_inv_head in E. subst b. exact (Hn Hb).
Qed.

Lemma catalog_backgrounds_in output_dir :
  Forall (file_in (backgrounds_dir output_dir)) (catalog_backgrounds output_dir).
Proof.
  apply Forall_forall. intros p Hp. apply in_map_iff in Hp.
  destruct Hp as (n & <- & Hn). exists (n ++ ".png")%string.
  split; [apply scene_names_simple, Hn|].
  apply os_path_join_file; try reflexivity.
  apply simple_name_relative, scene_names_simple, Hn.
Qed.

Lemma catalog_textures_in output_dir :
  Forall (file_in (textures_dir output_dir)) (catalog_textures output_dir).
Proof.
  apply Forall_forall. intros p Hp. apply in_map_iff in Hp.
  destruct Hp as (n & <- & Hn). exists (n ++ ".png")%string.
  split; [apply texture_names_simple, Hn|].
  apply os_path_join_file; try reflexivity.
  apply simple_name_relative, texture_names_simple, Hn.
Qed.

Lemma directories_differ output_dir :
  backgrounds_dir output_dir <> textures_dir output_dir.
Proof.
  unfold backgrounds_dir, textures_dir.
  rewrite !os_path_join_relative by reflexivity.
  intros E. apply str_app_inv_head in E. discriminate.
Qed.

(** ** The catalog run *)

Lemma appends_ret {A} (a : A) : appends [] (ret a).
Proof. intros w. apply returns_ret. symmetry. apply app_nil_r. Qed.

Lemma appends_print s : appends [] (print s).
Proof. intros w. apply returns_print. symmetry. apply app_nil_r. Qed.

Lemma appends_bind {A B} p1 p2 (m : M A) (f : A -> M B) :
  appends p1 m -> (forall a, appends p2 (f a)) -> appends (p1 ++ p2) (bind m f).
Proof.
  intros Hm Hf w. apply returns_bind.
  eapply returns_weaken; [apply Hm|]. cbv beta. intros a w1 H1.
  eapply returns_weaken; [apply Hf|]. cbv beta. intros b w2 H2.
  rewrite H2, H1. symmetry. apply app_assoc.
Qed.

(** A computation that returns the path of the one file it appends. *)
Lemma appends_one (m : M string) (p : string) :
  (forall w, returns m w (fun path w' =>
     path = p /\ exists img, w_files w' = w_files w ++ [(path, img)])) ->
  appends [p] m.
Proof.
  intros H w. eapply returns_weaken; [apply H|]. cbv beta.
  intros path w' (-> & img & E). unfold written. rewrite E, map_app. reflexivity.
Qed.

Lemma appends_for_each {A} (l : list A) (body : A -> unit -> M unit)
    (path : A -> string) :
  (forall a, In a l -> appends [path a] (body a tt)) ->
  appends (map path l) (for_each l body tt).
Proof.
  induction l as [|a l IH]; intros H; cbn [for_each map].
  - apply appends_ret.
  - change (path a :: map path l) with ([path a] ++ map path l).
    apply appends_bind; [apply H; left; reflexivity|].
    intros []. apply IH. intros a' Ha'. apply H. right. exact Ha'.
Qed.

Lemma scenes_colors name config :
  In (name, config) scenes ->
  color8 (dict_get config "sky_top" (COLORS "charcoal")) /\
  color8 (dict_get config "sky_bottom" (COLORS "slate")).
Proof.
  intros H.
  repeat (destruct H as [H|H];
          [injection H as <- <-; cbv; intuition discriminate|]).
  destruct H.
Qed.

Section Catalog.

Variable rasterize : pil_op -> image -> Z -> Z -> quad.
Variable math_sin : float -> float.
Variable output_dir : string.
Hypothesis sin_ok : sin_bounded math_sin.

Lemma appends_scene name config :
  In (name, config) scenes ->
  appends [os_path_join (backgrounds_dir output_dir) (name ++ ".png")]
    (create_scene_background rasterize output_dir name config).
Proof.
  intros H. destruct (scenes_colors name config H) as [Ht Hb].
  apply appends_one. intros w. apply create_scene_background_spec; assumption.
Qed.

Lemma appends_inventory_64 name base_color :
  appends [os_path_join (textures_dir output_dir) (name ++ ".png")]
    (create_ui_texture rasterize output_dir name 64 64 base_color "inventory").
Proof.
  apply appends_one. intros w.
  apply create_ui_texture_inventory_spec; [lia|lia|apply inventory_defined_64].
Qed.

Lemma appends_rough name width height base_color :
  1 <= width -> 1 <= height ->
  appends [os_path_join (textures_dir output_dir) (name ++ ".png")]
    (create_ui_texture rasterize output_dir name width height base_color "rough").
Proof.
  intros Hw Hh. apply appends_one. intros w.
  apply create_ui_texture_rough_spec; assumption.
Qed.

Lemma appends_brush_stroke :
  appends [os_path_join (textures_dir output_dir) "speaker_brush.png"]
    (create_brush_stroke_speaker rasterize math_sin output_dir).
Proof.
  apply appends_one. intros w.
  eapply returns_weaken; [apply create_brush_stroke_speaker_spec, sin_ok|].
  cbv beta. intros path w' (-> & H & _). split; [reflexivity|exact H].
Qed.

Lemma main_appends :
  appends (catalog_backgrounds output_dir ++ catalog_textures output_dir)
    (main rasterize math_sin output_dir).
Proof.
  unfold main.
  change (catalog_backgrounds output_dir ++ catalog_textures output_dir)
    with ([] ++ [] ++
          map (fun sc : string * list (string * color) =>
                 os_path_join (backgrounds_dir output_dir) (fst sc ++ ".png")) scenes
          ++ [] ++
          [os_path_join (textures_dir output_dir) ("inv_slot" ++ ".png")] ++
          [os_path_join (textures_dir output_dir) ("inv_slot_empty" ++ ".png")] ++
          [os_path_join (textures_dir output_dir) ("btn_texture" ++ ".png")] ++
          [os_path_join (textures_dir output_dir) ("btn_texture_hover" ++ ".png")] ++
          [os_path_join (textures_dir output_dir) ("soundbox_texture" ++ ".png")] ++
          [os_path_join (textures_dir output_dir) ("textbox_bg" ++ ".png")] ++
          [os_path_join (textures_dir output_dir) "speaker_brush.png"] ++
          [] ++ [] ++ []).
  apply appends_bind; [apply appends_print|intros _].
  apply appends_bind; [apply appends_print|intros _].
  apply appends_bind.
  { apply appends_for_each. intros [name config] Hin.
    change [os_path_join (backgrounds_dir output_dir) (fst (name, config) ++ ".png")]
      with ([os_path_join (backgrounds_dir output_dir) (name ++ ".png")] ++ []).
    apply appends_bind; [apply appends_scene, Hin|intros _; apply appends_ret]. }
  intros _.
  apply appends_bind; [apply appends_print|intros _].
  apply appends_bind; [apply appends_inventory_64|intros _].
  apply appends_bind; [apply appends_inventory_64|intros _].
  apply appends_bind; [apply appends_rough; lia|intros _].
  apply appends_bind; [apply appends_rough; lia|intros _].
  apply appends_bind; [apply appends_rough; lia|intros _].
  apply appends_bind; [apply appends_rough; lia|intros _].
  apply appends_bind; [apply appends_brush_stroke|intros _].
  apply appends_bind; [apply appends_print|intros _].
  apply appends_bind; [apply appends_print|intros _].
  apply appends_print.
Qed.

End Catalog.

(** C7: whenever the sine stays in [[-1, 1]], [main] returns normally from
    any world, and the files it writes are exactly the catalog: first the 10
    scene backgrounds, each a file directly inside [backgrounds_dir], then
    the 7 textures (six declared ones and the brush stroke), each a file
    directly inside [textures_dir]; the 17 paths are pairwise different and no
    path lies in both directories. *)
Theorem main_catalog rasterize math_sin output_dir (w : world) :
  sin_bounded math_sin ->
  exists w',
    main rasterize math_sin output_dir w = Ok tt w' /\
    written w' = written w ++ catalog_backgrounds output_dir ++ catalog_textures output_dir /\
    List.length (catalog_backgrounds output_dir) = 10%nat /\
    List.length (catalog_textures output_dir) = 7%nat /\
    Forall (file_in (backgrounds_dir output_dir)) (catalog_backgrounds output_dir) /\
    Forall (file_in (textures_dir output_dir)) (catalog_textures output_dir) /\
    NoDup (catalog_backgrounds output_dir ++ catalog_textures output_dir) /\
    forall p, ~ (file_in (backgrounds_dir output_dir) p /\
                 file_in (textures_dir output_dir) p).
Proof.
  intros Hsin.
  destruct (main_appends rasterize math_sin output_dir Hsin w) as ([] & w' & Hrun & Hw).
  exists w'. split; [exact Hrun|]. split; [exact Hw|].
  split; [reflexivity|]. split; [reflexivity|].
  split; [apply catalog_backgrounds_in|]. split; [apply catalog_textures_in|].
  split; [apply catalog_nodup|].
  intros p [Hb Ht]. exact (directories_differ output_dir (file_in_unique _ _ _ Hb Ht)).
Qed.

Lemma main_catalog_witness :
  sin_bounded sin_ref /\
  exists w',
    main raster_ref sin_ref "/srv/assets" demo_world = Ok tt w' /\
    written w' =
      [ "/srv/assets/backgrounds/scene_00_home.png";
        "/srv/assets/backgrounds/scene_01_street.png";
        "/srv/assets/backgrounds/scene_02_restarea.png";
        "/srv/assets/backgrounds/scene_03_highway.png";
        "/srv/assets/backgrounds/scene_04_daejeon.png";
        "/srv/assets/backgrounds/scene_05_shelter.png";
        "/srv/assets/backgrounds/scene_06_gyeongnam.png";
        "/srv/assets/backgrounds/scene_07_busan_outer.png";
        "/srv/assets/backgrounds/scene_08_sanctuary.png";
        "/srv/assets/backgrounds/scene_09_ending.png";
        "/srv/assets/textures/inv_slot.png";
        "/srv/assets/textures/inv_slot_empty.png";
        "/srv/assets/textures/btn_texture.png";
        "/srv/assets/textures/btn_texture_hover.png";
        "/srv/assets/textures/soundbox_texture.png";
        "/srv/assets/textures/textbox_bg.png";
        "/srv/assets/textures/speaker_brush.png" ]%string.
Proof.
  split; [exact sin_ref_bounded|].
  destruct (main_catalog raster_ref sin_ref "/srv/assets" demo_world sin_ref_bounded)
    as (w' & Hrun & Hw & _).
  exists w'. split; [exact Hrun|]. rewrite Hw. reflexivity.
Defined.

(** * Further properties of the program *)

(** ** Edge cases of the noise pass *)

Lemma range_empty n : n <= 0 -> range n = [].
Proof. intros H. unfold range. replace (Z.to_nat n) with 0%nat by lia. reflexivity. Qed.

Lemma range_first n : 0 < n -> exists t, range n = 0 :: t.
Proof.
  intros H. unfold range. destruct (Z.to_nat n) eqn:E; [lia|].
  cbn [seq map]. eexists. reflexivity.
Qed.

(** X1: on a grey-scale (mode L) image that has at least one pixel,
    [add_noise] raises [TypeError] at the first pixel, whatever the
    intensity: nothing is drawn from the random stream and nothing is
    recorded. *)
Theorem add_noise_grayscale_raises (img : image) (intensity : Z) (w : world) :
  im_mode img = ModeL -> 0 < im_width img -> 0 < im_height img ->
  add_noise img intensity w = Raise TypeError w.
Proof.
  intros Hm Hw Hh. unfold add_noise.
  destruct (range_first _ Hw) as (tw & ->). cbn [for_each].
  destruct (range_first _ Hh) as (th & ->). cbn [for_each]. unfold bind at 1 2. unfold add_noise_pixel, getpixel. rewrite Hm.
  destruct (im_buf img 0 0) as [[[r g] b] a]. reflexivity.
Qed.

Lemma add_noise_grayscale_raises_witness :
  add_noise demo_gray 15 demo_world = Raise TypeError demo_world.
Proof.
  apply add_noise_grayscale_raises; [reflexivity|reflexivity|reflexivity].
Defined.

(** X2: with a negative intensity, [add_noise] on a colour image that has
    at least one pixel raises [ValueError] (the range of [randint] is
    empty) before any pixel is changed or any number drawn. *)
Theorem add_noise_negative_intensity_raises (img : image) (intensity : Z) (w : world) :
  intensity < 0 -> im_mode img <> ModeL -> 0 < im_width img -> 0 < im_height img ->
  add_noise img intensity w = Raise ValueError w.
Proof.
  intros HI Hm Hw Hh. unfold add_noise.
  destruct (range_first _ Hw) as (tw & ->). cbn [for_each].
  destruct (range_first _ Hh) as (th & ->). cbn [for_each]. unfold bind at 1 2. unfold add_noise_pixel, getpixel.
  destruct (im_buf img 0 0) as [[[r g] b] a].
  destruct (im_mode img); [congruence| |]; cbn [view]; unfold bind, randint;
    (destruct (Z.ltb_spec intensity (- intensity)); [reflexivity|lia]).
Qed.

Lemma add_noise_negative_intensity_raises_witness :
  add_noise demo_image (-1) demo_world = Raise ValueError demo_world.
Proof.
  apply add_noise_negative_intensity_raises;
    [reflexivity|discriminate|reflexivity|reflexivity].
Defined.

(** X3: on an image without pixels (width or height not positive)
    [add_noise] returns the image as it is, in any mode and for any
    intensity, and leaves the world untouched. *)
Theorem add_noise_empty_image (img : image) (intensity : Z) (w : world) :
  im_width img <= 0 \/ im_height img <= 0 ->
  add_noise img intensity w = Ok img w.
Proof.
  intros [H|H]; unfold add_noise.
  - rewrite (range_empty _ H). reflexivity.
  - induction (range (im_width img)) as [|i l IH]; cbn [for_each]; [reflexivity|].
    unfold bind at 1. rewrite (range_empty (im_height img) H). exact IH.
Qed.

Lemma add_noise_empty_image_witness :
  add_noise (mkImage ModeL 5 0 (fun _ _ => (0, 0, 0, 255))) (-3) demo_world
  = Ok (mkImage ModeL 5 0 (fun _ _ => (0, 0, 0, 255))) demo_world.
Proof. apply add_noise_empty_image. right. cbn. lia. Defined.

(** ** Drawing calls of a computation *)

Lemma emits_ret {A} (a : A) (P : A -> list event -> Prop) : P a [] -> emits (ret a) P.
Proof.
  intros H w. apply returns_ret. split; [reflexivity|].
  exists []. split; [symmetry; apply app_nil_r|exact H].
Qed.

Lemma emits_weaken {A} (m : M A) (P Q : A -> list event -> Prop) :
  emits m P -> (forall a evs, P a evs -> Q a evs) -> emits m Q.
Proof.
  intros Hm H w. eapply returns_weaken; [apply Hm|]. cbv beta.
  intros a w' (Hf & evs & Ht & HP). split; [exact Hf|]. exists evs. auto.
Qed.

Lemma emits_bind {A B} (m : M A) (k : A -> M B) (P1 : A -> list event -> Prop)
    (P : B -> list event -> Prop) :
  emits m P1 ->
  (forall a evs1, P1 a evs1 -> emits (k a) (fun b evs2 => P b (evs1 ++ evs2))) ->
  emits (bind m k) P.
Proof.
  intros Hm Hk w. apply returns_bind.
  eapply returns_weaken; [apply Hm|]. cbv beta. intros a w1 (Hf1 & evs1 & Ht1 & H1).
  eapply returns_weaken; [apply (Hk a evs1 H1)|]. cbv beta.
  intros b w2 (Hf2 & evs2 & Ht2 & H2). split; [congruence|].
  exists (evs1 ++ evs2). split; [rewrite Ht2, Ht1, app_assoc; reflexivity|exact H2].
Qed.

(** Steps that record nothing. *)
Lemma emits_silent {A B} (m : M A) (k : A -> M B) (R : A -> Prop)
    (P : B -> list event -> Prop) :
  emits m (fun a evs => R a /\ evs = []) ->
  (forall a, R a -> emits (k a) P) -> emits (bind m k) P.
Proof.
  intros Hm Hk. eapply emits_bind; [exact Hm|].
  cbv beta. intros a evs1 [Ha ->]. apply Hk, Ha.
Qed.

Lemma emits_randint a b : a <= b -> emits (randint a b) (fun v evs => a <= v <= b /\ evs = []).
Proof.
  intros Hab w. apply returns_randint; [exact Hab|]. intros r Hr.
  split; [reflexivity|]. exists []. split; [symmetry; apply app_nil_r|auto].
Qed.

Lemma emits_random : emits random_random (fun _ evs => True /\ evs = []).
Proof.
  intros w. apply returns_random. intros u.
  split; [reflexivity|]. exists []. split; [symmetry; apply app_nil_r|auto].
Qed.


Lemma emits_lift {A} (e : E A) (a : A) :
  e = inr a -> emits (lift e) (fun v evs => v = a /\ evs = []).
Proof.
  intros -> w. apply returns_ret. split; [reflexivity|].
  exists []. split; [symmetry; apply app_nil_r|auto].
Qed.

Lemma emits_pil rasterize op img :
  emits (pil rasterize op img)
    (fun img' evs => img' = with_buf img (rasterize op img) /\ evs = [EvPil op]).
Proof.
  intros w. apply returns_pil. split; [reflexivity|]. exists [EvPil op]. auto.
Qed.

(** A loop, with an invariant over the items done, the state and the events
    recorded so far. *)
Lemma emits_for_each {A S} (Inv : list A -> S -> list event -> Prop)
    (l : list A) (body : A -> S -> M S) (s : S) :
  Inv [] s [] ->
  (forall done a s evs, In a l -> Inv done s evs ->
     emits (body a s) (fun s' evs' => Inv (done ++ [a]) s' (evs ++ evs'))) ->
  emits (for_each l body s) (Inv l).
Proof.
  intros H0 Hbody.
  assert (G : forall todo done s evs,
            (forall a, In a todo -> In a l) -> Inv done s evs ->
            emits (for_each todo body s) (fun s' evs' => Inv (done ++ todo) s' (evs ++ evs'))).
  { induction todo as [|a todo IH]; intros done s0 evs Hin HI; cbn [for_each].
    - apply emits_ret. rewrite !app_nil_r. exact HI.
    - eapply emits_bind; [apply (Hbody done a s0 evs); [apply Hin; left; reflexivity|exact HI]|].
      cbv beta. intros s1 evs1 H1.
      eapply emits_weaken;
        [apply (IH (done ++ [a]) s1 (evs ++ evs1));
           [intros a' Ha'; apply Hin; right; exact Ha'|exact H1]|].
      cbv beta. intros s2 evs2. rewrite <- !app_assoc. cbn [app]. auto. }
  eapply emits_weaken; [apply (G l [] s []); auto|]. cbv beta. intros s' evs'. auto.
Qed.

(** A loop whose every iteration records one event, or a list of events,
    that satisfies [Q] for its item, and keeps [I] on the state. *)
Lemma emits_for_each_groups {A S} (I : S -> Prop) (Q : A -> list event -> Prop)
    (l : list A) (body : A -> S -> M S) (s : S) :
  I s ->
  (forall a s, In a l -> I s -> emits (body a s) (fun s' evs => I s' /\ Q a evs)) ->
  emits (for_each l body s)
    (fun s' evs => I s' /\ exists groups, Forall2 Q l groups /\ evs = List.concat groups).
Proof.
  intros H0 Hbody.
  apply (emits_for_each
    (fun done s' evs => I s' /\ exists groups, Forall2 Q done groups /\ evs = List.concat groups)).
  - split; [exact H0|]. exists []. split; [constructor|reflexivity].
  - cbv beta. intros done a s0 evs Ha (HI & groups & HQ & ->).
    eapply emits_weaken; [apply Hbody; assumption|]. cbv beta.
    intros s1 evs1 (HI1 & HQ1). split; [exact HI1|].
    exists (groups ++ [evs1]). split.
    + apply Forall2_app; [exact HQ|]. constructor; [exact HQ1|constructor].
    + rewrite concat_app. cbn [List.concat]. rewrite app_nil_r. reflexivity.
Qed.

Lemma emits_for_each_single {A S} (I : S -> Prop) (Q : A -> event -> Prop)
    (l : list A) (body : A -> S -> M S) (s : S) :
  I s ->
  (forall a s, In a l -> I s ->
     emits (body a s) (fun s' evs => I s' /\ exists ev, evs = [ev] /\ Q a ev)) ->
  emits (for_each l body s) (fun s' evs => I s' /\ Forall2 Q l evs).
Proof.
  intros H0 Hbody.
  apply (emits_for_each (fun done s' evs => I s' /\ Forall2 Q done evs)).
  - split; [exact H0|constructor].
  - cbv beta. intros done a s0 evs Ha (HI & HQ).
    eapply emits_weaken; [apply Hbody; assumption|]. cbv beta.
    intros s1 evs1 (HI1 & ev & -> & HQ1). split; [exact HI1|].
    apply Forall2_app; [exact HQ|]. constructor; [exact HQ1|constructor].
Qed.

Lemma Forall2_length_eq {A B} (Q : A -> B -> Prop) l l' :
  Forall2 Q l l' -> List.length l' = List.length l.
Proof. induction 1; cbn; congruence. Qed.

Lemma Forall2_right {A B} (Q : A -> B -> Prop) (P : B -> Prop) l l' :
  Forall2 Q l l' -> (forall a b, In a l -> Q a b -> P b) -> Forall P l'.
Proof.
  induction 1 as [|a b l l' Hab _ IH]; intros H; constructor.
  - apply (H a b); [left; reflexivity|exact Hab].
  - apply IH. intros a' b' Ha'. apply H. right. exact Ha'.
Qed.

Lemma Forall2_nth {A B} (Q : A -> B -> Prop) l l' n a :
  Forall2 Q l l' -> nth_error l n = Some a ->
  exists b, nth_error l' n = Some b /\ Q a b.
Proof.
  intros H. revert n. induction H as [|x y l l' Hxy _ IH]; intros [|n] Hn; cbn in *;
    try discriminate.
  - injection Hn as <-. eauto.
  - apply IH, Hn.
Qed.

Lemma range_length n : List.length (range n) = Z.to_nat n.
Proof. unfold range. rewrite length_map, length_seq. reflexivity. Qed.

Lemma range_nth n i : 0 <= i < n -> nth_error (range n) (Z.to_nat i) = Some i.
Proof.
  intros Hi. unfold range. rewrite nth_error_map.
  rewrite (nth_error_nth' _ 0%nat) by (rewrite length_seq; lia).
  rewrite seq_nth by lia. cbn. f_equal. lia.
Qed.

(** ** The drawing calls of the gradient *)

Lemma create_gradient_events rasterize width height color1 color2 direction :
  0 <= width < 2 ^ 53 -> 0 <= height < 2 ^ 53 -> color8 color1 -> color8 color2 ->
  emits (create_gradient rasterize width height color1 color2 direction)
    (fun img evs =>
       rgb_canvas width height img /\
       Forall2 (gradient_line width height color1 color2 direction)
         (range (if String.eqb direction "vertical" then height else width)) evs).
Proof.
  intros Hw Hh H1 H2. unfold create_gradient.
  eapply emits_silent.
  { apply emits_lift. unfold Image_new.
    replace ((width <? 0) || (height <? 0)) with false
      by (symmetry; apply orb_false_iff; split; apply Z.ltb_ge; lia).
    reflexivity. }
  intros img ->.
  apply (emits_for_each_single (rgb_canvas width height)); [repeat split|].
  intros i s Hi Hs. apply in_range in Hi.
  assert (Hn : (if String.eqb direction "vertical" then height else width) < 2 ^ 53)
    by (destruct (String.eqb direction "vertical"); lia).
  destruct (gradient_color_defined _ color1 color2 i H1 H2 Hi Hn) as ([[r g] b] & Hc).
  intros w. eapply returns_eq; [apply (gradient_row_run _ _ _ _ _ _ _ r g b s w Hc)|].
  apply returns_pil. split; [reflexivity|]. eexists. split; [reflexivity|].
  split; [exact Hs|]. eexists. split; [reflexivity|].
  exists r, g, b. split; [exact Hc|reflexivity].
Qed.

(** X4: for every non-negative size with sides below 2^31 and 8-bit
    colours, [create_gradient]
    returns an RGB canvas of that size and makes exactly one drawing call
    per row (direction 'vertical') or per column (any other direction), in
    increasing order: the line of index [i], from 0 to [width] (or to
    [height]) both included, in the colour computed for [i].  On an empty
    axis it draws nothing and divides by nothing.  It writes no file. *)
Theorem create_gradient_lines
    (rasterize : pil_op -> image -> Z -> Z -> quad)
    (width height : Z) (color1 color2 : color) (direction : string) (w : world) :
  0 <= width < 2 ^ 31 -> 0 <= height < 2 ^ 31 -> color8 color1 -> color8 color2 ->
  let vertical := String.eqb direction "vertical" in
  let n := if vertical then height else width in
  exists img w' evs,
    create_gradient rasterize width height color1 color2 direction w = Ok img w' /\
    rgb_canvas width height img /\
    w_files w' = w_files w /\ w_trace w' = w_trace w ++ evs /\
    List.length evs = Z.to_nat n /\
    forall i, 0 <= i < n ->
      exists r g b,
        gradient_color n color1 color2 i = inr (r, g, b) /\
        nth_error evs (Z.to_nat i)
        = Some (EvPil (if vertical then Line 0 i width i (Ink3 r g b)
                       else Line i 0 i height (Ink3 r g b))).
Proof.
  intros Hw Hh H1 H2 vertical n.
  assert (H31 : 2 ^ 31 < 2 ^ 53) by reflexivity.
  destruct (create_gradient_events rasterize width height color1 color2 direction
              ltac:(lia) ltac:(lia) H1 H2 w) as (img & w' & Hrun & Hf & evs & Ht & Hc & Hl).
  fold vertical in Hl. fold n in Hl.
  exists img, w', evs. split; [exact Hrun|]. split; [exact Hc|].
  split; [exact Hf|]. split; [exact Ht|].
  split; [rewrite (Forall2_length_eq _ _ _ Hl); apply range_length|].
  intros i Hi.
  destruct (Forall2_nth _ _ _ _ _ Hl (range_nth n i Hi)) as (ev & Hev & r & g & b & Hc' & ->).
  exists r, g, b. split; [exact Hc'|exact Hev].
Qed.

Lemma create_gradient_lines_witness :
  exists img w' evs,
    create_gradient raster_ref 2 3 (10, 20, 30) (40, 50, 60) "horizontal" demo_world
      = Ok img w' /\
    w_trace w' = w_trace demo_world ++ evs /\
    nth_error evs 1 = Some (EvPil (Line 1 0 1 3 (Ink3 25 35 45))).
Proof.
  destruct (create_gradient_lines raster_ref 2 3 (10, 20, 30) (40, 50, 60) "horizontal"
              demo_world) as (img & w' & evs & Hrun & _ & _ & Ht & _ & Hl);
    [split; [lia|reflexivity]|split; [lia|reflexivity]
    |cbv; intuition discriminate|cbv; intuition discriminate|].
  exists img, w', evs. split; [exact Hrun|]. split; [exact Ht|].
  destruct (Hl 1) as (r & g & b & Hc & Hev); [cbn; lia|].
  vm_compute in Hc. injection Hc as <- <- <-. exact Hev.
Defined.

(** ** The drawing calls of a building *)

Tactic Notation "emits_draw" ident(v) ident(H) "by" tactic(t) :=
  eapply emits_silent; [apply emits_randint; t|intros v H; cbv beta in H].
Tactic Notation "emits_draw" ident(v) ident(H) := emits_draw v H by lia.

Lemma groups_bound {A} (W : event -> Prop) (n : nat) (l : list A)
    (groups : list (list event)) :
  Forall2 (fun _ g => (List.length g <= n)%nat /\ Forall W g) l groups ->
  (List.length (List.concat groups) <= List.length l * n)%nat /\
  Forall W (List.concat groups).
Proof.
  induction 1 as [|a g l groups [Hlen HW] _ [IHlen IHW]]; cbn [List.concat List.length].
  - split; [lia|constructor].
  - split; [rewrite length_app; lia|apply Forall_app; split; assumption].
Qed.

Lemma window_cell_events rasterize x width top_y bh rows cols c row col img s :
  0 <= row < rows -> 0 <= col < cols -> same_shape img s ->
  emits (window_cell rasterize x width top_y bh rows cols c row col s)
    (fun s' evs =>
       same_shape img s' /\
       (List.length evs <= 1)%nat /\
       Forall (window_event x width top_y bh rows cols c) evs).
Proof.
  intros Hrow Hcol Hs. unfold window_cell.
  eapply emits_silent; [apply emits_random|]. intros u _.
  destruct (PrimFloat.ltb u _).
  - eapply emits_silent; [apply emits_random|]. intros v _.
    eapply emits_weaken; [apply emits_pil|]. cbv beta. intros s' evs [-> ->].
    split; [exact Hs|]. split; [cbn; lia|].
    constructor; [|constructor].
    exists row, col. eexists. split; [exact Hrow|]. split; [exact Hcol|].
    split; [|reflexivity].
    destruct (PrimFloat.ltb v _); [left|right]; reflexivity.
  - apply emits_ret. split; [exact Hs|]. split; [cbn; lia|constructor].
Qed.

Lemma roof_points_events x top_y sw k init :
  Z.abs x < 2 ^ 63 -> 0 <= k < 2 ^ 62 ->
  emits (for_each (range (k + 1)) (roof_point x top_y sw) init)
    (fun pts evs =>
       (exists roof, pts = init ++ roof /\ List.length roof = Z.to_nat (k + 1) /\
          Forall (fun p : num * Z => top_y - 20 <= snd p <= top_y + 30) roof) /\
       evs = []).
Proof.
  intros Hx Hk.
  eapply emits_weaken.
  - apply (emits_for_each
      (fun (done : list Z) pts evs =>
         (exists roof, pts = init ++ roof /\ List.length roof = List.length done /\
            Forall (fun p : num * Z => top_y - 20 <= snd p <= top_y + 30) roof) /\
         evs = [])).
    + split; [|reflexivity]. exists []. rewrite app_nil_r. repeat split. constructor.
    + cbv beta. intros done i pts evs Hi ((roof & -> & Hlen & Hb) & ->).
      apply in_range in Hi. unfold roof_point.
      eapply emits_silent; [apply emits_lift, py_float_small; lia|]. intros fi ->.
      eapply emits_silent; [apply emits_lift, py_float_small, Hx|]. intros fx ->.
      emits_draw dy Hdy.
      apply emits_ret. split; [|reflexivity].
      eexists (roof ++ [_]). split; [rewrite app_assoc; reflexivity|].
      split; [rewrite !length_app; cbn; lia|].
      apply Forall_app. split; [exact Hb|]. constructor; [cbn [snd]; lia|constructor].
  - cbv beta. intros pts evs ((roof & -> & Hlen & Hb) & ->). split; [|reflexivity].
    exists roof. split; [reflexivity|]. split; [rewrite Hlen; apply range_length|exact Hb].
Qed.

Lemma draw_building_silhouette_events rasterize img x width height base_y c :
  0 <= height -> Z.abs x < 2 ^ 63 -> Z.abs width <= 2 ^ 53 ->
  emits (draw_building_silhouette rasterize img x width height base_y c)
    (fun img' evs => same_shape img img' /\ building_events x width height base_y c evs).
Proof.
  intros Hh Hx Hw. unfold draw_building_silhouette.
  emits_draw bh Hbh by (Z.to_euclidean_division_equations; lia).
  emits_draw k Hk.
  destruct (py_truediv_defined width k ltac:(lia) Hw ltac:(lia)) as (sw & Hsw & _).
  eapply emits_silent; [apply emits_lift, Hsw|]. intros sw' ->.
  eapply emits_silent; [apply (roof_points_events x (base_y - bh) sw k); [exact Hx|lia]|].
  intros pts (roof & -> & Hlen & Hb).
  eapply emits_bind; [apply emits_pil|]. cbv beta. intros img1 evs1 [-> ->].
  emits_draw rows Hrows.
  emits_draw cols Hcols.
  eapply emits_weaken.
  - apply (emits_for_each_groups (same_shape img)
      (fun (_ : Z) g => (List.length g <= Z.to_nat cols)%nat /\
         Forall (window_event x width (base_y - bh) bh rows cols c) g)).
    + repeat split.
    + intros row s Hrow Hs. apply in_range in Hrow.
      eapply emits_weaken.
      * apply (emits_for_each_groups (same_shape img)
          (fun (_ : Z) g => (List.length g <= 1)%nat /\
             Forall (window_event x width (base_y - bh) bh rows cols c) g));
          [exact Hs|].
        intros col s' Hcol Hs'. apply in_range in Hcol.
        apply window_cell_events; assumption.
      * cbv beta. intros s' evs (Hs' & groups & HQ & ->). split; [exact Hs'|].
        destruct (groups_bound _ _ _ _ HQ) as [Hlen' HW].
        rewrite range_length in Hlen'. split; [lia|exact HW].
  - cbv beta. intros img' evs (Hs & groups & HQ & ->). split; [exact Hs|].
    destruct (groups_bound _ _ _ _ HQ) as [Hlen' HW]. rewrite range_length in Hlen'.
    exists bh, k, roof, rows, cols, (List.concat groups).
    split; [exact Hbh|]. split; [exact Hk|]. split; [exact Hlen|].
    split; [eapply Forall_impl; [|exact Hb]; cbv beta; intros p Hp; lia|].
    split; [exact Hrows|]. split; [exact Hcols|].
    split; [rewrite Z2Nat.inj_mul by lia; exact Hlen'|]. split; [exact HW|].
    reflexivity.
Qed.

(** X5: with a height of -3 or less the height range of the building is
    empty ([height // 2 < height // 4] under floor division), so
    [draw_building_silhouette] raises [ValueError] before anything is drawn
    or any number taken from the random stream. *)
Theorem draw_building_silhouette_negative_height
    (rasterize : pil_op -> image -> Z -> Z -> quad) (img : image)
    (x width height base_y : Z) (c : color) (w : world) :
  height <= -3 ->
  draw_building_silhouette rasterize img x width height base_y c w = Raise ValueError w.
Proof.
  intros Hh. unfold draw_building_silhouette, bind at 1. unfold randint.
  destruct (Z.ltb_spec (height / 2) (height / 4)) as [_|H]; [reflexivity|].
  exfalso. Z.to_euclidean_division_equations. lia.
Qed.

Lemma draw_building_silhouette_negative_height_witness :
  draw_building_silhouette raster_ref demo_image 0 50 (-3) 100 (35, 40, 50) demo_world
  = Raise ValueError demo_world.
Proof. apply draw_building_silhouette_negative_height. lia. Defined.

(** X6: for a non-negative height, [draw_building_silhouette] returns and
    its first drawing call is the outline: it starts at the base line on the
    left edge, goes up to the top line, which lies between a quarter and a
    half of [height] above the base, follows roofline points that stay
    within 20 above and 30 below the top line, and closes on the base line at
    [x + width].  The image keeps its mode and size and no file is
    written. *)
Theorem silhouette_outline
    (rasterize : pil_op -> image -> Z -> Z -> quad) (img : image)
    (x width height base_y : Z) (c : color) (w : world) :
  0 <= height -> Z.abs x < 2 ^ 63 -> Z.abs width <= 2 ^ 53 ->
  exists img' w' top_y roof rest,
    draw_building_silhouette rasterize img x width height base_y c w = Ok img' w' /\
    same_shape img img' /\ w_files w' = w_files w /\
    base_y - height / 2 <= top_y <= base_y - height / 4 /\
    w_trace w' = w_trace w
      ++ EvPil (Polygon ((NInt x, base_y) :: (NInt x, top_y) :: roof
                         ++ [(NInt (x + width), base_y)]) (ink3 c)) :: rest /\
    Forall (fun p : num * Z => top_y - 20 <= snd p <= top_y + 30) roof.
Proof.
  intros Hh Hx Hw.
  destruct (draw_building_silhouette_events rasterize img x width height base_y c
              Hh Hx Hw w)
    as (img' & w' & Hrun & Hf & evs & Ht & Hs
        & bh & k & roof & rows & cols & rest & Hbh & _ & _ & Hb & _ & _ & _ & _ & ->).
  exists img', w', (base_y - bh), roof, rest.
  split; [exact Hrun|]. split; [exact Hs|]. split; [exact Hf|].
  split; [lia|]. split; [exact Ht|exact Hb].
Qed.

Lemma silhouette_outline_witness :
  exists img' w' top_y roof rest,
    draw_building_silhouette raster_ref demo_image 10 50 100 200 (35, 40, 50) demo_world
      = Ok img' w' /\
    same_shape demo_image img' /\ w_files w' = w_files demo_world /\
    200 - 100 / 2 <= top_y <= 200 - 100 / 4 /\
    w_trace w' = w_trace demo_world
      ++ EvPil (Polygon ((NInt 10, 200) :: (NInt 10, top_y) :: roof
                         ++ [(NInt (10 + 50), 200)]) (ink3 (35, 40, 50))) :: rest /\
    Forall (fun p : num * Z => top_y - 20 <= snd p <= top_y + 30) roof.
Proof.
  apply (silhouette_outline raster_ref demo_image 10 50 100 200 (35, 40, 50) demo_world);
    cbn; lia.
Defined.

Lemma window_offset_bound i n span :
  0 <= i < n -> 0 <= span -> 0 <= i * span / n <= span.
Proof.
  intros Hi Hs. split.
  - apply Z.div_pos; nia.
  - apply Z.div_le_upper_bound; nia.
Qed.

(** X7: when the building is at least 20 wide and [height] at least 160 (so
    that the building is at least 40 high), every drawing call after the
    outline is a window: a rectangle 8 wide and 12 high that lies inside the
    body of the building, between [x + 10] and [x + width - 2] horizontally
    and between 20 below the top line and 8 above the base line; it is
    filled with amber or with the building colour darkened by 15 (not below
    0).  There are at most 40 windows. *)
Theorem silhouette_windows_inside
    (rasterize : pil_op -> image -> Z -> Z -> quad) (img : image)
    (x width height base_y : Z) (c : color) (w : world) :
  160 <= height -> Z.abs x < 2 ^ 63 -> 20 <= width <= 2 ^ 53 ->
  exists img' w' top_y pts rest,
    draw_building_silhouette rasterize img x width height base_y c w = Ok img' w' /\
    base_y - height / 2 <= top_y <= base_y - height / 4 /\
    w_trace w' = w_trace w ++ EvPil (Polygon pts (ink3 c)) :: rest /\
    (List.length rest <= 40)%nat /\
    Forall (fun ev =>
              exists x0 y0 wc,
                ev = EvPil (Rectangle x0 y0 (x0 + 8) (y0 + 12) (ink3 wc)) /\
                x + 10 <= x0 /\ x0 + 8 <= x + width - 2 /\
                top_y + 20 <= y0 /\ y0 + 12 <= base_y - 8 /\
                (wc = COLORS "amber" \/ wc = color_map (fun ch => Z.max 0 (ch - 15)) c))
           rest.
Proof.
  intros Hh Hx Hw.
  destruct (draw_building_silhouette_events rasterize img x width height base_y c
              ltac:(lia) Hx ltac:(lia) w)
    as (img' & w' & Hrun & Hf & evs & Ht & Hs
        & bh & k & roof & rows & cols & rest & Hbh & _ & _ & _ & Hrows & Hcols
        & Hlen & HW & ->).
  exists img', w', (base_y - bh). eexists. exists rest.
  split; [exact Hrun|]. split; [lia|]. split; [exact Ht|].
  split; [assert (rows * cols <= 40) by nia; lia|].
  eapply Forall_impl; [|exact HW]. cbv beta.
  intros ev (row & col & wc & Hrow & Hcol & Hwc & ->).
  assert (Hbh40 : 40 <= bh) by (Z.to_euclidean_division_equations; lia).
  pose proof (window_offset_bound col cols (width - 20) Hcol ltac:(lia)) as Hox.
  pose proof (window_offset_bound row rows (bh - 40) Hrow ltac:(lia)) as Hoy.
  eexists _, _, wc. split; [reflexivity|]. repeat (split; [lia|]). exact Hwc.
Qed.

Lemma silhouette_windows_inside_witness :
  exists img' w' top_y pts rest,
    draw_building_silhouette raster_ref demo_image 10 50 1200 840 (35, 40, 50) demo_world
      = Ok img' w' /\
    840 - 1200 / 2 <= top_y <= 840 - 1200 / 4 /\
    w_trace w' = w_trace demo_world ++ EvPil (Polygon pts (ink3 (35, 40, 50))) :: rest /\
    (List.length rest <= 40)%nat /\
    Forall (fun ev =>
              exists x0 y0 wc,
                ev = EvPil (Rectangle x0 y0 (x0 + 8) (y0 + 12) (ink3 wc)) /\
                10 + 10 <= x0 /\ x0 + 8 <= 10 + 50 - 2 /\
                top_y + 20 <= y0 /\ y0 + 12 <= 840 - 8 /\
                (wc = COLORS "amber"
                 \/ wc = color_map (fun ch => Z.max 0 (ch - 15)) (35, 40, 50)))
           rest.
Proof.
  apply (silhouette_windows_inside raster_ref demo_image 10 50 1200 840 (35, 40, 50)
           demo_world); cbn; lia.
Defined.

(** ** The drawing calls of a scene *)

(** Step a run through a computation that only records events. *)
Lemma returns_after_emits {A B} (m : M A) (k : A -> M B) (P : A -> list event -> Prop)
    w (Q : B -> world -> Prop) :
  emits m P ->
  (forall a evs w1, P a evs -> w_files w1 = w_files w ->
     w_trace w1 = w_trace w ++ evs -> returns (k a) w1 Q) ->
  returns (bind m k) w Q.
Proof.
  intros Hm Hk. apply returns_bind.
  eapply returns_weaken; [apply Hm|]. cbv beta.
  intros a w1 (Hf & evs & Ht & HP). exact (Hk a evs w1 HP Hf Ht).
Qed.

Lemma emits_add_noise img intensity :
  0 <= intensity -> im_mode img <> ModeL ->
  emits (add_noise img intensity) (fun img' evs => same_shape img img' /\ evs = []).
Proof.
  intros HI Hm w.
  eapply returns_weaken; [apply (add_noise_spec intensity HI img w); intros; exact Hm|].
  cbv beta. intros img' w' (-> & H1 & H2 & H3 & _). split; [reflexivity|].
  exists []. split; [symmetry; apply app_nil_r|]. split; [repeat split; assumption|reflexivity].
Qed.


Lemma haze_layer_events rasterize layer img :
  emits (haze_layer rasterize 640 1200 layer img)
    (fun img' evs => same_shape img img' /\ haze_events layer evs).
Proof.
  unfold haze_layer. change (COLORS "fog") with (160, 170, 180). cbv iota beta.
  eapply emits_silent; [apply emits_lift; reflexivity|]. intros haze ->.
  eapply emits_bind; [apply emits_pil|]. cbv beta. intros haze' evs1 [-> ->].
  eapply emits_weaken; [apply emits_pil|]. cbv beta. intros img' evs2 [-> ->].
  split; [repeat split|]. eexists _, _.
  split; [|split; [|split; [|split; [|reflexivity]]]]; reflexivity.
Qed.

Lemma snow_particle_events rasterize i img :
  emits (snow_particle rasterize 640 1200 i img)
    (fun img' evs => same_shape img img' /\ exists ev, evs = [ev] /\ snow_event ev).
Proof.
  unfold snow_particle.
  emits_draw sx Hsx. emits_draw sy Hsy. emits_draw size Hsize. emits_draw alpha Halpha.
  eapply emits_weaken; [apply emits_pil|]. cbv beta. intros img' evs [-> ->].
  split; [repeat split|]. eexists. split; [reflexivity|].
  exists sx, sy, size. repeat (split; [assumption|]). reflexivity.
Qed.

Lemma building_row_events rasterize n xlo xhi wlo whi base_y c img :
  xlo <= xhi -> wlo <= whi ->
  -(2 ^ 53) < xlo -> xhi < 2 ^ 53 -> -(2 ^ 53) <= wlo -> whi <= 2 ^ 53 ->
  rgb_canvas 640 1200 img ->
  emits
    (for_each (range n)
       (fun _ img =>
          bx <- randint xlo xhi ;;
          bw <- randint wlo whi ;;
          draw_building_silhouette rasterize img bx bw 1200 base_y c) img)
    (fun img' evs =>
       rgb_canvas 640 1200 img' /\
       exists groups,
         List.length groups = Z.to_nat n /\
         Forall (scene_building xlo xhi wlo whi base_y c) groups /\
         evs = List.concat groups).
Proof.
  intros Hx Hw Hxl Hxh Hwl Hwh Hc.
  eapply emits_weaken.
  - apply (emits_for_each_groups (rgb_canvas 640 1200)
      (fun (_ : Z) g => scene_building xlo xhi wlo whi base_y c g)); [exact Hc|].
    intros i s _ Hs.
    emits_draw bx Hbx. emits_draw bw Hbw.
    assert (2 ^ 53 < 2 ^ 63) by reflexivity.
    eapply emits_weaken;
      [apply draw_building_silhouette_events; lia|].
    cbv beta. intros s' evs (Hs' & Hb). split; [exact (rgb_canvas_shape _ _ _ _ Hs Hs')|].
    exists bx, bw. auto.
  - cbv beta. intros img' evs (Hc' & groups & HQ & ->). split; [exact Hc'|].
    exists groups. split; [rewrite (Forall2_length_eq _ _ _ HQ); apply range_length|].
    split; [|reflexivity]. eapply Forall2_right; [exact HQ|]. cbv beta. auto.
Qed.

Tactic Notation "emits_step" uconstr(H) ident(a) ident(evs) ident(w1) ident(HP) ident(Hf)
    ident(Ht) :=
  eapply returns_after_emits; [eapply H|cbv beta; intros a evs w1 HP Hf Ht].

Lemma create_scene_background_run rasterize output_dir scene_name scene_config w :
  color8 (dict_get scene_config "sky_top" (COLORS "charcoal")) ->
  color8 (dict_get scene_config "sky_bottom" (COLORS "slate")) ->
  returns (create_scene_background rasterize output_dir scene_name scene_config) w
    (fun path w' =>
       path = os_path_join (backgrounds_dir output_dir) (scene_name ++ ".png") /\
       exists img evs,
         w_files w' = w_files w ++ [(path, img)] /\ rgb_canvas 640 1200 img /\
         w_trace w' = w_trace w ++ evs /\ scene_events scene_config path evs).
Proof.
  intros Htop Hbottom. unfold create_scene_background. cbv zeta.
  emits_step create_gradient_events img1 sky w1 H1 F1 T1;
    [split; [lia|reflexivity]|split; [lia|reflexivity]|exact Htop|exact Hbottom|].
  destruct H1 as [C1 Hsky]. change (String.eqb "vertical" "vertical") with true in Hsky.
  cbv iota in Hsky.
  emits_step (emits_for_each_groups (rgb_canvas 640 1200) haze_events)
    img2 hz w2 H2 F2 T2; [exact C1| |].
  { intros layer s _ Hs. eapply emits_weaken; [apply haze_layer_events|]. cbv beta.
    intros s' evs (Hs' & He). split; [exact (rgb_canvas_shape _ _ _ _ Hs Hs')|exact He]. }
  destruct H2 as (C2 & haze & Hhaze & ->).
  apply returns_bind. eapply returns_lift; [reflexivity|].
  apply returns_bind. eapply returns_lift; [vm_compute; reflexivity|].
  emits_step building_row_events img3 e3 w3 H3 F3 T3; try lia; try reflexivity;
    [exact C2|].
  destruct H3 as (C3 & far & Lfar & Hfar & ->).
  emits_step building_row_events img4 e4 w4 H4 F4 T4; try lia; try reflexivity;
    [exact C3|].
  destruct H4 as (C4 & mid & Lmid & Hmid & ->).
  emits_step building_row_events img5 e5 w5 H5 F5 T5; try lia; try reflexivity;
    [exact C4|].
  destruct H5 as (C5 & near & Lnear & Hnear & ->).
  emits_step emits_pil img6 e6 w6 H6 F6 T6. destruct H6 as [-> ->].
  emits_step (emits_for_each_single (rgb_canvas 640 1200) (fun (_ : Z) => snow_event))
    img7 snow w7 H7 F7 T7; [exact C5| |].
  { intros i s _ Hs. eapply emits_weaken; [apply snow_particle_events|]. cbv beta.
    intros s' evs (Hs' & He). split; [exact (rgb_canvas_shape _ _ _ _ Hs Hs')|exact He]. }
  destruct H7 as (C7 & Hsnow).
  emits_step emits_add_noise img8 e8 w8 H8 F8 T8;
    [lia|destruct C7 as (Hm & _); rewrite Hm; discriminate|].
  destruct H8 as [S8 ->].
  emits_step emits_pil img9 e9 w9 H9 F9 T9. destruct H9 as [-> ->].
  destruct (rgb_canvas_shape _ _ _ _ C7 S8) as (_ & Hw8 & Hh8).
  apply returns_bind, returns_save;
    [cbn [with_buf im_width]; rewrite Hw8; reflexivity
    |cbn [with_buf im_height]; rewrite Hh8; reflexivity|].
  apply returns_bind, returns_print. apply returns_ret.
  split; [reflexivity|]. eexists _, _.
  split; [cbn [logged w_files]; rewrite F9, F8, F7, F6, F5, F4, F3, F2, F1; reflexivity|].
  split; [exact (rgb_canvas_shape _ _ _ _ C7 S8)|]. split.
  - cbn [logged w_trace]. rewrite T9, T8, T7, T6, T5, T4, T3, T2, T1.
    rewrite app_nil_r, <- !app_assoc. reflexivity.
  - exists sky, haze, far, mid, near, snow.
    split; [cbn [app]; reflexivity|].
    split; [exact Hsky|]. split; [exact Hhaze|].
    split; [exact Lfar|]. split; [exact Hfar|].
    split; [exact Lmid|]. split; [exact Hmid|].
    split; [exact Lnear|]. split; [exact Hnear|].
    split; [rewrite (Forall2_length_eq _ _ _ Hsnow); reflexivity|].
    eapply Forall2_right; [exact Hsnow|]. cbv beta. auto.
Qed.





(** ** The drawing calls of the textures *)

(** X10: a negative width or height makes [create_ui_texture] raise
    [ValueError] when the canvas is created, for every style tag: nothing is
    drawn, no random number is taken and no file is written. *)
Theorem create_ui_texture_negative_size
    (rasterize : pil_op -> image -> Z -> Z -> quad) (output_dir name : string)
    (width height : Z) (base_color : color) (style : string) (w : world) :
  width < 0 \/ height < 0 ->
  create_ui_texture rasterize output_dir name width height base_color style w
  = Raise ValueError w.
Proof.
  intros H. unfold create_ui_texture. destruct base_color as [[br bg] bb].
  unfold bind at 1. unfold Image_new.
  replace ((width <? 0) || (height <? 0)) with true; [reflexivity|].
  symmetry. apply orb_true_iff. destruct H; [left|right]; apply Z.ltb_lt; assumption.
Qed.

Lemma create_ui_texture_negative_size_witness :
  create_ui_texture raster_ref "out" "slot" 64 (-1) (60, 45, 35) "inventory" demo_world
  = Raise ValueError demo_world.
Proof. apply create_ui_texture_negative_size. right. lia. Defined.

Section TextureEvents.

Variable rasterize : pil_op -> image -> Z -> Z -> quad.
Variable output_dir : string.

(** The common tail of [create_ui_texture], with what it records. *)
Lemma texture_tail_run name (img : image) evs0 w0 w :
  im_mode img = ModeRGBA -> 0 < im_width img -> 0 < im_height img ->
  w_files w = w_files w0 -> w_trace w = w_trace w0 ++ evs0 ->
  returns
    (img <- add_noise img 8 ;;
     save img (os_path_join (textures_dir output_dir) (name ++ ".png")) ;;
     print ("Created: " ++ os_path_join (textures_dir output_dir) (name ++ ".png")) ;;
     ret (os_path_join (textures_dir output_dir) (name ++ ".png"))) w
    (fun path w' =>
       path = os_path_join (textures_dir output_dir) (name ++ ".png") /\
       exists img',
         same_shape img img' /\
         w_files w' = w_files w0 ++ [(path, img')] /\
         w_trace w' = w_trace w0 ++ evs0 ++ [EvSave path; EvPrint ("Created: " ++ path)]).
Proof.
  intros Hm Hiw Hih Hf Ht.
  emits_step emits_add_noise img1 e1 w1 H1 F1 T1; [lia|rewrite Hm; discriminate|].
  destruct H1 as [S1 ->]. destruct S1 as (Hm1 & Hw1 & Hh1).
  assert (S1 : same_shape img img1) by (repeat split; assumption).
  apply returns_bind, returns_save; [rewrite Hw1; exact Hiw|rewrite Hh1; exact Hih|].
  apply returns_bind, returns_print. apply returns_ret.
  split; [reflexivity|]. exists img1. split; [exact S1|].
  split; [cbn [logged w_files]; congruence|].
  cbn [logged w_trace]. rewrite T1, Ht, app_nil_r, <- !app_assoc. reflexivity.
Qed.

Lemma rough_spot_events width height base_color i img :
  1 <= width -> 1 <= height ->
  emits (rough_spot rasterize width height base_color i img)
    (fun img' evs =>
       same_shape img img' /\
       exists ev, evs = [ev] /\ rough_spot_event width height base_color ev).
Proof.
  intros Hw Hh. unfold rough_spot.
  emits_draw x Hx. emits_draw y Hy. emits_draw darkness Hd. emits_draw size Hs.
  eapply emits_weaken; [apply emits_pil|]. cbv beta. intros img' evs [-> ->].
  split; [repeat split|]. eexists. split; [reflexivity|].
  exists x, y, darkness, size. repeat (split; [lia|]). reflexivity.
Qed.



End TextureEvents.

Lemma create_ui_texture_rough_run rasterize output_dir name width height base_color w :
  1 <= width -> 1 <= height ->
  returns
    (create_ui_texture rasterize output_dir name width height base_color "rough") w
    (fun path w' =>
       path = os_path_join (textures_dir output_dir) (name ++ ".png") /\
       exists img spots,
         w_files w' = w_files w ++ [(path, img)] /\
         (im_mode img = ModeRGBA /\ im_width img = width /\ im_height img = height) /\
         w_trace w' = w_trace w ++ spots ++ [EvSave path; EvPrint ("Created: " ++ path)] /\
         List.length spots = Z.to_nat (width * height / 20) /\
         Forall (rough_spot_event width height base_color) spots).
Proof.
  intros Hw Hh.
  unfold create_ui_texture. destruct base_color as [[br bg] bb].
  destruct (texture_canvas_new width height (br, bg, bb, 255)) as (img0 & E0 & M0 & W0 & H0);
    [lia|lia|].
  apply returns_bind. eapply returns_lift; [exact E0|].
  replace (String.eqb "rough" "rough") with true by reflexivity.
  emits_step (emits_for_each_single (same_shape img0)
                (fun (_ : Z) => rough_spot_event width height (br, bg, bb)))
    img1 spots w1 H1 F1 T1; [repeat split| |].
  { intros i s Hi Hs.
    eapply emits_weaken; [apply rough_spot_events; assumption|]. cbv beta.
    intros s' evs (Hs' & He). split; [exact (same_shape_trans _ _ _ Hs Hs')|exact He]. }
  destruct H1 as (S1 & Hspots). destruct (S1) as (Hm1 & Hw1 & Hh1).
  eapply returns_weaken;
    [apply (texture_tail_run output_dir name img1 spots w w1);
       [congruence|lia|lia|exact F1|exact T1]|].
  cbv beta. intros path w' (-> & img' & S2 & Hf & Ht). split; [reflexivity|].
  exists img', spots. split; [exact Hf|].
  split; [destruct (same_shape_trans _ _ _ S1 S2) as (? & ? & ?);
          repeat split; congruence|].
  split; [exact Ht|].
  split; [rewrite (Forall2_length_eq _ _ _ Hspots); apply range_length|].
  eapply Forall2_right; [exact Hspots|]. cbv beta. auto.
Qed.






(** X13: the inventory style cannot shade a canvas of a single pixel: the
    centre is [(0, 0)], the largest distance is 0.0, and the division
    [dist / max_dist] raises [ZeroDivisionError] at the first pixel.
    Nothing is drawn and no file is written. *)
Theorem create_ui_texture_inventory_single_pixel
    (rasterize : pil_op -> image -> Z -> Z -> quad) (output_dir name : string)
    (base_color : color) (w : world) :
  create_ui_texture rasterize output_dir name 1 1 base_color "inventory" w
  = Raise ZeroDivisionError w.
Proof.
  unfold create_ui_texture. destruct base_color as [[br bg] bb]. reflexivity.
Qed.

(** ** The inventory slot of the catalog *)

Lemma darkness_range_test_spec cx cy x y :
  darkness_range_test cx cy x y = true ->
  exists d, inventory_darkness cx cy x y = inr d /\ 0 <= d <= 30.
Proof.
  unfold darkness_range_test, inventory_darkness.
  destruct (math_sqrt ((x - cx) ^ 2 + (y - cy) ^ 2)) as [e|dist]; [discriminate|].
  destruct (math_sqrt (cx ^ 2 + cy ^ 2)) as [e|max_dist]; [discriminate|].
  intros H. apply andb_prop in H. destruct H as [H Hhi].
  apply andb_prop in H. destruct H as [Hz Hlo].
  cbn [ebind]. unfold py_fdiv. destruct (PrimFloat.is_zero max_dist); [discriminate|].
  cbn [ebind].
  destruct (py_int_between 0 31 (30 * (dist / max_dist))%float) as (d & Hd & Hr);
    [lia|lia|reflexivity|exact Hlo|exact Hhi|].
  exists d. split; [exact Hd|lia].
Qed.

Lemma darkness_range_rows_64 :
  forallb (darkness_range_row_test (64 / 2) (64 / 2) 64) (range 64) = true.
Proof. vm_compute. reflexivity. Qed.

Lemma inventory_darkness_range_64 x y :
  0 <= x < 64 -> 0 <= y < 64 ->
  exists d, inventory_darkness (64 / 2) (64 / 2) x y = inr d /\ 0 <= d <= 30.
Proof.
  intros Hx Hy. apply darkness_range_test_spec.
  pose proof (proj1 (forallb_forall _ _) darkness_range_rows_64 y
                ltac:(apply in_range; lia)) as H.
  unfold darkness_range_row_test in H.
  exact (proj1 (forallb_forall _ _) H x ltac:(apply in_range; lia)).
Qed.

Lemma highlight_alpha_table i :
  In i (range 20) -> highlight_alpha i = inr (nth (Z.to_nat i) highlight_alphas 0).
Proof.
  intros H. change (range 20) with
    [0; 1; 2; 3; 4; 5; 6; 7; 8; 9; 10; 11; 12; 13; 14; 15; 16; 17; 18; 19] in H.
  repeat (destruct H as [<-|H]; [vm_compute; reflexivity|]). destruct H.
Qed.

Section InventoryEvents.

Variable rasterize : pil_op -> image -> Z -> Z -> quad.

Lemma inventory_pixel_events cx cy base_color y x img :
  color_upto_250 base_color ->
  (exists d, inventory_darkness cx cy x y = inr d /\ 0 <= d <= 30) ->
  emits (inventory_pixel rasterize cx cy base_color y x img)
    (fun img' evs =>
       same_shape img img' /\ exists ev, evs = [ev] /\ inventory_pixel_event y x ev).
Proof.
  intros Hc (d & Hd & Hr). unfold inventory_pixel.
  destruct base_color as [[br bg] bb]. destruct Hc as (Hbr & Hbg & Hbb).
  eapply emits_silent; [apply emits_lift, Hd|]. intros d' ->.
  emits_draw dr Hdr. emits_draw dg Hdg. emits_draw db Hdb.
  eapply emits_weaken; [apply emits_pil|]. cbv beta. intros img' evs [-> ->].
  split; [repeat split|]. eexists. split; [reflexivity|].
  do 3 eexists. split; [|split; [|split; [|reflexivity]]]; unfold chan8; lia.
Qed.

Lemma inventory_highlight_events i img :
  In i (range 20) ->
  emits (inventory_highlight rasterize i img)
    (fun img' evs => same_shape img img' /\ exists ev, evs = [ev] /\ highlight_event i ev).
Proof.
  intros Hi. pose proof (highlight_alpha_table i Hi) as Ha.
  unfold highlight_alpha in Ha. unfold inventory_highlight.
  destruct (py_truediv i 20) as [e|t]; [discriminate|]. cbn [ebind] in Ha.
  eapply emits_silent; [apply emits_lift; reflexivity|]. intros t' ->.
  eapply emits_silent; [apply emits_lift, Ha|]. intros a ->.
  eapply emits_weaken; [apply emits_pil|]. cbv beta. intros img' evs [-> ->].
  split; [repeat split|]. eexists. split; [reflexivity|]. unfold highlight_event. reflexivity.
Qed.

End InventoryEvents.

Lemma inventory_slot_run rasterize output_dir name base_color w :
  color_upto_250 base_color ->
  returns
    (create_ui_texture rasterize output_dir name 64 64 base_color "inventory") w
    (fun path w' =>
       path = os_path_join (textures_dir output_dir) (name ++ ".png") /\
       exists img rows highlights,
         w_files w' = w_files w ++ [(path, img)] /\
         (im_mode img = ModeRGBA /\ im_width img = 64 /\ im_height img = 64) /\
         w_trace w' = w_trace w ++ List.concat rows ++ highlights
           ++ [EvSave path; EvPrint ("Created: " ++ path)] /\
         Forall2 (fun y row => Forall2 (inventory_pixel_event y) (range 64) row)
           (range 64) rows /\
         Forall2 highlight_event (range 20) highlights).
Proof.
  intros Hc.
  unfold create_ui_texture.
  assert (Hc' := Hc). destruct base_color as [[br bg] bb].
  destruct (texture_canvas_new 64 64 (br, bg, bb, 255)) as (img0 & E0 & M0 & W0 & H0);
    [lia|lia|].
  apply returns_bind. eapply returns_lift; [exact E0|].
  replace (String.eqb "inventory" "rough") with false by reflexivity.
  replace (String.eqb "inventory" "brushstroke") with false by reflexivity.
  replace (String.eqb "inventory" "inventory") with true by reflexivity.
  cbv zeta.
  apply (returns_after_emits _ _
    (fun img2 evs =>
       same_shape img0 img2 /\
       exists rows highlights,
         evs = List.concat rows ++ highlights /\
         Forall2 (fun y row => Forall2 (inventory_pixel_event y) (range 64) row)
           (range 64) rows /\
         Forall2 highlight_event (range 20) highlights)).
  { eapply emits_bind.
    - apply (emits_for_each_groups (same_shape img0)
               (fun y row => Forall2 (inventory_pixel_event y) (range 64) row));
        [repeat split|].
      intros y s Hy Hs. apply in_range in Hy.
      apply (emits_for_each_single (same_shape img0) (inventory_pixel_event y));
        [exact Hs|].
      intros x s' Hx Hs'. apply in_range in Hx.
      eapply emits_weaken;
        [apply inventory_pixel_events;
           [exact Hc'|apply inventory_darkness_range_64; assumption]|].
      cbv beta. intros s'' evs (Hs'' & He).
      split; [exact (same_shape_trans _ _ _ Hs' Hs'')|exact He].
    - cbv beta. intros img1 evs1 (S1 & rows & Hrows & ->).
      eapply emits_weaken.
      + apply (emits_for_each_single (same_shape img0) highlight_event); [exact S1|].
        intros i s Hi Hs.
        eapply emits_weaken; [apply inventory_highlight_events, Hi|]. cbv beta.
        intros s' evs (Hs' & He). split; [exact (same_shape_trans _ _ _ Hs Hs')|exact He].
      + cbv beta. intros img2 highlights (S2 & Hh).
        split; [exact S2|]. exists rows, highlights. auto. }
  cbv beta. intros img2 evs w2 (S2 & rows & highlights & -> & Hrows & Hh) F2 T2.
  destruct (S2) as (Hm2 & Hw2 & Hh2).
  eapply returns_weaken;
    [apply (texture_tail_run output_dir name img2 (List.concat rows ++ highlights) w w2);
       [congruence|lia|lia|exact F2|exact T2]|].
  cbv beta. intros path w' (-> & img' & S3 & Hf & Ht). split; [reflexivity|].
  exists img', rows, highlights. split; [exact Hf|].
  split; [destruct (same_shape_trans _ _ _ S2 S3) as (? & ? & ?);
          repeat split; congruence|].
  split; [rewrite Ht, <- !app_assoc; reflexivity|]. auto.
Qed.

(** ** Textures without pixels *)








(** ** The drawing calls of the speaker brush stroke *)

Section BrushStrokeEvents.

Variable rasterize : pil_op -> image -> Z -> Z -> quad.
Variable math_sin : float -> float.
Hypothesis sin_range : sin_bounded math_sin.

Lemma stroke_row_events y img :
  5 <= y < 35 ->
  emits (stroke_row rasterize math_sin 200 40 (COLORS "rust") y img)
    (fun img' evs =>
       same_shape img img' /\
       exists ev, evs = [ev] /\ stroke_row_event math_sin 40 y (Some ev)).
Proof.
  intros Hy w.
  destruct (stroke_wave_spec math_sin sin_range 40 y ltac:(lia) ltac:(reflexivity))
    as (p & Hp & Hwave & Hmag).
  set (wave := (math_sin (p * math_pi) * 0x1.3333333333333p-2
                + 0x1.6666666666666p-1)%float) in *.
  assert (H53 : 2 ^ 5 <= 2 ^ 53) by (apply Z.pow_le_mono_r; lia).
  unfold stroke_row.
  apply returns_bind. eapply returns_lift; [exact Hwave|].
  apply returns_bind, returns_randint; [lia|intros j1 Hj1].
  assert (Hf1 : fmag 5 (float_of_small j1))
    by (apply fmag_small_int; [lia|change (2 ^ 5) with 32; lia]).
  apply returns_bind. eapply returns_lift; [apply py_float_small; lia|].
  apply returns_bind. step_int 20.
  apply returns_bind. eapply returns_lift; [apply py_float_small; reflexivity|].
  apply returns_bind, returns_randint; [lia|intros j2 Hj2].
  assert (Hf2 : fmag 5 (float_of_small j2))
    by (apply fmag_small_int; [lia|change (2 ^ 5) with 32; lia]).
  assert (Hfw : fmag 53 (float_of_small (200 - 10)))
    by (apply fmag_small_int; [lia|reflexivity]).
  apply returns_bind. eapply returns_lift; [apply py_float_small; lia|].
  apply returns_bind. step_int 60.
  apply returns_bind, returns_randint; [lia|intros variation Hvar].
  apply returns_bind. step_int 20.
  apply returns_bind, returns_randint; [lia|intros j3 Hj3].
  apply returns_pil. split; [reflexivity|]. eexists. split; [reflexivity|].
  split; [repeat split|]. eexists. split; [reflexivity|].
  exists p, wave, v1, j3. do 3 eexists.
  split; [exact Hp|]. split; [reflexivity|]. split; [exact Hv1|]. split; [exact Hj3|].
  reflexivity.
Qed.

Lemma stroke_dot_events i img :
  emits (stroke_dot rasterize 200 40 (COLORS "rust") i img)
    (fun img' evs => same_shape img img' /\ exists ev, evs = [ev] /\ stroke_dot_event ev).
Proof.
  unfold stroke_dot.
  emits_draw x Hx. emits_draw y Hy. emits_draw size Hs. emits_draw darkness Hd.
  eapply emits_weaken; [apply emits_pil|]. cbv beta. intros img' evs [-> ->].
  split; [repeat split|]. eexists. split; [reflexivity|].
  exists x, y, size, darkness. repeat (split; [lia|]).
  change (COLORS "rust") with (90, 60, 45). cbn [color_map ink4].
  rewrite !clamp8_id by (unfold chan8; lia). reflexivity.
Qed.

Variable output_dir : string.

Lemma create_brush_stroke_speaker_run w :
  returns (create_brush_stroke_speaker rasterize math_sin output_dir) w
    (fun path w' =>
       path = os_path_join (textures_dir output_dir) "speaker_brush.png" /\
       exists img rows dots,
         w_files w' = w_files w ++ [(path, img)] /\
         (im_mode img = ModeRGBA /\ im_width img = 200 /\ im_height img = 40) /\
         w_trace w' = w_trace w ++ rows ++ dots
           ++ [EvSave path; EvPrint ("Created: " ++ path)] /\
         Forall2 (fun y ev => stroke_row_event math_sin 40 y (Some ev)) (range2 5 35) rows /\
         List.length dots = 100%nat /\ Forall stroke_dot_event dots).
Proof.
  unfold create_brush_stroke_speaker. cbv zeta.
  apply returns_bind. eapply returns_lift; [reflexivity|].
  set (img0 := mkImage ModeRGBA 200 40 (fun _ _ => (0, 0, 0, 0))).
  emits_step (emits_for_each_single (same_shape img0)
                (fun y ev => stroke_row_event math_sin 40 y (Some ev)))
    img1 rows w1 H1 F1 T1; [repeat split| |].
  { intros y s Hy Hs. apply in_range2 in Hy.
    eapply emits_weaken; [apply stroke_row_events; lia|]. cbv beta.
    intros s' evs (Hs' & He). split; [exact (same_shape_trans _ _ _ Hs Hs')|exact He]. }
  destruct H1 as (S1 & Hrows).
  emits_step (emits_for_each_single (same_shape img0) (fun (_ : Z) => stroke_dot_event))
    img2 dots w2 H2 F2 T2; [exact S1| |].
  { intros i s _ Hs. eapply emits_weaken; [apply stroke_dot_events|]. cbv beta.
    intros s' evs (Hs' & He). split; [exact (same_shape_trans _ _ _ Hs Hs')|exact He]. }
  destruct H2 as (S2 & Hdots). destruct (S2) as (Hm2 & Hw2 & Hh2).
  apply returns_bind, returns_save; [rewrite Hw2; reflexivity|rewrite Hh2; reflexivity|].
  apply returns_bind, returns_print. apply returns_ret.
  split; [reflexivity|]. exists img2, rows, dots.
  split; [cbn [logged w_files]; rewrite F2, F1; reflexivity|].
  split; [destruct S2 as (? & ? & ?); auto|].
  split; [cbn [logged w_trace]; rewrite T2, T1, <- !app_assoc; reflexivity|].
  split; [exact Hrows|].
  split; [rewrite (Forall2_length_eq _ _ _ Hdots); reflexivity|].
  eapply Forall2_right; [exact Hdots|]. cbv beta. auto.
Qed.

End BrushStrokeEvents.

(** X15: whenever the sine stays in [[-1, 1]], the speaker brush stroke
    records its 30 row spans (rows 5 to 34, top to bottom), then exactly 100
    texture dots, then the save and its log line, and the file it writes at
    [textures_dir/speaker_brush.png] is an RGBA image of 200 by 40.  Every
    dot is an ellipse 1 to 3 wide with its corner in [[15, 185]] x
    [[8, 32]], so it lies inside the canvas; its colour is rust shifted by
    one amount of [[-20, 20]] on the three channels, which never needs
    clamping, at alpha 180. *)
Theorem brush_stroke_dots
    (rasterize : pil_op -> image -> Z -> Z -> quad) (math_sin : float -> float)
    (output_dir : string) (w : world) :
  sin_bounded math_sin ->
  exists path img w' rows dots,
    create_brush_stroke_speaker rasterize math_sin output_dir w = Ok path w' /\
    path = os_path_join (textures_dir output_dir) "speaker_brush.png" /\
    w_files w' = w_files w ++ [(path, img)] /\
    im_mode img = ModeRGBA /\ im_width img = 200 /\ im_height img = 40 /\
    w_trace w' = w_trace w ++ rows ++ dots
      ++ [EvSave path; EvPrint ("Created: " ++ path)] /\
    List.length rows = 30%nat /\
    List.length dots = 100%nat /\ Forall stroke_dot_event dots.
Proof.
  intros Hsin.
  destruct (create_brush_stroke_speaker_run rasterize math_sin Hsin output_dir w)
    as (path & w' & Hrun & Hpath & img & rows & dots & Hf & (Hm & Hiw & Hih) & Ht
        & Hrows & Hl & Hd).
  exists path, img, w', rows, dots. repeat (split; [assumption|]).
  split; [rewrite (Forall2_length_eq _ _ _ Hrows); reflexivity|]. auto.
Qed.

Lemma brush_stroke_dots_witness :
  exists path img w' rows dots,
    create_brush_stroke_speaker raster_ref sin_ref "/srv/assets" demo_world = Ok path w' /\
    path = "/srv/assets/textures/speaker_brush.png"%string /\
    w_files w' = w_files demo_world ++ [(path, img)] /\
    im_mode img = ModeRGBA /\ im_width img = 200 /\ im_height img = 40 /\
    w_trace w' = w_trace demo_world ++ rows ++ dots
      ++ [EvSave path; EvPrint ("Created: " ++ path)] /\
    List.length rows = 30%nat /\
    List.length dots = 100%nat /\ Forall stroke_dot_event dots.
Proof.
  exact (brush_stroke_dots raster_ref sin_ref "/srv/assets" demo_world sin_ref_bounded).
Defined.

(** ** The console output *)

Lemma printed_app evs1 evs2 : printed (evs1 ++ evs2) = printed evs1 ++ printed evs2.
Proof. unfold printed. apply flat_map_app. Qed.

Lemma printed_pil evs : Forall pil_event evs -> printed evs = [].
Proof.
  induction 1 as [|e evs (op & ->) _ IH]; [reflexivity|]. cbn. exact IH.
Qed.

Lemma pil_concat (groups : list (list event)) :
  Forall (Forall pil_event) groups -> Forall pil_event (List.concat groups).
Proof.
  induction 1 as [|g groups Hg _ IH]; cbn [List.concat]; [constructor|].
  apply Forall_app. split; assumption.
Qed.

Lemma pil_forall2 {A} (Q : A -> event -> Prop) l evs :
  Forall2 Q l evs -> (forall a e, Q a e -> pil_event e) -> Forall pil_event evs.
Proof. intros H HQ. eapply Forall2_right; [exact H|]. intros a e _. apply HQ. Qed.

Lemma pil_building x width height base_y c evs :
  building_events x width height base_y c evs -> Forall pil_event evs.
Proof.
  intros (bh & k & roof & rows & cols & rest & _ & _ & _ & _ & _ & _ & _ & HW & ->).
  constructor; [eexists; reflexivity|].
  eapply Forall_impl; [|exact HW]. cbv beta.
  intros e (row & col & wc & _ & _ & _ & ->). eexists. reflexivity.
Qed.

Lemma pil_scene_buildings xlo xhi wlo whi base_y c (groups : list (list event)) :
  Forall (scene_building xlo xhi wlo whi base_y c) groups ->
  Forall pil_event (List.concat groups).
Proof.
  intros H. apply pil_concat. eapply Forall_impl; [|exact H]. cbv beta.
  intros g (bx & bw & _ & _ & Hb). exact (pil_building _ _ _ _ _ _ Hb).
Qed.

(** A run that ends with the save of a file and its log line, after
    drawing calls only, prints that one line. *)
Lemma printed_created evs path :
  Forall pil_event evs ->
  printed (evs ++ [EvSave path; EvPrint ("Created: " ++ path)])
  = [("Created: " ++ path)%string].
Proof. intros H. rewrite printed_app, (printed_pil _ H). reflexivity. Qed.

Lemma prints_ret {A} (a : A) : prints [] (ret a).
Proof.
  intros w. apply returns_ret. exists []. split; [symmetry; apply app_nil_r|reflexivity].
Qed.

Lemma prints_print s : prints [s] (print s).
Proof. intros w. apply returns_print. exists [EvPrint s]. split; reflexivity. Qed.

Lemma prints_bind {A B} l1 l2 (m : M A) (k : A -> M B) :
  prints l1 m -> (forall a, prints l2 (k a)) -> prints (l1 ++ l2) (bind m k).
Proof.
  intros Hm Hk w. apply returns_bind.
  eapply returns_weaken; [apply Hm|]. cbv beta. intros a w1 (evs1 & T1 & P1).
  eapply returns_weaken; [apply Hk|]. cbv beta. intros b w2 (evs2 & T2 & P2).
  exists (evs1 ++ evs2). split; [rewrite T2, T1, app_assoc; reflexivity|].
  rewrite printed_app, P1, P2. reflexivity.
Qed.

Lemma prints_for_each {A} (l : list A) (body : A -> unit -> M unit) (line : A -> string) :
  (forall a, In a l -> prints [line a] (body a tt)) ->
  prints (map line l) (for_each l body tt).
Proof.
  induction l as [|a l IH]; intros H; cbn [for_each map].
  - apply prints_ret.
  - change (line a :: map line l) with ([line a] ++ map line l).
    apply prints_bind; [apply H; left; reflexivity|].
    intros []. apply IH. intros a' Ha'. apply H. right. exact Ha'.
Qed.

Section Output.

Variable rasterize : pil_op -> image -> Z -> Z -> quad.
Variable math_sin : float -> float.
Variable output_dir : string.
Hypothesis sin_ok : sin_bounded math_sin.

Lemma prints_scene name config :
  In (name, config) scenes ->
  prints [("Created: " ++ os_path_join (backgrounds_dir output_dir) (name ++ ".png"))%string]
    (create_scene_background rasterize output_dir name config).
Proof.
  intros Hin w. destruct (scenes_colors name config Hin) as [Ht Hb].
  eapply returns_weaken; [apply create_scene_background_run; assumption|]. cbv beta.
  intros path w' (-> & img & evs & _ & _ & T & Hev). exists evs. split; [exact T|].
  destruct Hev as (sky & haze & far & mid & near & snow & -> & Hsky & Hhaze
                   & _ & Hfar & _ & Hmid & _ & Hnear & _ & Hsnow).
  assert (Psky : Forall pil_event sky).
  { eapply pil_forall2; [exact Hsky|]. intros i e (r & g & b & _ & ->). eexists. reflexivity. }
  assert (Phaze : Forall pil_event (List.concat haze)).
  { apply pil_concat. eapply Forall2_right; [exact Hhaze|]. cbv beta.
    intros layer g _ (src & mask & _ & _ & _ & _ & ->).
    repeat (constructor; [eexists; reflexivity|]). constructor. }
  assert (Psnow : Forall pil_event snow).
  { eapply Forall_impl; [|exact Hsnow]. cbv beta.
    intros e (sx & sy & sz & _ & _ & _ & ->). eexists. reflexivity. }
  rewrite !printed_app, (printed_pil _ Psky), (printed_pil _ Phaze),
    (printed_pil _ (pil_scene_buildings _ _ _ _ _ _ _ Hfar)),
    (printed_pil _ (pil_scene_buildings _ _ _ _ _ _ _ Hmid)),
    (printed_pil _ (pil_scene_buildings _ _ _ _ _ _ _ Hnear)).
  cbn [app]. change (?e :: snow ++ ?t) with ([e] ++ snow ++ t).
  rewrite !printed_app, (printed_pil _ Psnow). reflexivity.
Qed.

Lemma prints_rough name width height base_color :
  1 <= width -> 1 <= height ->
  prints [("Created: " ++ os_path_join (textures_dir output_dir) (name ++ ".png"))%string]
    (create_ui_texture rasterize output_dir name width height base_color "rough").
Proof.
  intros Hw Hh w.
  eapply returns_weaken; [apply create_ui_texture_rough_run; assumption|]. cbv beta.
  intros path w' (-> & img & spots & _ & _ & T & _ & Hs). eexists. split; [exact T|].
  apply printed_created. eapply Forall_impl; [|exact Hs]. cbv beta.
  intros e (x & y & d & sz & _ & _ & _ & _ & ->). eexists. reflexivity.
Qed.

Lemma prints_inventory_slot name base_color :
  color_upto_250 base_color ->
  prints [("Created: " ++ os_path_join (textures_dir output_dir) (name ++ ".png"))%string]
    (create_ui_texture rasterize output_dir name 64 64 base_color "inventory").
Proof.
  intros Hc w.
  eapply returns_weaken; [apply inventory_slot_run; assumption|]. cbv beta.
  intros path w' (-> & img & rows & highlights & _ & _ & T & Hr & Hh).
  eexists. split; [exact T|]. rewrite app_assoc. apply printed_created.
  apply Forall_app. split.
  - apply pil_concat. eapply Forall2_right; [exact Hr|]. cbv beta. intros y row _ Hrow.
    eapply pil_forall2; [exact Hrow|]. intros x e (r & g & b & _ & _ & _ & ->).
    eexists. reflexivity.
  - eapply pil_forall2; [exact Hh|]. intros i e ->. eexists. reflexivity.
Qed.

Lemma prints_brush_stroke :
  prints [("Created: " ++ os_path_join (textures_dir output_dir) "speaker_brush.png")%string]
    (create_brush_stroke_speaker rasterize math_sin output_dir).
Proof.
  intros w.
  eapply returns_weaken; [apply create_brush_stroke_speaker_run, sin_ok|]. cbv beta.
  intros path w' (-> & img & rows & dots & _ & _ & T & Hr & _ & Hd).
  eexists. split; [exact T|]. rewrite app_assoc. apply printed_created.
  apply Forall_app. split.
  - eapply pil_forall2; [exact Hr|].
    intros y e (p & wave & a0 & j & sx & ex & c & _ & _ & _ & _ & He).
    injection He as ->. eexists. reflexivity.
  - eapply Forall_impl; [|exact Hd]. cbv beta.
    intros e (x & y & sz & d & _ & _ & _ & _ & ->). eexists. reflexivity.
Qed.

Lemma main_prints : prints (main_lines output_dir) (main rasterize math_sin output_dir).
Proof.
  unfold main, main_lines.
  change (map (fun p => ("Created: " ++ p)%string) (catalog_backgrounds output_dir))
    with (map (fun sc : string * list (string * color) =>
                 ("Created: " ++ os_path_join (backgrounds_dir output_dir)
                                   (fst sc ++ ".png"))%string) scenes).
  match goal with
  | |- prints ([?a; ?b] ++ ?sc ++ [?c] ++ ?tx ++ [?d; ?e; ?f]) _ =>
      change ([a; b] ++ sc ++ [c] ++ tx ++ [d; e; f])
        with ([a] ++ [b] ++ sc ++ [c] ++ tx ++ [d] ++ [e] ++ [f])
  end.
  apply prints_bind; [apply prints_print|intros _].
  apply prints_bind; [apply prints_print|intros _].
  apply prints_bind.
  { apply prints_for_each. intros [name config] Hin.
    change [("Created: " ++ os_path_join (backgrounds_dir output_dir)
                              (fst (name, config) ++ ".png"))%string]
      with ([("Created: " ++ os_path_join (backgrounds_dir output_dir)
                               (name ++ ".png"))%string] ++ []).
    apply prints_bind; [apply prints_scene, Hin|intros _; apply prints_ret]. }
  intros _.
  apply prints_bind; [apply prints_print|intros _].
  change (map (fun p => ("Created: " ++ p)%string) (catalog_textures output_dir))
    with ([("Created: " ++ os_path_join (textures_dir output_dir) ("inv_slot" ++ ".png"))%string]
          ++ [("Created: " ++ os_path_join (textures_dir output_dir)
                                ("inv_slot_empty" ++ ".png"))%string]
          ++ [("Created: " ++ os_path_join (textures_dir output_dir)
                                ("btn_texture" ++ ".png"))%string]
          ++ [("Created: " ++ os_path_join (textures_dir output_dir)
                                ("btn_texture_hover" ++ ".png"))%string]
          ++ [("Created: " ++ os_path_join (textures_dir output_dir)
                                ("soundbox_texture" ++ ".png"))%string]
          ++ [("Created: " ++ os_path_join (textures_dir output_dir)
                                ("textbox_bg" ++ ".png"))%string]
          ++ [("Created: " ++ os_path_join (textures_dir output_dir)
                                "speaker_brush.png")%string]).
  rewrite <- !app_assoc.
  apply prints_bind;
    [apply prints_inventory_slot; cbv; intuition discriminate|intros _].
  apply prints_bind;
    [apply prints_inventory_slot; cbv; intuition discriminate|intros _].
  apply prints_bind; [apply prints_rough; lia|intros _].
  apply prints_bind; [apply prints_rough; lia|intros _].
  apply prints_bind; [apply prints_rough; lia|intros _].
  apply prints_bind; [apply prints_rough; lia|intros _].
  apply prints_bind; [apply prints_brush_stroke|intros _].
  apply prints_bind; [apply prints_print|intros _].
  apply prints_bind; [apply prints_print|intros _].
  apply prints_print.
Qed.

End Output.

(** X16: whenever the sine stays in [[-1, 1]], what [main] prints does not
    depend on the random stream: the banner and the heading of the
    backgrounds, one line "Created: <path>" per background of the catalog in
    table order, the heading of the textures, one line per texture in call
    order with the brush stroke last, and the three closing lines naming the
    two directories. *)
Theorem main_output
    (rasterize : pil_op -> image -> Z -> Z -> quad) (math_sin : float -> float)
    (output_dir : string) (w : world) :
  sin_bounded math_sin ->
  exists w' evs,
    main rasterize math_sin output_dir w = Ok tt w' /\
    w_trace w' = w_trace w ++ evs /\
    printed evs = main_lines output_dir.
Proof.
  intros Hsin.
  destruct (main_prints rasterize math_sin output_dir Hsin w) as ([] & w' & Hrun & evs & Ht & Hp).
  exists w', evs. auto.
Qed.

Lemma main_output_witness :
  exists w' evs,
    main raster_ref sin_ref "/srv/assets" demo_world = Ok tt w' /\
    w_trace w' = w_trace demo_world ++ evs /\
    nth_error (printed evs) 2
    = Some "Created: /srv/assets/backgrounds/scene_00_home.png"%string /\
    nth_error (printed evs) 22 = Some "Textures saved to: /srv/assets/textures"%string.
Proof.
  destruct (main_output raster_ref sin_ref "/srv/assets" demo_world sin_ref_bounded)
    as (w' & evs & Hrun & Ht & Hp).
  exists w', evs. split; [exact Hrun|]. split; [exact Ht|]. rewrite Hp. split; reflexivity.
Defined.
